(** * Ticket monitor: fetch pipeline, snapshot cache and change detector

  A shallow embedding of the core of the repository:
  - [src/src/services/ticketmaster.service.js]: [fetchAvailableTickets],
    [fetchNetworkData], [extractStadiumData], [captureScreenshot],
    [getBrowser];
  - the poller ([pollTickets]) and the controller
    ([fetchAndUpdateTickets]) with their shared helper [detectChanges].

  JavaScript values are modelled as the code uses them: strings as
  [string], a [Map] as an insertion-ordered association list, arrays as
  lists, objects that are passed by reference as locations of a heap,
  thrown errors as a result of their own, and the browser, the clock and
  the file system as an environment that answers every operation. Console
  output is left out.

  - [JsMap]: the [Map] operations the code uses.
  - [ChangeDetector]: [detectChanges] on listings.
  - [Js], [Refinement]: [detectChanges] on heap values, and the agreement
    of the two.
  - [Poller]: the update step with its bounded change log.
  - [EventId]: the event identifier of a URL.
  - [Json], [Capture], [Fetch]: payloads, the network capture and
    [fetchAvailableTickets]. *)

From Stdlib Require Import List String Ascii Bool Arith ZArith Lia DecimalString.
Import ListNotations.

Open Scope string_scope.
Open Scope list_scope.

(** ** JavaScript [Map]: insertion-ordered, one entry per key *)

Module JsMap.
Section WithKey.
Context {K V : Type}.
Variable eqb : K -> K -> bool.
Hypothesis eqb_spec : forall a b, reflect (a = b) (eqb a b).

Definition t := list (K * V).

(** [Map.prototype.set]: an existing key keeps its position and takes the
    new value; a new key is appended. *)
Fixpoint set (k : K) (v : V) (m : t) : t :=
  match m with
  | [] => [(k, v)]
  | (k', v') :: m' => if eqb k k' then (k', v) :: m' else (k', v') :: set k v m'
  end.

Fixpoint get (k : K) (m : t) : option V :=
  match m with
  | [] => None
  | (k', v') :: m' => if eqb k k' then Some v' else get k m'
  end.

Definition has (k : K) (m : t) : bool :=
  match get k m with Some _ => true | None => false end.

(** [new Map(iterable)]: [set] for every pair, in order. *)
Definition of_pairs (pairs : list (K * V)) : t :=
  fold_left (fun m kv => set (fst kv) (snd kv) m) pairs [].

Definition keys (m : t) : list K := map fst m.

(** The keys of a list in order of first occurrence. *)
Fixpoint first_occ (l : list K) : list K :=
  match l with
  | [] => []
  | k :: l' => k :: filter (fun k' => negb (eqb k' k)) (first_occ l')
  end.

(** The value of the last pair with key [k]. *)
Fixpoint last_write (k : K) (pairs : list (K * V)) : option V :=
  match pairs with
  | [] => None
  | (k', v') :: rest =>
      match last_write k rest with
      | Some v => Some v
      | None => if eqb k k' then Some v' else None
      end
  end.

Lemma eqb_refl : forall a, eqb a a = true.
Proof. intros a. destruct (eqb_spec a a); congruence. Qed.

Lemma eqb_sym : forall a b, eqb a b = eqb b a.
Proof.
  intros a b. destruct (eqb_spec a b), (eqb_spec b a); congruence.
Qed.

Lemma get_set_same : forall k v m, get k (set k v m) = Some v.
Proof.
  intros k v m. induction m as [|[k' v'] m IH]; simpl.
  - now rewrite eqb_refl.
  - destruct (eqb k k') eqn:E; simpl; rewrite E; auto.
Qed.

Lemma get_set_other : forall k k' v m,
  k <> k' -> get k (set k' v m) = get k m.
Proof.
  intros k k' v m Hne. induction m as [|[k0 v0] m IH]; simpl.
  - destruct (eqb_spec k k'); congruence.
  - destruct (eqb_spec k' k0) as [->|Hk]; simpl.
    + destruct (eqb_spec k k0); congruence.
    + destruct (eqb_spec k k0); auto.
Qed.

Lemma get_fold_set : forall k pairs m,
  get k (fold_left (fun m kv => set (fst kv) (snd kv) m) pairs m) =
  match last_write k pairs with
  | Some v => Some v
  | None => get k m
  end.
Proof.
  intros k pairs. induction pairs as [|[k' v'] rest IH]; intros m; simpl.
  - reflexivity.
  - rewrite IH. destruct (last_write k rest); [reflexivity|].
    destruct (eqb_spec k k') as [->|Hne].
    + apply get_set_same.
    + now apply get_set_other.
Qed.

Lemma get_of_pairs : forall k pairs,
  get k (of_pairs pairs) = last_write k pairs.
Proof.
  intros. unfold of_pairs. rewrite get_fold_set.
  now destruct (last_write k pairs).
Qed.

Lemma keys_set : forall k v m,
  keys (set k v m) = if has k m then keys m else keys m ++ [k].
Proof.
  intros k v m. unfold has. induction m as [|[k' v'] m IH]; simpl.
  - reflexivity.
  - destruct (eqb k k') eqn:E; simpl; [reflexivity|].
    rewrite IH. now destruct (get k m).
Qed.

Lemma has_In_keys : forall k m, has k m = true <-> In k (keys m).
Proof.
  intros k m. unfold has. induction m as [|[k' v'] m IH]; simpl.
  - split; [discriminate|tauto].
  - destruct (eqb_spec k k') as [->|Hne].
    + split; auto.
    + rewrite IH. split; [tauto|]. intros [H|H]; congruence.
Qed.

Lemma has_set : forall x k v m, has x (set k v m) = (has x m || eqb x k)%bool.
Proof.
  intros x k v m. unfold has.
  destruct (eqb_spec x k) as [->|Hne].
  - rewrite get_set_same. now rewrite orb_true_r.
  - rewrite get_set_other by assumption. now rewrite orb_false_r.
Qed.

Lemma filter_andb : forall (p q : K -> bool) l,
  filter (fun x => p x && q x)%bool l = filter p (filter q l).
Proof.
  intros p q l. induction l as [|a l IH]; simpl; [reflexivity|].
  destruct (q a) eqn:Eq; simpl; rewrite ?andb_true_r, ?andb_false_r.
  - destruct (p a); now rewrite IH.
  - exact IH.
Qed.

Lemma keys_fold_set : forall pairs m,
  keys (fold_left (fun m kv => set (fst kv) (snd kv) m) pairs m) =
  keys m ++ filter (fun k => negb (has k m)) (first_occ (map fst pairs)).
Proof.
  induction pairs as [|[k v] rest IH]; intros m; simpl.
  - now rewrite app_nil_r.
  - rewrite IH, keys_set.
    rewrite (filter_ext (fun x => negb (has x (set k v m)))
               (fun x => negb (has x m) && negb (eqb x k))%bool)
      by (intros x; rewrite has_set; apply negb_orb).
    rewrite filter_andb.
    destruct (has k m) eqn:Hk; simpl.
    + reflexivity.
    + now rewrite <- app_assoc.
Qed.

Lemma keys_of_pairs : forall pairs,
  keys (of_pairs pairs) = first_occ (map fst pairs).
Proof.
  intros. unfold of_pairs. rewrite keys_fold_set. simpl.
  induction (first_occ (map fst pairs)); simpl; congruence.
Qed.

Lemma In_first_occ : forall k l, In k (first_occ l) <-> In k l.
Proof.
  intros k l. induction l as [|a l IH]; simpl; [tauto|].
  rewrite filter_In, IH. destruct (eqb_spec k a) as [->|Hne]; simpl.
  - tauto.
  - split; [tauto|]. intros [H|H]; [congruence|auto].
Qed.

Lemma NoDup_filter : forall (p : K -> bool) l, NoDup l -> NoDup (filter p l).
Proof.
  intros p l H. induction H as [|a l Hn Hd IH]; simpl; [constructor|].
  destruct (p a); [constructor|]; auto.
  rewrite filter_In. tauto.
Qed.

Lemma NoDup_first_occ : forall l, NoDup (first_occ l).
Proof.
  induction l as [|a l IH]; simpl; constructor.
  - rewrite filter_In, eqb_refl. simpl. intros [_ H]. discriminate.
  - now apply NoDup_filter.
Qed.

Lemma NoDup_keys_of_pairs : forall pairs, NoDup (keys (of_pairs pairs)).
Proof. intros. rewrite keys_of_pairs. apply NoDup_first_occ. Qed.

(** Every entry of the map carries the value [get] returns for its key. *)
Lemma NoDup_keys_get : forall m k v,
  NoDup (keys m) -> In (k, v) m -> get k m = Some v.
Proof.
  induction m as [|[k' v'] m IH]; simpl; intros k v Hnd Hin; [tauto|].
  inversion Hnd as [|? ? Hn Hd]; subst.
  destruct Hin as [Heq|Hin].
  - inversion Heq; subst. now rewrite eqb_refl.
  - destruct (eqb_spec k k') as [->|Hne].
    + exfalso. apply Hn. unfold keys. change k' with (fst (k', v)).
      now apply in_map.
    + now apply IH.
Qed.

Lemma get_In : forall m k v, get k m = Some v -> In (k, v) m.
Proof.
  induction m as [|[k' v'] m IH]; simpl; intros k v H; [discriminate|].
  destruct (eqb_spec k k') as [->|Hne].
  - inversion H; auto.
  - right. auto.
Qed.

End WithKey.
End JsMap.

Arguments JsMap.t : clear implicits.

(** ** Change detector: [detectChanges] on ticket snapshots

    [detectChanges] is the helper at the end of the poller and of the
    controller (the two copies are the same code). It is called with the
    previous and the current network payload. *)

Module ChangeDetector.

(** A listing as the extractor produces it (sectionRow, price, type,
    timestamp are all strings). *)
Record TicketListing := mkListing
  { sectionRow : string; price : string; type : string; timestamp : string }.

(** A payload: the [tickets] property is an array of listings or absent. *)
Record Snapshot := mkSnapshot { tickets : option (list TicketListing) }.

(** The records pushed onto [changes]:
    [{type: "PRICE_CHANGE", details: {sectionRow, oldPrice, newPrice}}] and
    [{type: "NEW_SECTION", details: {sectionRow, price}}]. *)
Inductive ChangeEvent :=
| PRICE_CHANGE (sectionRow oldPrice newPrice : string)
| NEW_SECTION (sectionRow price : string).

Definition TicketMap := JsMap.t string TicketListing.

Definition map_get := @JsMap.get string TicketListing String.eqb.
Definition map_has := @JsMap.has string TicketListing String.eqb.

(** [new Map(data.tickets.map((t) => [t.sectionRow, t]))] *)
Definition ticket_lookup (ts : list TicketListing) : TicketMap :=
  JsMap.of_pairs String.eqb (map (fun t => (sectionRow t, t)) ts).

(** Body of the first [for ... of newTickets] loop. *)
Definition price_change_step (oldTickets : TicketMap)
    (changes : list ChangeEvent) (entry : string * TicketListing)
  : list ChangeEvent :=
  let '(sectionRow, newTicket) := entry in
  match map_get sectionRow oldTickets with
  | Some oldTicket =>
      if negb (String.eqb (price oldTicket) (price newTicket))
      then changes ++ [PRICE_CHANGE sectionRow (price oldTicket) (price newTicket)]
      else changes
  | None => changes
  end.

(** Body of the second [for ... of newTickets] loop. *)
Definition new_section_step (oldTickets : TicketMap)
    (changes : list ChangeEvent) (entry : string * TicketListing)
  : list ChangeEvent :=
  let '(sectionRow, newTicket) := entry in
  if negb (map_has sectionRow oldTickets)
  then changes ++ [NEW_SECTION sectionRow (price newTicket)]
  else changes.

Definition detectChanges (oldData : option Snapshot) (newData : Snapshot)
  : list ChangeEvent :=
  match oldData with
  | None => []
  | Some oldData =>
      let changes := [] in
      match tickets oldData, tickets newData with
      | Some old_ts, Some new_ts =>
          let oldTickets := ticket_lookup old_ts in
          let newTickets := ticket_lookup new_ts in
          let changes := fold_left (price_change_step oldTickets) newTickets changes in
          let changes := fold_left (new_section_step oldTickets) newTickets changes in
          changes
      | _, _ => changes
      end
  end.

(** *** The diff in the words of the specification *)

(** The listing a lookup holds for a key: the last one of the array. *)
Definition last_listing (k : string) (ts : list TicketListing) : option TicketListing :=
  find (fun t => String.eqb (sectionRow t) k) (rev ts).

(** Insertion order of the lookup: keys by first occurrence. *)
Definition insertion_order (ts : list TicketListing) : list string :=
  JsMap.first_occ String.eqb (map sectionRow ts).

Definition price_change_of (A B : list TicketListing) (k : string) : list ChangeEvent :=
  match last_listing k A, last_listing k B with
  | Some a, Some b =>
      if String.eqb (price a) (price b) then [] else [PRICE_CHANGE k (price a) (price b)]
  | _, _ => []
  end.

Definition new_section_of (A B : list TicketListing) (k : string) : list ChangeEvent :=
  match last_listing k A, last_listing k B with
  | None, Some b => [NEW_SECTION k (price b)]
  | _, _ => []
  end.

Definition diff_spec (A B : list TicketListing) : list ChangeEvent :=
  flat_map (price_change_of A B) (insertion_order B) ++
  flat_map (new_section_of A B) (insertion_order B).

Definition is_price_change (k : string) (c : ChangeEvent) : bool :=
  match c with PRICE_CHANGE k' _ _ => String.eqb k' k | NEW_SECTION _ _ => false end.

Definition is_new_section (k : string) (c : ChangeEvent) : bool :=
  match c with NEW_SECTION k' _ => String.eqb k' k | PRICE_CHANGE _ _ _ => false end.

Definition snapshot_A : Snapshot :=
  mkSnapshot (Some [mkListing "Sec 101 Row A" "$50" "" ""]).
Definition snapshot_B : Snapshot :=
  mkSnapshot (Some [mkListing "Sec 101 Row A" "$60" "" "";
                    mkListing "Sec 102 Row B" "$40" "" ""]).

Example detectChanges_scenario :
  detectChanges (Some snapshot_A) snapshot_B =
  [PRICE_CHANGE "Sec 101 Row A" "$50" "$60"; NEW_SECTION "Sec 102 Row B" "$40"].
Proof. reflexivity. Qed.

(** *** Facts about the lookups *)

Lemma find_app_split : forall (A : Type) (p : A -> bool) (l1 l2 : list A),
  find p (l1 ++ l2) = match find p l1 with Some x => Some x | None => find p l2 end.
Proof.
  intros A p l1 l2. induction l1 as [|a l1 IH]; simpl; [reflexivity|].
  now destruct (p a).
Qed.

Lemma last_write_last_listing : forall k ts,
  JsMap.last_write String.eqb k (map (fun t => (sectionRow t, t)) ts) = last_listing k ts.
Proof.
  intros k ts. unfold last_listing. induction ts as [|t ts IH]; simpl; [reflexivity|].
  rewrite find_app_split, IH. destruct (find _ (rev ts)); [reflexivity|].
  simpl. rewrite String.eqb_sym. now destruct (String.eqb k (sectionRow t)).
Qed.

Lemma map_get_ticket_lookup : forall k ts,
  map_get k (ticket_lookup ts) = last_listing k ts.
Proof.
  intros. unfold map_get, ticket_lookup.
  rewrite (JsMap.get_of_pairs String.eqb String.eqb_spec).
  apply last_write_last_listing.
Qed.

Lemma map_has_ticket_lookup : forall k ts,
  map_has k (ticket_lookup ts) =
  match last_listing k ts with Some _ => true | None => false end.
Proof.
  intros. unfold map_has, JsMap.has.
  change (JsMap.get String.eqb k (ticket_lookup ts)) with (map_get k (ticket_lookup ts)).
  now rewrite map_get_ticket_lookup.
Qed.

Lemma keys_ticket_lookup : forall ts,
  JsMap.keys (ticket_lookup ts) = insertion_order ts.
Proof.
  intros. unfold ticket_lookup, insertion_order.
  rewrite (JsMap.keys_of_pairs String.eqb String.eqb_spec), map_map. reflexivity.
Qed.

Lemma ticket_lookup_entry : forall k v ts,
  In (k, v) (ticket_lookup ts) -> last_listing k ts = Some v.
Proof.
  intros k v ts Hin. rewrite <- map_get_ticket_lookup.
  apply (JsMap.NoDup_keys_get String.eqb String.eqb_spec); [|assumption].
  apply (JsMap.NoDup_keys_of_pairs String.eqb String.eqb_spec).
Qed.

Lemma last_listing_key : forall k ts t,
  last_listing k ts = Some t -> sectionRow t = k /\ In t ts.
Proof.
  unfold last_listing. intros k ts t H. apply find_some in H as [Hin Heq].
  split; [now apply String.eqb_eq|now apply in_rev].
Qed.

Lemma last_listing_None : forall k ts,
  last_listing k ts = None <-> ~ In k (map sectionRow ts).
Proof.
  unfold last_listing. intros k ts. split.
  - intros H Hin. apply in_map_iff in Hin as (t & Hk & Hin).
    apply in_rev in Hin.
    pose proof (find_none _ _ H t Hin) as Hf. simpl in Hf.
    apply String.eqb_neq in Hf. congruence.
  - intros Hn. destruct (find _ (rev ts)) as [t|] eqn:E; [|reflexivity].
    exfalso. apply Hn. apply find_some in E as [Hin Heq].
    apply String.eqb_eq in Heq. subst k. apply in_map. now apply in_rev.
Qed.

Lemma insertion_order_In : forall k ts,
  In k (insertion_order ts) <-> last_listing k ts <> None.
Proof.
  intros k ts. unfold insertion_order.
  rewrite (JsMap.In_first_occ String.eqb String.eqb_spec), last_listing_None.
  destruct (in_dec string_dec k (map sectionRow ts)); tauto.
Qed.

Lemma insertion_order_NoDup : forall ts, NoDup (insertion_order ts).
Proof. intros. apply (JsMap.NoDup_first_occ String.eqb String.eqb_spec). Qed.

(** *** The two loops as maps over the entries *)

Lemma fold_price_change : forall A B (m : TicketMap) acc,
  (forall k v, In (k, v) m -> last_listing k B = Some v) ->
  fold_left (price_change_step (ticket_lookup A)) m acc =
  acc ++ flat_map (price_change_of A B) (JsMap.keys m).
Proof.
  intros A B m. induction m as [|[k v] m IH]; intros acc Hm; simpl.
  - now rewrite app_nil_r.
  - rewrite IH by (intros; apply Hm; now right).
    unfold price_change_of at 2. rewrite map_get_ticket_lookup.
    rewrite (Hm k v) by now left.
    destruct (last_listing k A) as [a|]; simpl; [|reflexivity].
    destruct (String.eqb (price a) (price v)); simpl; [reflexivity|].
    now rewrite <- app_assoc.
Qed.

Lemma fold_new_section : forall A B (m : TicketMap) acc,
  (forall k v, In (k, v) m -> last_listing k B = Some v) ->
  fold_left (new_section_step (ticket_lookup A)) m acc =
  acc ++ flat_map (new_section_of A B) (JsMap.keys m).
Proof.
  intros A B m. induction m as [|[k v] m IH]; intros acc Hm; simpl.
  - now rewrite app_nil_r.
  - rewrite IH by (intros; apply Hm; now right).
    unfold new_section_of at 2. rewrite map_has_ticket_lookup.
    rewrite (Hm k v) by now left.
    destruct (last_listing k A) as [a|]; simpl; [reflexivity|].
    now rewrite <- app_assoc.
Qed.

Lemma detectChanges_diff_spec : forall A B,
  detectChanges (Some (mkSnapshot (Some A))) (mkSnapshot (Some B)) = diff_spec A B.
Proof.
  intros A B. unfold detectChanges, diff_spec. simpl.
  rewrite (fold_price_change A B) by (intros k v; apply ticket_lookup_entry).
  rewrite (fold_new_section A B) by (intros k v; apply ticket_lookup_entry).
  now rewrite keys_ticket_lookup.
Qed.

(** *** Counting the records of one key *)

Lemma filter_flat_map_one : forall (X : Type) (p : X -> bool)
    (f : string -> list X) (k : string) (l : list string),
  NoDup l ->
  (forall k', k' <> k -> filter p (f k') = []) ->
  filter p (f k) = f k ->
  filter p (flat_map f l) = if in_dec string_dec k l then f k else [].
Proof.
  intros X p f k l Hnd Hother Hsame.
  induction Hnd as [|a l Hn Hd IH]; simpl; [reflexivity|].
  rewrite filter_app, IH.
  destruct (string_dec a k) as [->|Hne].
  - rewrite Hsame. destruct (in_dec string_dec k l); [contradiction|].
    now rewrite app_nil_r.
  - rewrite (Hother a Hne). simpl.
    destruct (in_dec string_dec k l); reflexivity.
Qed.

Lemma filter_flat_map_none : forall (X : Type) (p : X -> bool)
    (f : string -> list X) (l : list string),
  (forall k', filter p (f k') = []) -> filter p (flat_map f l) = [].
Proof.
  intros X p f l H. induction l as [|a l IH]; simpl; [reflexivity|].
  now rewrite filter_app, H, IH.
Qed.

Lemma price_change_of_filter : forall A B k k',
  filter (is_price_change k) (price_change_of A B k') =
  if String.eqb k' k then price_change_of A B k' else [].
Proof.
  intros A B k k'. unfold price_change_of.
  destruct (last_listing k' A), (last_listing k' B); simpl;
    try (now destruct (String.eqb k' k)).
  destruct (String.eqb (price t) (price t0)); simpl; now destruct (String.eqb k' k).
Qed.

Lemma new_section_of_filter : forall A B k k',
  filter (is_new_section k) (new_section_of A B k') =
  if String.eqb k' k then new_section_of A B k' else [].
Proof.
  intros A B k k'. unfold new_section_of.
  destruct (last_listing k' A), (last_listing k' B); simpl;
    now destruct (String.eqb k' k).
Qed.

Lemma price_change_of_not_new : forall A B k k',
  filter (is_new_section k) (price_change_of A B k') = [].
Proof.
  intros A B k k'. unfold price_change_of.
  destruct (last_listing k' A), (last_listing k' B); simpl; try reflexivity.
  now destruct (String.eqb (price t) (price t0)).
Qed.

Lemma new_section_of_not_price : forall A B k k',
  filter (is_price_change k) (new_section_of A B k') = [].
Proof.
  intros A B k k'. unfold new_section_of.
  now destruct (last_listing k' A), (last_listing k' B).
Qed.

Lemma price_changes_of_key : forall A B k,
  filter (is_price_change k) (diff_spec A B) = price_change_of A B k.
Proof.
  intros A B k. unfold diff_spec. rewrite filter_app.
  rewrite (filter_flat_map_none _ _ (new_section_of A B))
    by (intros; apply new_section_of_not_price).
  rewrite app_nil_r.
  rewrite (filter_flat_map_one _ _ _ k).
  - destruct (in_dec string_dec k (insertion_order B)) as [Hin|Hn]; [reflexivity|].
    rewrite insertion_order_In in Hn. unfold price_change_of.
    destruct (last_listing k B); [exfalso; apply Hn; discriminate|].
    now destruct (last_listing k A).
  - apply insertion_order_NoDup.
  - intros k' Hne. rewrite price_change_of_filter.
    apply String.eqb_neq in Hne. now rewrite Hne.
  - rewrite price_change_of_filter. now rewrite String.eqb_refl.
Qed.

Lemma new_sections_of_key : forall A B k,
  filter (is_new_section k) (diff_spec A B) = new_section_of A B k.
Proof.
  intros A B k. unfold diff_spec. rewrite filter_app.
  rewrite (filter_flat_map_none _ _ (price_change_of A B))
    by (intros; apply price_change_of_not_new).
  simpl.
  rewrite (filter_flat_map_one _ _ _ k).
  - destruct (in_dec string_dec k (insertion_order B)) as [Hin|Hn]; [reflexivity|].
    rewrite insertion_order_In in Hn. unfold new_section_of.
    destruct (last_listing k B); [exfalso; apply Hn; discriminate|].
    now destruct (last_listing k A).
  - apply insertion_order_NoDup.
  - intros k' Hne. rewrite new_section_of_filter.
    apply String.eqb_neq in Hne. now rewrite Hne.
  - rewrite new_section_of_filter. now rewrite String.eqb_refl.
Qed.

Lemma last_listing_app_last : forall before t after,
  (forall u, In u after -> sectionRow u <> sectionRow t) ->
  last_listing (sectionRow t) (before ++ t :: after) = Some t.
Proof.
  intros before t after Hafter. unfold last_listing.
  rewrite rev_app_distr. simpl. rewrite <- app_assoc, find_app_split.
  destruct (find _ (rev after)) as [u|] eqn:E.
  - apply find_some in E as [Hin Heq]. apply in_rev in Hin.
    apply String.eqb_eq in Heq. now apply Hafter in Hin.
  - simpl. now rewrite String.eqb_refl.
Qed.

(** C2: on two snapshots that both carry a ticket array, [detectChanges]
    returns the price changes followed by the new sections, both in the
    insertion order of the new lookup (keys by first occurrence, each once);
    the records of one key are exactly one [PRICE_CHANGE] with the old and
    the new lookup's price when the key is in both lookups with different
    prices, exactly one [NEW_SECTION] with the new price when the key is in
    the new lookup only, and nothing else. *)
Theorem detectChanges_price_changes_then_new_sections :
  forall A B : list TicketListing,
    let d := detectChanges (Some (mkSnapshot (Some A))) (mkSnapshot (Some B)) in
    d = flat_map (price_change_of A B) (insertion_order B) ++
        flat_map (new_section_of A B) (insertion_order B)
    /\ NoDup (insertion_order B)
    /\ (forall k, In k (insertion_order B) <-> In k (map sectionRow B))
    /\ (forall k, filter (is_price_change k) d = price_change_of A B k)
    /\ (forall k, filter (is_new_section k) d = new_section_of A B k)
    /\ (forall c, In c d ->
          exists k, In k (insertion_order B) /\
                    (In c (price_change_of A B k) \/ In c (new_section_of A B k))).
Proof.
  intros A B d. subst d. rewrite detectChanges_diff_spec.
  split; [reflexivity|].
  split; [apply insertion_order_NoDup|].
  split; [intros k; apply (JsMap.In_first_occ String.eqb String.eqb_spec)|].
  split; [apply price_changes_of_key|].
  split; [apply new_sections_of_key|].
  intros c Hc. unfold diff_spec in Hc. apply in_app_or in Hc.
  destruct Hc as [Hc|Hc]; apply in_flat_map in Hc as (k & Hk & Hin);
    exists k; auto.
Qed.

(** C8: an array with duplicate [sectionRow] keys gives a lookup that holds
    the last listing of each key, and [detectChanges] reads both the old and
    the new snapshot through such a lookup: the price change it reports for
    a key compares the last old listing with the last new listing. *)
Theorem ticket_lookup_last_write_wins :
  forall (before after : list TicketListing) (t : TicketListing),
    (forall u, In u after -> sectionRow u <> sectionRow t) ->
    map_get (sectionRow t) (ticket_lookup (before ++ t :: after)) = Some t
    /\ forall (before' after' : list TicketListing) (t' : TicketListing),
         sectionRow t' = sectionRow t ->
         (forall u, In u after' -> sectionRow u <> sectionRow t') ->
         filter (is_price_change (sectionRow t))
           (detectChanges (Some (mkSnapshot (Some (before ++ t :: after))))
                          (mkSnapshot (Some (before' ++ t' :: after')))) =
         if String.eqb (price t) (price t') then []
         else [PRICE_CHANGE (sectionRow t) (price t) (price t')].
Proof.
  intros before after t Hafter. split.
  - rewrite map_get_ticket_lookup. now apply last_listing_app_last.
  - intros before' after' t' Hkey Hafter'.
    rewrite detectChanges_diff_spec, price_changes_of_key.
    unfold price_change_of.
    rewrite (last_listing_app_last before t after Hafter).
    rewrite <- Hkey.
    rewrite (last_listing_app_last before' t' after' Hafter').
    reflexivity.
Qed.

Definition dup_old : list TicketListing :=
  [mkListing "Sec 101 Row A" "$45" "" ""; mkListing "Sec 101 Row A" "$50" "" ""].
Definition dup_new : list TicketListing :=
  [mkListing "Sec 101 Row A" "$55" "" ""; mkListing "Sec 102 Row B" "$40" "" "";
   mkListing "Sec 101 Row A" "$60" "" ""].

Lemma ticket_lookup_last_write_wins_witness :
  map_get "Sec 101 Row A" (ticket_lookup dup_old)
    = Some (mkListing "Sec 101 Row A" "$50" "" "")
  /\ filter (is_price_change "Sec 101 Row A")
       (detectChanges (Some (mkSnapshot (Some dup_old))) (mkSnapshot (Some dup_new)))
     = [PRICE_CHANGE "Sec 101 Row A" "$50" "$60"].
Proof.
  destruct (ticket_lookup_last_write_wins
              [mkListing "Sec 101 Row A" "$45" "" ""] []
              (mkListing "Sec 101 Row A" "$50" "" "")) as [H1 H2].
  - intros u [].
  - split; [exact H1|].
    apply (H2 [mkListing "Sec 101 Row A" "$55" "" ""; mkListing "Sec 102 Row B" "$40" "" ""]
              [] (mkListing "Sec 101 Row A" "$60" "" "")).
    + reflexivity.
    + intros u [].
Defined.

End ChangeDetector.

(** ** JavaScript values and the object heap

    [detectChanges] receives references to the two payloads. To state what
    it does to them, values are references into a heap of objects; a thrown
    [TypeError] is a result of its own. Numbers stand for the JSON numbers
    of a payload (no NaN), so strict equality and the [Map]'s key equality
    are both structural equality of values, and identity on references. *)

Module Js.

Definition loc := nat.

Inductive val :=
| VUndef
| VNull
| VBool (b : bool)
| VNum (n : Z)
| VStr (s : string)
| VRef (l : loc).

Definition val_eqb (a b : val) : bool :=
  match a, b with
  | VUndef, VUndef => true
  | VNull, VNull => true
  | VBool x, VBool y => Bool.eqb x y
  | VNum x, VNum y => Z.eqb x y
  | VStr x, VStr y => String.eqb x y
  | VRef x, VRef y => Nat.eqb x y
  | _, _ => false
  end.

Inductive obj :=
| OObject (props : list (string * val))
| OArray (elems : list val)
| OMap (entries : JsMap.t val val).

Definition heap := list obj.

Inductive error := TypeError (msg : string).

Inductive result (A : Type) :=
| Ok (a : A)
| Throw (e : error).
Arguments Ok {A} a.
Arguments Throw {A} e.

(** Computations on the heap that return or throw. *)
Definition M (A : Type) := heap -> result A * heap.

Definition ret {A} (a : A) : M A := fun h => (Ok a, h).
Definition throw {A} (e : error) : M A := fun h => (Throw e, h).
Definition bind {A B} (m : M A) (f : A -> M B) : M B :=
  fun h => match m h with
           | (Ok a, h') => f a h'
           | (Throw e, h') => (Throw e, h')
           end.

Declare Scope js_scope.
Delimit Scope js_scope with js.
Notation "x <- c1 ;; c2" := (bind c1 (fun x => c2))
  (at level 100, c1 at next level, right associativity) : js_scope.
Notation "' pat <- c1 ;; c2" := (bind c1 (fun x => match x with pat => c2 end))
  (at level 100, pat pattern, c1 at next level, right associativity) : js_scope.
Notation "c1 ;;; c2" := (bind c1 (fun _ => c2))
  (at level 100, right associativity) : js_scope.
Open Scope js_scope.

(** ToBoolean *)
Definition truthy (v : val) : bool :=
  match v with
  | VUndef | VNull => false
  | VBool b => b
  | VNum n => negb (Z.eqb n 0)
  | VStr s => negb (String.eqb s "")
  | VRef _ => true
  end.

Fixpoint assoc (name : string) (props : list (string * val)) : val :=
  match props with
  | [] => VUndef
  | (n, v) :: rest => if String.eqb name n then v else assoc name rest
  end.

(** [v.name] for the property names the code reads ([tickets],
    [sectionRow], [price]): a [TypeError] on [null] and [undefined], the
    property of an object, and [undefined] on everything else (no array,
    [Map], string, number or boolean has one of these properties). *)
Definition get_prop (v : val) (name : string) : M val :=
  fun h =>
    match v with
    | VUndef | VNull =>
        (Throw (TypeError ("Cannot read properties of null or undefined, reading " ++ name)%string), h)
    | VRef l =>
        match nth_error h l with
        | Some (OObject props) => (Ok (assoc name props), h)
        | _ => (Ok VUndef, h)
        end
    | _ => (Ok VUndef, h)
    end.

(** A new object: the next free location. *)
Definition alloc (o : obj) : M val :=
  fun h => (Ok (VRef (List.length h)), h ++ [o]).

Fixpoint update (l : loc) (o : obj) (h : heap) : heap :=
  match h, l with
  | [], _ => []
  | _ :: h', O => o :: h'
  | x :: h', S l' => x :: update l' o h'
  end.

(** The elements of an array; [v.map] of anything else is not a function. *)
Definition array_elems (v : val) : M (list val) :=
  fun h =>
    match v with
    | VRef l =>
        match nth_error h l with
        | Some (OArray es) => (Ok es, h)
        | _ => (Throw (TypeError "map is not a function"), h)
        end
    | _ => (Throw (TypeError "map is not a function"), h)
    end.

Fixpoint mapM {X Y} (f : X -> M Y) (l : list X) : M (list Y) :=
  match l with
  | [] => ret []
  | x :: l' => y <- f x ;; ys <- mapM f l' ;; ret (y :: ys)
  end.

Fixpoint forM {X} (l : list X) (body : X -> M unit) : M unit :=
  match l with
  | [] => ret tt
  | x :: l' => body x ;;; forM l' body
  end.

(** [arr.map(cb)]: a new array of the callback's results. *)
Definition array_map (arr : val) (cb : val -> M val) : M val :=
  es <- array_elems arr ;;
  rs <- mapM cb es ;;
  alloc (OArray rs).

(** One item of the iterable given to [new Map]: [item[0]] and [item[1]]. *)
Definition entry_of (item : val) : M (val * val) :=
  fun h =>
    match item with
    | VRef l =>
        match nth_error h l with
        | Some (OArray es) => (Ok (nth 0 es VUndef, nth 1 es VUndef), h)
        | Some (OObject props) => (Ok (assoc "0" props, assoc "1" props), h)
        | _ => (Ok (VUndef, VUndef), h)
        end
    | _ => (Throw (TypeError "Iterator value is not an entry object"), h)
    end.

(** [new Map(iterable)] for an array of entries. *)
Definition new_Map (iterable : val) : M val :=
  items <- array_elems iterable ;;
  entries <- mapM entry_of items ;;
  alloc (OMap (JsMap.of_pairs val_eqb entries)).

Definition map_entries (m : val) : M (list (val * val)) :=
  fun h =>
    match m with
    | VRef l =>
        match nth_error h l with
        | Some (OMap entries) => (Ok entries, h)
        | _ => (Throw (TypeError "not a Map"), h)
        end
    | _ => (Throw (TypeError "not a Map"), h)
    end.

(** [m.get(k)] and [m.has(k)] *)
Definition map_get (m k : val) : M val :=
  entries <- map_entries m ;;
  ret (match JsMap.get val_eqb k entries with Some v => v | None => VUndef end).

Definition map_has (m k : val) : M bool :=
  entries <- map_entries m ;;
  ret (JsMap.has val_eqb k entries).

(** [arr.push(v)]: the array object itself is changed. *)
Definition array_push (arr v : val) : M unit :=
  fun h =>
    match arr with
    | VRef l =>
        match nth_error h l with
        | Some (OArray es) => (Ok tt, update l (OArray (es ++ [v])) h)
        | _ => (Throw (TypeError "push is not a function"), h)
        end
    | _ => (Throw (TypeError "push is not a function"), h)
    end.

(** The callback [(t) => [t.sectionRow, t]] *)
Definition section_entry (t : val) : M val :=
  k <- get_prop t "sectionRow" ;;
  alloc (OArray [k; t]).

(** Body of the first loop over [newTickets]. *)
Definition price_change_body (changes oldTickets : val) (entry : val * val) : M unit :=
  let '(sectionRow, newTicket) := entry in
  oldTicket <- map_get oldTickets sectionRow ;;
  differs <- (if truthy oldTicket
              then oldPrice <- get_prop oldTicket "price" ;;
                   newPrice <- get_prop newTicket "price" ;;
                   ret (VBool (negb (val_eqb oldPrice newPrice)))
              else ret oldTicket) ;;
  if truthy differs
  then oldPrice <- get_prop oldTicket "price" ;;
       newPrice <- get_prop newTicket "price" ;;
       details <- alloc (OObject [("sectionRow", sectionRow);
                                  ("oldPrice", oldPrice);
                                  ("newPrice", newPrice)]) ;;
       change <- alloc (OObject [("type", VStr "PRICE_CHANGE"); ("details", details)]) ;;
       array_push changes change
  else ret tt.

(** Body of the second loop over [newTickets]. *)
Definition new_section_body (changes oldTickets : val) (entry : val * val) : M unit :=
  let '(sectionRow, newTicket) := entry in
  present <- map_has oldTickets sectionRow ;;
  if negb present
  then newPrice <- get_prop newTicket "price" ;;
       details <- alloc (OObject [("sectionRow", sectionRow); ("price", newPrice)]) ;;
       change <- alloc (OObject [("type", VStr "NEW_SECTION"); ("details", details)]) ;;
       array_push changes change
  else ret tt.

Definition detectChanges (oldData newData : val) : M val :=
  if negb (truthy oldData) then alloc (OArray [])
  else
    changes <- alloc (OArray []) ;;
    old_ts <- get_prop oldData "tickets" ;;
    both <- (if truthy old_ts then get_prop newData "tickets" else ret old_ts) ;;
    (if truthy both
     then
       old_arr <- get_prop oldData "tickets" ;;
       old_pairs <- array_map old_arr section_entry ;;
       oldTickets <- new_Map old_pairs ;;
       new_arr <- get_prop newData "tickets" ;;
       new_pairs <- array_map new_arr section_entry ;;
       newTickets <- new_Map new_pairs ;;
       entries <- map_entries newTickets ;;
       forM entries (price_change_body changes oldTickets) ;;;
       entries <- map_entries newTickets ;;
       forM entries (new_section_body changes oldTickets)
     else ret tt) ;;;
    ret changes.

(** *** What a computation leaves of the heap it started from *)

(** [h] still holds every object of [h0], unchanged, at its location. *)
Definition extends (h0 h : heap) : Prop := exists fresh, h = h0 ++ fresh.

(** Run from a heap that extends [h0], [m] leaves a heap that extends [h0],
    whether it returns or throws, and a returned value satisfies [Q]. *)
Definition post {A} (h0 : heap) (m : M A) (Q : A -> Prop) : Prop :=
  forall h, extends h0 h ->
    extends h0 (snd (m h)) /\ forall a, fst (m h) = Ok a -> Q a.

Lemma extends_refl : forall h, extends h h.
Proof. intros h. exists []. now rewrite app_nil_r. Qed.

Lemma extends_length : forall h0 h, extends h0 h -> List.length h0 <= List.length h.
Proof. intros h0 h [f ->]. rewrite length_app. lia. Qed.

Lemma update_app_ge : forall h0 f c o,
  List.length h0 <= c -> update c o (h0 ++ f) = h0 ++ update (c - List.length h0) o f.
Proof.
  induction h0 as [|x h0 IH]; intros f c o Hc; simpl.
  - now rewrite Nat.sub_0_r.
  - destruct c as [|c]; simpl in *; [lia|].
    rewrite IH by lia. destruct f; reflexivity.
Qed.

Lemma post_ret : forall A h0 (a : A) (Q : A -> Prop), Q a -> post h0 (ret a) Q.
Proof. intros A h0 a Q Hq h Hh. simpl. split; [assumption|]. now intros b [= <-]. Qed.

Lemma post_throw : forall A h0 e (Q : A -> Prop), post h0 (throw e) Q.
Proof. intros A h0 e Q h Hh. simpl. split; [assumption|]. discriminate. Qed.

Lemma post_bind : forall A B h0 (m : M A) (f : A -> M B) (Q : A -> Prop) (R : B -> Prop),
  post h0 m Q -> (forall a, Q a -> post h0 (f a) R) -> post h0 (bind m f) R.
Proof.
  intros A B h0 m f Q R Hm Hf h Hh. unfold bind.
  destruct (Hm h Hh) as [Hext Hval].
  destruct (m h) as [[a|e] h']; simpl in *.
  - apply (Hf a (Hval a eq_refl) h' Hext).
  - split; [assumption|discriminate].
Qed.

Lemma post_weaken : forall A h0 (m : M A) (Q R : A -> Prop),
  post h0 m Q -> (forall a, Q a -> R a) -> post h0 m R.
Proof.
  intros A h0 m Q R Hm Hqr h Hh. destruct (Hm h Hh) as [He Hv].
  split; [assumption|]. intros a Ha. auto.
Qed.

Lemma post_alloc : forall h0 o,
  post h0 (alloc o) (fun v => exists c, v = VRef c /\ List.length h0 <= c).
Proof.
  intros h0 o h Hh. unfold alloc. simpl. split.
  - destruct Hh as [f ->]. exists (f ++ [o]). now rewrite app_assoc.
  - intros a [= <-]. exists (List.length h). split; [reflexivity|].
    now apply extends_length.
Qed.

Lemma post_get_prop : forall h0 v name, post h0 (get_prop v name) (fun _ => True).
Proof.
  intros h0 v name h Hh. unfold get_prop.
  destruct v; simpl; try (split; [assumption|auto]).
  destruct (nth_error h l) as [[ | | ]|]; simpl; split; auto.
Qed.

Lemma post_array_elems : forall h0 v, post h0 (array_elems v) (fun _ => True).
Proof.
  intros h0 v h Hh. unfold array_elems.
  destruct v; simpl; try (split; [assumption|auto]).
  destruct (nth_error h l) as [[ | | ]|]; simpl; split; auto.
Qed.

Lemma post_entry_of : forall h0 v, post h0 (entry_of v) (fun _ => True).
Proof.
  intros h0 v h Hh. unfold entry_of.
  destruct v; simpl; try (split; [assumption|auto]).
  destruct (nth_error h l) as [[ | | ]|]; simpl; split; auto.
Qed.

Lemma post_map_entries : forall h0 v, post h0 (map_entries v) (fun _ => True).
Proof.
  intros h0 v h Hh. unfold map_entries.
  destruct v; simpl; try (split; [assumption|auto]).
  destruct (nth_error h l) as [[ | | ]|]; simpl; split; auto.
Qed.

Lemma post_array_push : forall h0 c v,
  List.length h0 <= c -> post h0 (array_push (VRef c) v) (fun _ => True).
Proof.
  intros h0 c v Hc h Hh. unfold array_push.
  destruct (nth_error h c) as [[ | es | ]|]; simpl; try (split; [assumption|auto]).
  split; [|auto]. destruct Hh as [f ->].
  rewrite update_app_ge by assumption. now eexists.
Qed.

Lemma post_mapM : forall X Y h0 (f : X -> M Y) (l : list X),
  (forall x, post h0 (f x) (fun _ => True)) -> post h0 (mapM f l) (fun _ => True).
Proof.
  intros X Y h0 f l Hf. induction l as [|x l IH]; simpl.
  - now apply post_ret.
  - eapply post_bind; [apply Hf|]. intros y _.
    eapply post_bind; [apply IH|]. intros ys _. now apply post_ret.
Qed.

Lemma post_forM : forall X h0 (body : X -> M unit) (l : list X),
  (forall x, post h0 (body x) (fun _ => True)) -> post h0 (forM l body) (fun _ => True).
Proof.
  intros X h0 body l Hb. induction l as [|x l IH]; simpl.
  - now apply post_ret.
  - eapply post_bind; [apply Hb|]. intros _ _. apply IH.
Qed.

Lemma post_true : forall A h0 (m : M A) (Q : A -> Prop),
  post h0 m Q -> post h0 m (fun _ => True).
Proof. intros. eapply post_weaken; eauto. Qed.

Lemma post_map_get : forall h0 m k, post h0 (map_get m k) (fun _ => True).
Proof.
  intros. unfold map_get. eapply post_bind; [apply post_map_entries|].
  intros; now apply post_ret.
Qed.

Lemma post_map_has : forall h0 m k, post h0 (map_has m k) (fun _ => True).
Proof.
  intros. unfold map_has. eapply post_bind; [apply post_map_entries|].
  intros; now apply post_ret.
Qed.

Lemma post_section_entry : forall h0 t, post h0 (section_entry t) (fun _ => True).
Proof.
  intros. unfold section_entry. eapply post_bind; [apply post_get_prop|].
  intros k _. eapply post_true, post_alloc.
Qed.

Lemma post_array_map : forall h0 arr cb,
  (forall x, post h0 (cb x) (fun _ => True)) ->
  post h0 (array_map arr cb) (fun _ => True).
Proof.
  intros h0 arr cb Hcb. unfold array_map.
  eapply post_bind; [apply post_array_elems|]. intros es _.
  eapply post_bind; [now apply post_mapM|]. intros rs _.
  eapply post_true, post_alloc.
Qed.

Lemma post_new_Map : forall h0 it, post h0 (new_Map it) (fun _ => True).
Proof.
  intros. unfold new_Map.
  eapply post_bind; [apply post_array_elems|]. intros items _.
  eapply post_bind; [apply post_mapM, post_entry_of|]. intros entries _.
  eapply post_true, post_alloc.
Qed.

Lemma post_price_change_body : forall h0 c oldTickets entry,
  List.length h0 <= c ->
  post h0 (price_change_body (VRef c) oldTickets entry) (fun _ => True).
Proof.
  intros h0 c oldTickets [sectionRow newTicket] Hc. unfold price_change_body.
  eapply post_bind; [apply post_map_get|]. intros oldTicket _.
  eapply post_bind with (Q := fun _ => True).
  - destruct (truthy oldTicket); [|now apply post_ret].
    eapply post_bind; [apply post_get_prop|]. intros ? _.
    eapply post_bind; [apply post_get_prop|]. intros ? _. now apply post_ret.
  - intros differs _. destruct (truthy differs); [|now apply post_ret].
    eapply post_bind; [apply post_get_prop|]. intros ? _.
    eapply post_bind; [apply post_get_prop|]. intros ? _.
    eapply post_bind; [apply post_alloc|]. intros d _.
    eapply post_bind; [apply post_alloc|]. intros ch _.
    now apply post_array_push.
Qed.

Lemma post_new_section_body : forall h0 c oldTickets entry,
  List.length h0 <= c ->
  post h0 (new_section_body (VRef c) oldTickets entry) (fun _ => True).
Proof.
  intros h0 c oldTickets [sectionRow newTicket] Hc. unfold new_section_body.
  eapply post_bind; [apply post_map_has|]. intros present _.
  destruct (negb present); [|now apply post_ret].
  eapply post_bind; [apply post_get_prop|]. intros ? _.
  eapply post_bind; [apply post_alloc|]. intros d _.
  eapply post_bind; [apply post_alloc|]. intros ch _.
  now apply post_array_push.
Qed.

Lemma post_detectChanges : forall h0 oldData newData,
  post h0 (detectChanges oldData newData) (fun _ => True).
Proof.
  intros h0 oldData newData. unfold detectChanges.
  destruct (negb (truthy oldData)); [eapply post_true, post_alloc|].
  eapply post_bind; [apply post_alloc|]. intros changes (c & -> & Hc).
  eapply post_bind; [apply post_get_prop|]. intros old_ts _.
  eapply post_bind with (Q := fun _ => True).
  - destruct (truthy old_ts); [apply post_get_prop|now apply post_ret].
  - intros both _.
    eapply post_bind with (Q := fun _ => True); [|intros; now apply post_ret].
    destruct (truthy both); [|now apply post_ret].
    eapply post_bind; [apply post_get_prop|]. intros old_arr _.
    eapply post_bind; [apply post_array_map, post_section_entry|]. intros old_pairs _.
    eapply post_bind; [apply post_new_Map|]. intros oldTickets _.
    eapply post_bind; [apply post_get_prop|]. intros new_arr _.
    eapply post_bind; [apply post_array_map, post_section_entry|]. intros new_pairs _.
    eapply post_bind; [apply post_new_Map|]. intros newTickets _.
    eapply post_bind; [apply post_map_entries|]. intros entries _.
    eapply post_bind;
      [apply post_forM; intros; now apply post_price_change_body|].
    intros _ _.
    eapply post_bind; [apply post_map_entries|]. intros entries' _.
    apply post_forM; intros; now apply post_new_section_body.
Qed.

Lemma nth_error_app_left : forall (h f : heap) l o,
  nth_error h l = Some o -> nth_error (h ++ f) l = Some o.
Proof.
  intros h f l o H. rewrite nth_error_app1; [assumption|].
  apply nth_error_Some. congruence.
Qed.

(** [get_prop], [array_elems], [map_entries] only read the heap. *)
Lemma get_prop_heap : forall v name h, snd (get_prop v name h) = h.
Proof.
  intros v name h. unfold get_prop. destruct v; try reflexivity.
  now destruct (nth_error h l) as [[ | | ]|].
Qed.

(** The value a property read returns, on a heap with one more array. *)
Lemma get_prop_fresh_array : forall v name h es,
  fst (get_prop v name (h ++ [OArray es])) = fst (get_prop v name h).
Proof.
  intros v name h es. unfold get_prop. destruct v; try reflexivity.
  destruct (nth_error h l) as [o|] eqn:E.
  - rewrite (nth_error_app_left h _ l o E). now destruct o.
  - apply nth_error_None in E.
    destruct (Nat.eq_dec l (List.length h)) as [->|Hne].
    + rewrite nth_error_app2 by lia. now rewrite Nat.sub_diag.
    + assert (Hn : nth_error (h ++ [OArray es]) l = None).
      { apply nth_error_None. rewrite length_app. simpl. lia. }
      now rewrite Hn.
Qed.

Lemma get_prop_eta : forall v name h,
  get_prop v name h = (fst (get_prop v name h), h).
Proof.
  intros. rewrite <- (get_prop_heap v name h) at 3. now destruct (get_prop v name h).
Qed.

(** C7: whatever the two payloads are, and whether [detectChanges] returns
    or throws, the heap after the call is the heap before it followed by the
    objects the call created: every object that existed before the call (the
    payloads, their ticket arrays, the listings) is still there, unchanged. *)
Theorem detectChanges_frame :
  forall (oldData newData : val) (h : heap),
    (exists fresh, snd (detectChanges oldData newData h) = h ++ fresh)
    /\ forall l o, nth_error h l = Some o ->
                   nth_error (snd (detectChanges oldData newData h)) l = Some o.
Proof.
  intros oldData newData h.
  destruct (post_detectChanges h oldData newData h (extends_refl h)) as [Hext _].
  split; [exact Hext|].
  destruct Hext as [fresh ->]. intros l o. apply nth_error_app_left.
Qed.

(** C10 (amended): when the old payload is there (truthy) and the
    [tickets] property of the old or of the new payload is absent
    ([undefined]) or any other falsy value ([null], [false], [0], the empty
    string), [detectChanges] returns a new empty array and does nothing
    else. The guard asks whether the two values are truthy, not whether
    they are arrays. *)
Theorem detectChanges_without_tickets :
  forall (oldData newData : val) (h : heap) (t : val),
    truthy oldData = true ->
    truthy t = false ->
    fst (get_prop oldData "tickets" h) = Ok t \/
    fst (get_prop newData "tickets" h) = Ok t ->
    detectChanges oldData newData h = (Ok (VRef (List.length h)), h ++ [OArray []]).
Proof.
  intros oldData newData h t Hold Ht Habsent.
  unfold detectChanges. rewrite Hold. simpl.
  unfold bind at 1. unfold alloc at 1.
  unfold bind at 1. rewrite get_prop_eta, get_prop_fresh_array.
  assert (Hok : exists x, fst (get_prop oldData "tickets" h) = Ok x).
  { unfold get_prop. destruct oldData; try discriminate; try (now eexists).
    destruct (nth_error h l) as [[ | | ]|]; now eexists. }
  destruct Hok as [x Hx]. rewrite Hx.
  unfold bind at 1.
  destruct (truthy x) eqn:Etx.
  - destruct Habsent as [Ho|Hn]; [rewrite Hx in Ho; congruence|].
    rewrite get_prop_eta, get_prop_fresh_array, Hn.
    unfold bind. rewrite Ht. reflexivity.
  - unfold ret, bind. rewrite Etx. reflexivity.
Qed.

(** C10 as stated fails: a [tickets] property that is there but is no
    array (an object on the first heap, a number on the second) passes the
    guard, and [.map] is not a function: the call throws a [TypeError], it
    does not return the empty list. *)
Example detectChanges_tickets_not_array :
  fst (detectChanges (VRef 1) (VRef 1)
         [OObject [("total", VNum 3)]; OObject [("tickets", VRef 0)]])
  = Throw (TypeError "map is not a function")
  /\ fst (detectChanges (VRef 0) (VRef 0) [OObject [("tickets", VNum 3)]])
     = Throw (TypeError "map is not a function").
Proof. split; reflexivity. Qed.

Definition payload_heap : heap :=
  [ OObject [("sectionRow", VStr "Sec 101 Row A"); ("price", VStr "$50")];
    OArray [VRef 0];
    OObject [("tickets", VRef 1)];
    OObject [("offers", VNum 3)] ].

Lemma detectChanges_without_tickets_witness :
  detectChanges (VRef 2) (VRef 3) payload_heap
  = (Ok (VRef 4), payload_heap ++ [OArray []]).
Proof.
  apply (detectChanges_without_tickets (VRef 2) (VRef 3) payload_heap VUndef).
  - reflexivity.
  - reflexivity.
  - right. reflexivity.
Defined.

End Js.

(** ** The two readings of [detectChanges] agree

    On a heap that holds two snapshots of listings, the function on heap
    values returns an array of change records that spells out what the
    function on listings computes. *)

Module Refinement.
Import Js.
Module CD := ChangeDetector.

(** The value [v] is a listing object with the key and the price of [t]. *)
Definition listing_rep (h : heap) (v : val) (t : CD.TicketListing) : Prop :=
  exists l props,
    v = VRef l /\ nth_error h l = Some (OObject props)
    /\ assoc "sectionRow" props = VStr (CD.sectionRow t)
    /\ assoc "price" props = VStr (CD.price t).

Definition tickets_rep (h : heap) (v : val) (ts : list CD.TicketListing) : Prop :=
  exists l vs,
    v = VRef l /\ nth_error h l = Some (OArray vs) /\ Forall2 (listing_rep h) vs ts.

Definition snapshot_rep (h : heap) (v : val) (s : CD.Snapshot) : Prop :=
  exists l props,
    v = VRef l /\ nth_error h l = Some (OObject props)
    /\ match CD.tickets s with
       | Some ts => tickets_rep h (assoc "tickets" props) ts
       | None => assoc "tickets" props = VUndef
       end.

Definition old_rep (h : heap) (v : val) (o : option CD.Snapshot) : Prop :=
  match o with
  | Some s => snapshot_rep h v s
  | None => v = VNull \/ v = VUndef
  end.

(** An entry of a lookup: the key as a string value, the listing object. *)
Definition entry_rep (h : heap) (e : val * val) (p : string * CD.TicketListing) : Prop :=
  fst e = VStr (fst p) /\ listing_rep h (snd e) (snd p).

(** A change record and its details object, both away from location [c]. *)
Definition change_rep (c : loc) (h : heap) (v : val) (ch : CD.ChangeEvent) : Prop :=
  exists l d,
    v = VRef l /\ l <> c /\ d <> c
    /\ match ch with
       | CD.PRICE_CHANGE k oldPrice newPrice =>
           nth_error h l = Some (OObject [("type", VStr "PRICE_CHANGE"); ("details", VRef d)])
           /\ nth_error h d = Some (OObject [("sectionRow", VStr k);
                                             ("oldPrice", VStr oldPrice);
                                             ("newPrice", VStr newPrice)])
       | CD.NEW_SECTION k price =>
           nth_error h l = Some (OObject [("type", VStr "NEW_SECTION"); ("details", VRef d)])
           /\ nth_error h d = Some (OObject [("sectionRow", VStr k); ("price", VStr price)])
       end.

(** Every object of [h] away from [c] is still in [h'], unchanged. *)
Definition preserved (c : loc) (h h' : heap) : Prop :=
  forall l o, l <> c -> nth_error h l = Some o -> nth_error h' l = Some o.

Lemma preserved_refl : forall c h, preserved c h h.
Proof. intros c h l o _ H. exact H. Qed.

Lemma preserved_trans : forall c h1 h2 h3,
  preserved c h1 h2 -> preserved c h2 h3 -> preserved c h1 h3.
Proof. intros c h1 h2 h3 H12 H23 l o Hl H. apply H23, H12; assumption. Qed.

Lemma preserved_app : forall c h f, preserved c h (h ++ f).
Proof. intros c h f l o _ H. now apply nth_error_app_left. Qed.

Lemma nth_error_update_other : forall h l l' o,
  l <> l' -> nth_error (update l' o h) l = nth_error h l.
Proof.
  induction h as [|x h IH]; intros l l' o Hne.
  - now destruct l'.
  - destruct l' as [|l']; destruct l as [|l]; simpl; try reflexivity; try congruence.
    apply IH. congruence.
Qed.

Lemma nth_error_update_same : forall h l o x,
  nth_error h l = Some x -> nth_error (update l o h) l = Some o.
Proof.
  induction h as [|y h IH]; intros l o x H; destruct l as [|l]; simpl in *;
    try discriminate; [reflexivity|eauto].
Qed.

Lemma preserved_update : forall c h o, preserved c h (update c o h).
Proof. intros c h o l x Hl H. now rewrite nth_error_update_other. Qed.

(** Representations live below the location [c] of the changes array. *)
Definition below (c : loc) (h h' : heap) : Prop :=
  List.length h <= c /\ preserved c h h'.

Lemma below_keeps : forall c h h' l o,
  below c h h' -> nth_error h l = Some o -> nth_error h' l = Some o.
Proof.
  intros c h h' l o [Hc Hp] H. apply Hp; [|assumption].
  assert (l < List.length h) by (apply nth_error_Some; congruence). lia.
Qed.

Lemma listing_rep_below : forall c h h' v t,
  below c h h' -> listing_rep h v t -> listing_rep h' v t.
Proof.
  intros c h h' v t Hb (l & props & -> & Hl & Hk & Hp).
  exists l, props. repeat split; auto. eapply below_keeps; eauto.
Qed.

Lemma entry_rep_below : forall c h h' e p,
  below c h h' -> entry_rep h e p -> entry_rep h' e p.
Proof.
  intros c h h' e p Hb [Hk Hl]. split; [assumption|].
  eapply listing_rep_below; eauto.
Qed.

Lemma change_rep_preserved : forall c h h' v ch,
  preserved c h h' -> change_rep c h v ch -> change_rep c h' v ch.
Proof.
  intros c h h' v ch Hp (l & d & -> & Hl & Hd & H).
  exists l, d. repeat split; auto.
  destruct ch; destruct H as [H1 H2]; split; apply Hp; assumption.
Qed.

(** *** Lookups on values and lookups on strings *)

Lemma val_eqb_spec : forall a b, reflect (a = b) (val_eqb a b).
Proof.
  intros [ | |x|x|x|x] [ | |y|y|y|y]; simpl; try (constructor; congruence).
  - destruct (Bool.eqb_spec x y); constructor; congruence.
  - destruct (Z.eqb_spec x y); constructor; congruence.
  - destruct (String.eqb_spec x y); constructor; congruence.
  - destruct (Nat.eqb_spec x y); constructor; congruence.
Qed.

Lemma set_rep : forall h (m : JsMap.t val val) (pm : JsMap.t string CD.TicketListing) e p,
  Forall2 (entry_rep h) m pm -> entry_rep h e p ->
  Forall2 (entry_rep h) (JsMap.set val_eqb (fst e) (snd e) m)
                        (JsMap.set String.eqb (fst p) (snd p) pm).
Proof.
  intros h m pm [k v] [k' t] Hm [Hk Hv]. simpl in *. subst k.
  induction Hm as [|[k1 v1] [k2 t2] m pm [Hk1 Hv1] Hm IH]; simpl.
  - constructor; [split; auto|constructor].
  - simpl in Hk1. subst k1. simpl.
    destruct (String.eqb k' k2).
    + constructor; [split; auto|assumption].
    + constructor; [split; auto|assumption].
Qed.

Lemma of_pairs_rep : forall h pairs ppairs,
  Forall2 (entry_rep h) pairs ppairs ->
  Forall2 (entry_rep h) (JsMap.of_pairs val_eqb pairs)
                        (JsMap.of_pairs String.eqb ppairs).
Proof.
  intros h pairs ppairs H. unfold JsMap.of_pairs.
  assert (Hgen : forall m pm, Forall2 (entry_rep h) m pm ->
            Forall2 (entry_rep h)
              (fold_left (fun m kv => JsMap.set val_eqb (fst kv) (snd kv) m) pairs m)
              (fold_left (fun m kv => JsMap.set String.eqb (fst kv) (snd kv) m) ppairs pm)).
  { induction H as [|e p pairs ppairs He H IH]; intros m pm Hm; simpl.
    - assumption.
    - apply IH. now apply set_rep. }
  apply Hgen. constructor.
Qed.

Lemma get_rep : forall h m pm k,
  Forall2 (entry_rep h) m pm ->
  match JsMap.get val_eqb (VStr k) m, JsMap.get String.eqb k pm with
  | Some v, Some t => listing_rep h v t
  | None, None => True
  | _, _ => False
  end.
Proof.
  intros h m pm k H.
  induction H as [|[k1 v1] [k2 t2] m pm [Hk Hv] H IH]; simpl.
  - exact I.
  - simpl in Hk. subst k1. simpl. destruct (String.eqb k k2); [exact Hv|exact IH].
Qed.

(** *** Building a lookup *)

Lemma extends_trans : forall h1 h2 h3, extends h1 h2 -> extends h2 h3 -> extends h1 h3.
Proof. intros h1 h2 h3 [f ->] [g ->]. exists (f ++ g). now rewrite app_assoc. Qed.

Lemma extends_nth : forall h h' l o,
  extends h h' -> nth_error h l = Some o -> nth_error h' l = Some o.
Proof. intros h h' l o [f ->] H. now apply nth_error_app_left. Qed.

Lemma extends_alloc : forall h o, extends h (h ++ [o]).
Proof. intros. now exists [o]. Qed.

Lemma nth_error_alloc : forall (h : heap) o, nth_error (h ++ [o]) (List.length h) = Some o.
Proof. intros. rewrite nth_error_app2 by lia. now rewrite Nat.sub_diag. Qed.

Lemma listing_rep_extends : forall h h' v t,
  extends h h' -> listing_rep h v t -> listing_rep h' v t.
Proof.
  intros h h' v t He (l & props & -> & Hl & Hk & Hp).
  exists l, props. repeat split; auto. eapply extends_nth; eauto.
Qed.

(** The pair array [[k, v]] the callback creates for an entry. *)
Definition pair_rep (h : heap) (p : val) (e : val * val) : Prop :=
  exists l, p = VRef l /\ nth_error h l = Some (OArray [fst e; snd e]).

Lemma pair_rep_extends : forall h h' p e,
  extends h h' -> pair_rep h p e -> pair_rep h' p e.
Proof.
  intros h h' p e He (l & -> & Hl). exists l. split; [reflexivity|].
  eapply extends_nth; eauto.
Qed.

Lemma Forall2_impl : forall A B (R R' : A -> B -> Prop) l l',
  (forall a b, R a b -> R' a b) -> Forall2 R l l' -> Forall2 R' l l'.
Proof. intros A B R R' l l' H F. induction F; constructor; auto. Qed.

Lemma get_prop_object : forall h l props name,
  nth_error h l = Some (OObject props) ->
  get_prop (VRef l) name h = (Ok (assoc name props), h).
Proof. intros h l props name H. unfold get_prop. now rewrite H. Qed.

Lemma section_entry_rep : forall h hcur v t,
  listing_rep h v t -> extends h hcur ->
  section_entry v hcur =
  (Ok (VRef (List.length hcur)), hcur ++ [OArray [VStr (CD.sectionRow t); v]]).
Proof.
  intros h hcur v t (l & props & -> & Hl & Hk & Hp) He.
  unfold section_entry, bind.
  rewrite (get_prop_object hcur l props) by (eapply extends_nth; eauto).
  now rewrite Hk.
Qed.

Lemma mapM_section_entry_rep : forall h vs ts,
  Forall2 (listing_rep h) vs ts ->
  forall hcur, extends h hcur ->
  exists ps entries hnew,
    mapM section_entry vs hcur = (Ok ps, hnew)
    /\ extends hcur hnew
    /\ Forall2 (pair_rep hnew) ps entries
    /\ Forall2 (entry_rep h) entries (map (fun t => (CD.sectionRow t, t)) ts).
Proof.
  intros h vs ts H. induction H as [|v t vs ts Hv H IH]; intros hcur He.
  - exists [], [], hcur. simpl. repeat split; try constructor.
    apply extends_refl.
  - simpl. unfold bind at 1. rewrite (section_entry_rep h hcur v t Hv He).
    set (h1 := hcur ++ [OArray [VStr (CD.sectionRow t); v]]).
    assert (He1 : extends h h1) by (eapply extends_trans; [eassumption|apply extends_alloc]).
    destruct (IH h1 He1) as (ps & entries & hnew & Hrun & Hext & Hps & Hes).
    exists (VRef (List.length hcur) :: ps), ((VStr (CD.sectionRow t), v) :: entries), hnew.
    unfold bind. rewrite Hrun. simpl. repeat split.
    + eapply extends_trans; [apply extends_alloc|exact Hext].
    + constructor; [|assumption].
      exists (List.length hcur). split; [reflexivity|].
      eapply extends_nth; [exact Hext|]. apply nth_error_alloc.
    + constructor; [|assumption]. split; [reflexivity|assumption].
Qed.

Lemma array_elems_array : forall h l vs,
  nth_error h l = Some (OArray vs) -> array_elems (VRef l) h = (Ok vs, h).
Proof. intros h l vs H. unfold array_elems. now rewrite H. Qed.

Lemma mapM_entry_of_rep : forall h ps entries,
  Forall2 (pair_rep h) ps entries -> mapM entry_of ps h = (Ok entries, h).
Proof.
  intros h ps entries H. induction H as [|p [k v] ps entries (l & -> & Hl) H IH]; simpl.
  - reflexivity.
  - unfold bind at 1. unfold entry_of at 1. rewrite Hl. simpl.
    unfold bind. now rewrite IH.
Qed.

(** [new Map(arr.map((t) => [t.sectionRow, t]))] on an array of listings. *)
Lemma build_lookup_rep : forall B h arr ts hcur (k : val -> M B),
  tickets_rep h arr ts -> extends h hcur ->
  exists m es hnew,
    (pairs <- array_map arr section_entry ;; lookup <- new_Map pairs ;; k lookup) hcur
      = k (VRef m) hnew
    /\ extends hcur hnew
    /\ List.length hcur <= m
    /\ nth_error hnew m = Some (OMap es)
    /\ Forall2 (entry_rep h) es (CD.ticket_lookup ts).
Proof.
  intros B h arr ts hcur k (l & vs & -> & Hl & Hvs) He.
  destruct (mapM_section_entry_rep h vs ts Hvs hcur He)
    as (ps & entries & h1 & Hrun & Hext & Hps & Hes).
  set (h2 := h1 ++ [OArray ps]).
  assert (Hps2 : Forall2 (pair_rep h2) ps entries).
  { eapply Forall2_impl; [|exact Hps]. intros p e. apply pair_rep_extends, extends_alloc. }
  exists (List.length h2), (JsMap.of_pairs val_eqb entries),
         (h2 ++ [OMap (JsMap.of_pairs val_eqb entries)]).
  split; [|split; [|split; [|split]]].
  - unfold bind at 1. unfold array_map, bind.
    rewrite (array_elems_array hcur l vs) by (eapply extends_nth; eauto).
    rewrite Hrun. unfold alloc at 1. fold h2.
    unfold new_Map, bind.
    rewrite (array_elems_array h2 (List.length h1) ps) by apply nth_error_alloc.
    rewrite (mapM_entry_of_rep h2 ps entries Hps2). reflexivity.
  - eapply extends_trans; [exact Hext|].
    eapply extends_trans; apply extends_alloc.
  - apply extends_length in Hext. unfold h2. rewrite length_app. simpl. lia.
  - apply nth_error_alloc.
  - unfold CD.ticket_lookup. now apply of_pairs_rep.
Qed.

(** *** The two loops *)

Section Loops.
Variable h : heap.            (* the heap the snapshots were given in *)
Variable c : loc.             (* the changes array *)
Variable mo : loc.            (* the lookup of the old snapshot *)
Variable old_js : JsMap.t val val.
Variable old_pm : JsMap.t string CD.TicketListing.
Hypothesis c_fresh : List.length h <= c.
Hypothesis mo_not_c : mo <> c.
Hypothesis old_rep_entries : Forall2 (entry_rep h) old_js old_pm.

(** The heap during the loops: the snapshots and the old lookup are as they
    were, and the changes array spells out the changes found so far. *)
Definition loop_state (hcur : heap) (acc : list CD.ChangeEvent) : Prop :=
  below c h hcur
  /\ nth_error hcur mo = Some (OMap old_js)
  /\ exists vs, nth_error hcur c = Some (OArray vs)
                /\ Forall2 (change_rep c hcur) vs acc.

Lemma map_get_lookup : forall hcur k,
  nth_error hcur mo = Some (OMap old_js) ->
  map_get (VRef mo) k hcur =
  (Ok (match JsMap.get val_eqb k old_js with Some v => v | None => VUndef end), hcur).
Proof. intros hcur k H. unfold map_get, bind, map_entries. now rewrite H. Qed.

Lemma map_has_lookup : forall hcur k,
  nth_error hcur mo = Some (OMap old_js) ->
  map_has (VRef mo) k hcur = (Ok (JsMap.has val_eqb k old_js), hcur).
Proof. intros hcur k H. unfold map_has, bind, map_entries. now rewrite H. Qed.

Lemma get_price : forall hcur v t,
  below c h hcur -> listing_rep h v t ->
  get_prop v "price" hcur = (Ok (VStr (CD.price t)), hcur).
Proof.
  intros hcur v t Hb (l & props & -> & Hl & Hk & Hp).
  rewrite (get_prop_object hcur l props) by (eapply below_keeps; eauto).
  now rewrite Hp.
Qed.

Lemma array_push_array : forall hcur vs x,
  nth_error hcur c = Some (OArray vs) ->
  array_push (VRef c) x hcur = (Ok tt, update c (OArray (vs ++ [x])) hcur).
Proof. intros hcur vs x H. unfold array_push. now rewrite H. Qed.

(** Pushing a new record and its details onto the changes array. *)
Lemma push_change : forall hcur acc details_props type_name ch,
  loop_state hcur acc ->
  (forall hnew l d,
      l <> c -> d <> c ->
      nth_error hnew l = Some (OObject [("type", VStr type_name); ("details", VRef d)]) ->
      nth_error hnew d = Some (OObject details_props) ->
      change_rep c hnew (VRef l) ch) ->
  exists hnew,
    (details <- alloc (OObject details_props) ;;
     change <- alloc (OObject [("type", VStr type_name); ("details", details)]) ;;
     array_push (VRef c) change) hcur = (Ok tt, hnew)
    /\ preserved c hcur hnew
    /\ loop_state hnew (acc ++ [ch]).
Proof.
  intros hcur acc details_props type_name ch (Hb & Hmo & vs & Hc & Hvs) Hrep.
  assert (Hlt : c < List.length hcur) by (apply nth_error_Some; congruence).
  set (d := List.length hcur).
  set (h1 := hcur ++ [OObject details_props]).
  set (l := List.length h1).
  set (h2 := h1 ++ [OObject [("type", VStr type_name); ("details", VRef d)]]).
  assert (Hl : l = Datatypes.S d) by (unfold l, h1; rewrite length_app; simpl; lia).
  assert (Hc2 : nth_error h2 c = Some (OArray vs)).
  { unfold h2, h1. now apply nth_error_app_left, nth_error_app_left. }
  assert (Hp : preserved c hcur (update c (OArray (vs ++ [VRef l])) h2)).
  { eapply preserved_trans; [|apply preserved_update].
    unfold h2, h1. rewrite <- app_assoc. apply preserved_app. }
  exists (update c (OArray (vs ++ [VRef l])) h2). split; [|split; [exact Hp|]].
  - unfold bind, alloc. fold d h1. fold l h2.
    now rewrite (array_push_array h2 vs (VRef l) Hc2).
  - split; [|split].
    + destruct Hb as [Hlen Hpres]. split; [assumption|].
      eapply preserved_trans; eassumption.
    + apply Hp; assumption.
    + exists (vs ++ [VRef l]). split.
      * eapply nth_error_update_same; eassumption.
      * apply Forall2_app.
        -- eapply Forall2_impl; [|exact Hvs]. intros v x.
           now apply change_rep_preserved.
        -- constructor; [|constructor].
           apply (Hrep _ l d); try lia.
           ++ rewrite nth_error_update_other by lia. unfold h2, l. apply nth_error_alloc.
           ++ rewrite nth_error_update_other by lia. unfold h2.
              apply nth_error_app_left. unfold h1, d. apply nth_error_alloc.
Qed.

Lemma price_change_body_rep : forall hcur acc e p,
  loop_state hcur acc -> entry_rep h e p ->
  exists hnew,
    price_change_body (VRef c) (VRef mo) e hcur = (Ok tt, hnew)
    /\ preserved c hcur hnew
    /\ loop_state hnew (CD.price_change_step old_pm acc p).
Proof.
  intros hcur acc [kv v] [k t] Hst [Hk Hv]. simpl in Hk, Hv. subst kv.
  pose proof Hst as (Hb & Hmo & _).
  unfold price_change_body, CD.price_change_step, CD.map_get.
  unfold bind at 1. rewrite (map_get_lookup hcur (VStr k) Hmo).
  pose proof (get_rep h old_js old_pm k old_rep_entries) as Hget.
  destruct (JsMap.get val_eqb (VStr k) old_js) as [ov|];
    destruct (JsMap.get String.eqb k old_pm) as [ot|]; try contradiction.
  - assert (Htr : truthy ov = true) by (destruct Hget as (l & props & -> & _); reflexivity).
    rewrite Htr. unfold bind at 1. unfold bind at 1.
    rewrite (get_price hcur ov ot Hb Hget).
    unfold bind at 1. rewrite (get_price hcur v t Hb Hv).
    unfold ret at 1. cbn [truthy val_eqb].
    destruct (negb (String.eqb (CD.price ot) (CD.price t))).
    + unfold bind at 1. rewrite (get_price hcur ov ot Hb Hget).
      unfold bind at 1. rewrite (get_price hcur v t Hb Hv).
      apply push_change; [assumption|].
      intros hnew l d Hl Hd H1 H2. exists l, d. repeat split; assumption.
    + exists hcur. split; [reflexivity|]. split; [apply preserved_refl|assumption].
  - cbn [truthy]. unfold bind at 1. unfold ret at 1. cbn [truthy].
    exists hcur. split; [reflexivity|]. split; [apply preserved_refl|assumption].
Qed.

Lemma new_section_body_rep : forall hcur acc e p,
  loop_state hcur acc -> entry_rep h e p ->
  exists hnew,
    new_section_body (VRef c) (VRef mo) e hcur = (Ok tt, hnew)
    /\ preserved c hcur hnew
    /\ loop_state hnew (CD.new_section_step old_pm acc p).
Proof.
  intros hcur acc [kv v] [k t] Hst [Hk Hv]. simpl in Hk, Hv. subst kv.
  pose proof Hst as (Hb & Hmo & _).
  unfold new_section_body, CD.new_section_step, CD.map_has.
  unfold bind at 1. rewrite (map_has_lookup hcur (VStr k) Hmo).
  pose proof (get_rep h old_js old_pm k old_rep_entries) as Hget.
  unfold JsMap.has.
  destruct (JsMap.get val_eqb (VStr k) old_js) as [ov|];
    destruct (JsMap.get String.eqb k old_pm) as [ot|]; try contradiction; cbn [negb].
  - exists hcur. split; [reflexivity|]. split; [apply preserved_refl|assumption].
  - unfold bind at 1. rewrite (get_price hcur v t Hb Hv).
    apply push_change; [assumption|].
    intros hnew l d Hl Hd H1 H2. exists l, d. repeat split; assumption.
Qed.

Lemma price_loop_rep : forall es ps,
  Forall2 (entry_rep h) es ps ->
  forall hcur acc, loop_state hcur acc ->
  exists hnew,
    forM es (price_change_body (VRef c) (VRef mo)) hcur = (Ok tt, hnew)
    /\ preserved c hcur hnew
    /\ loop_state hnew (fold_left (CD.price_change_step old_pm) ps acc).
Proof.
  intros es ps H. induction H as [|e p es ps He H IH]; intros hcur acc Hst; simpl.
  - exists hcur. split; [reflexivity|]. split; [apply preserved_refl|assumption].
  - destruct (price_change_body_rep hcur acc e p Hst He) as (h1 & Hrun & Hp1 & Hst1).
    unfold bind. rewrite Hrun.
    destruct (IH h1 _ Hst1) as (h2 & Hrun2 & Hp2 & Hst2).
    exists h2. split; [assumption|]. split; [|assumption].
    eapply preserved_trans; eassumption.
Qed.

Lemma new_section_loop_rep : forall es ps,
  Forall2 (entry_rep h) es ps ->
  forall hcur acc, loop_state hcur acc ->
  exists hnew,
    forM es (new_section_body (VRef c) (VRef mo)) hcur = (Ok tt, hnew)
    /\ preserved c hcur hnew
    /\ loop_state hnew (fold_left (CD.new_section_step old_pm) ps acc).
Proof.
  intros es ps H. induction H as [|e p es ps He H IH]; intros hcur acc Hst; simpl.
  - exists hcur. split; [reflexivity|]. split; [apply preserved_refl|assumption].
  - destruct (new_section_body_rep hcur acc e p Hst He) as (h1 & Hrun & Hp1 & Hst1).
    unfold bind. rewrite Hrun.
    destruct (IH h1 _ Hst1) as (h2 & Hrun2 & Hp2 & Hst2).
    exists h2. split; [assumption|]. split; [|assumption].
    eapply preserved_trans; eassumption.
Qed.

End Loops.

(** *** The whole function *)

Lemma map_entries_map : forall hcur m es,
  nth_error hcur m = Some (OMap es) -> map_entries (VRef m) hcur = (Ok es, hcur).
Proof. intros hcur m es H. unfold map_entries. now rewrite H. Qed.

Lemma extends_preserved : forall c h h', extends h h' -> preserved c h h'.
Proof. intros c h h' [f ->]. apply preserved_app. Qed.

(** The comparison of two ticket arrays, after the guard. *)
Lemma compare_rep : forall h c la lb ta tb props_o props_n lo ln hcur,
  List.length h = c ->
  extends h hcur ->
  nth_error hcur c = Some (OArray []) ->
  nth_error h lo = Some (OObject props_o) ->
  nth_error h ln = Some (OObject props_n) ->
  assoc "tickets" props_o = VRef la ->
  assoc "tickets" props_n = VRef lb ->
  tickets_rep h (VRef la) ta ->
  tickets_rep h (VRef lb) tb ->
  exists vs hnew,
    (old_arr <- get_prop (VRef lo) "tickets" ;;
     old_pairs <- array_map old_arr section_entry ;;
     oldTickets <- new_Map old_pairs ;;
     new_arr <- get_prop (VRef ln) "tickets" ;;
     new_pairs <- array_map new_arr section_entry ;;
     newTickets <- new_Map new_pairs ;;
     entries <- map_entries newTickets ;;
     forM entries (price_change_body (VRef c) oldTickets) ;;;
     entries <- map_entries newTickets ;;
     forM entries (new_section_body (VRef c) oldTickets)) hcur = (Ok tt, hnew)
    /\ nth_error hnew c = Some (OArray vs)
    /\ Forall2 (change_rep c hnew) vs
         (fold_left (CD.new_section_step (CD.ticket_lookup ta)) (CD.ticket_lookup tb)
            (fold_left (CD.price_change_step (CD.ticket_lookup ta)) (CD.ticket_lookup tb) [])).
Proof.
  intros h c la lb ta tb props_o props_n lo ln hcur Hc He Hchanges Hlo Hln Ho Hn Hta Htb.
  unfold bind at 1.
  rewrite (get_prop_object hcur lo props_o) by (eapply extends_nth; eauto).
  rewrite Ho.
  match goal with
  | |- context [bind (array_map (VRef la) section_entry)
                     (fun p => bind (new_Map p) ?k) hcur] =>
      destruct (build_lookup_rep _ h (VRef la) ta hcur k Hta He)
        as (mo & old_js & h2 & Hrun_o & Hext2 & Hmo_ge & Hmo & Hold)
  end.
  rewrite Hrun_o. clear Hrun_o.
  assert (He2 : extends h h2) by (eapply extends_trans; eassumption).
  unfold bind at 1.
  rewrite (get_prop_object h2 ln props_n) by (eapply extends_nth; eauto).
  rewrite Hn.
  match goal with
  | |- context [bind (array_map (VRef lb) section_entry)
                     (fun p => bind (new_Map p) ?k) h2] =>
      destruct (build_lookup_rep _ h (VRef lb) tb h2 k Htb He2)
        as (mn & new_js & h3 & Hrun_n & Hext3 & Hmn_ge & Hmn & Hnew)
  end.
  rewrite Hrun_n. clear Hrun_n.
  assert (Hclt : c < List.length hcur) by (apply nth_error_Some; congruence).
  assert (Hlen2 : List.length hcur <= List.length h2) by now apply extends_length.
  assert (Hmo_c : mo <> c) by lia.
  assert (Hmn_c : mn <> c) by lia.
  assert (Hst : loop_state h c mo old_js h3 []).
  { split; [split; [lia|]|split].
    - apply extends_preserved. eapply extends_trans; eassumption.
    - eapply extends_nth; eassumption.
    - exists []. split; [|constructor].
      eapply extends_nth; [|exact Hchanges]. eapply extends_trans; eassumption. }
  unfold bind at 1. rewrite (map_entries_map h3 mn new_js Hmn).
  destruct (price_loop_rep h c mo old_js (CD.ticket_lookup ta) ltac:(lia) Hmo_c Hold
              new_js (CD.ticket_lookup tb) Hnew h3 [] Hst)
    as (h4 & Hrun1 & Hp4 & Hst4).
  unfold bind at 1. rewrite Hrun1.
  unfold bind at 1.
  rewrite (map_entries_map h4 mn new_js) by (apply Hp4; assumption).
  destruct (new_section_loop_rep h c mo old_js (CD.ticket_lookup ta) ltac:(lia) Hmo_c Hold
              new_js (CD.ticket_lookup tb) Hnew h4 _ Hst4)
    as (h5 & Hrun2 & Hp5 & Hst5).
  destruct Hst5 as (_ & _ & vs & Hvs & Hrep).
  exists vs, h5. split; [exact Hrun2|]. split; assumption.
Qed.

(** X15: on a heap that holds the two snapshots, [detectChanges] returns a new
    array whose records spell out the changes computed on the listings. *)
Theorem detectChanges_refines :
  forall (h : heap) (oldData newData : val)
         (A : option CD.Snapshot) (B : CD.Snapshot),
    old_rep h oldData A -> snapshot_rep h newData B ->
    exists r vs h',
      detectChanges oldData newData h = (Ok (VRef r), h')
      /\ nth_error h' r = Some (OArray vs)
      /\ Forall2 (change_rep r h') vs (CD.detectChanges A B).
Proof.
  intros h oldData newData A B Hold (ln & props_n & -> & Hln & HB).
  destruct A as [sa|]; simpl in Hold.
  - destruct Hold as (lo & props_o & -> & Hlo & HA).
    unfold detectChanges. cbn [truthy negb].
    unfold bind at 1. unfold alloc at 1.
    set (c := List.length h). set (h1 := h ++ [OArray []]).
    assert (He1 : extends h h1) by apply extends_alloc.
    assert (Hc1 : nth_error h1 c = Some (OArray [])) by apply nth_error_alloc.
    unfold bind at 1.
    rewrite (get_prop_object h1 lo props_o) by (eapply extends_nth; eauto).
    unfold CD.detectChanges.
    destruct (CD.tickets sa) as [ta|].
    + pose proof HA as (la & vsa & Hta & _). rewrite Hta. cbn [truthy].
      unfold bind at 1.
      rewrite (get_prop_object h1 ln props_n) by (eapply extends_nth; eauto).
      destruct (CD.tickets B) as [tb|].
      * pose proof HB as (lb & vsb & Htb & _). rewrite Htb. cbn [truthy].
        rewrite Hta in HA. rewrite Htb in HB.
        destruct (compare_rep h c la lb ta tb props_o props_n lo ln h1
                    eq_refl He1 Hc1 Hlo Hln Hta Htb HA HB)
          as (vs & hnew & Hrun & Hvs & Hrep).
        unfold bind at 1. rewrite Hrun.
        exists c, vs, hnew. repeat split; assumption.
      * rewrite HB. cbn [truthy]. unfold bind, ret.
        exists c, [], h1. repeat split; [assumption|constructor].
    + rewrite HA. cbn [truthy]. unfold bind, ret. cbn [truthy].
      exists c, [], h1. repeat split; [assumption|constructor].
  - exists (List.length h), [], (h ++ [OArray []]).
    split; [|split; [apply nth_error_alloc|constructor]].
    unfold detectChanges. now destruct Hold as [-> | ->].
Qed.

(** The scenario of the specification, on a heap. *)
Definition scenario_heap : heap :=
  [ OObject [("sectionRow", VStr "Sec 101 Row A"); ("price", VStr "$50")];
    OArray [VRef 0];
    OObject [("tickets", VRef 1)];
    OObject [("sectionRow", VStr "Sec 101 Row A"); ("price", VStr "$60")];
    OObject [("sectionRow", VStr "Sec 102 Row B"); ("price", VStr "$40")];
    OArray [VRef 3; VRef 4];
    OObject [("tickets", VRef 5)] ].

Example detectChanges_scenario_heap :
  let '(r, h') := detectChanges (VRef 2) (VRef 6) scenario_heap in
  r = Ok (VRef 7)
  /\ nth_error h' 7 = Some (OArray [VRef 16; VRef 18])
  /\ nth_error h' 16 = Some (OObject [("type", VStr "PRICE_CHANGE"); ("details", VRef 15)])
  /\ nth_error h' 15 = Some (OObject [("sectionRow", VStr "Sec 101 Row A");
                                      ("oldPrice", VStr "$50"); ("newPrice", VStr "$60")])
  /\ nth_error h' 18 = Some (OObject [("type", VStr "NEW_SECTION"); ("details", VRef 17)])
  /\ nth_error h' 17 = Some (OObject [("sectionRow", VStr "Sec 102 Row B");
                                      ("price", VStr "$40")]).
Proof. repeat split. Qed.

End Refinement.

(** ** The update step of the poller and of the controller

    [pollTickets] and [fetchAndUpdateTickets] run the same statements on a
    monitored-endpoint record after a fetch returned
    [{tickets, stadiumData, networkData}]. *)

Module Poller.
Import ChangeDetector.

Record StadiumLayout := mkStadium
  { stadiumImage : option string; layoutData : option (list string) }.

(** What the step destructures from the fetch result. *)
Record FetchResult := mkFetchResult
  { res_tickets : list TicketListing;
    res_stadiumData : option StadiumLayout;
    res_networkData : option Snapshot }.

(** The fields of a [TicketUrl] document the step reads and writes. *)
Record TicketUrl := mkTicketUrl
  { tu_tickets : list TicketListing;
    tu_stadium : option StadiumLayout;
    tu_changes : list ChangeEvent;
    tu_lastNetworkData : option Snapshot;
    tu_fetchCount : Z }.

(** [arr.slice(-n)]: the last [n] elements, all of them when there are fewer. *)
Definition slice_last {A} (n : nat) (l : list A) : list A :=
  skipn (List.length l - n) l.

(** The changes the step computes from the stored and the new payload. *)
Definition step_changes (ticketUrl : TicketUrl) (networkData : option Snapshot)
  : list ChangeEvent :=
  match networkData with
  | Some nd => detectChanges (tu_lastNetworkData ticketUrl) nd
  | None => []
  end.

(** The block under [// Track changes]. *)
Definition track_changes (ticketUrl : TicketUrl) (networkData : option Snapshot)
  : TicketUrl :=
  match networkData with
  | Some nd =>
      let changes := detectChanges (tu_lastNetworkData ticketUrl) nd in
      let kept :=
        if (0 <? List.length changes)%nat
        then
          let pushed := tu_changes ticketUrl ++ changes in
          if (100 <? List.length pushed)%nat then slice_last 100 pushed else pushed
        else tu_changes ticketUrl in
      mkTicketUrl (tu_tickets ticketUrl) (tu_stadium ticketUrl) kept (Some nd)
                  (tu_fetchCount ticketUrl)
  | None => ticketUrl
  end.

Definition update_step (ticketUrl : TicketUrl) (r : FetchResult) : TicketUrl :=
  let ticketUrl :=
    mkTicketUrl (res_tickets r) (tu_stadium ticketUrl) (tu_changes ticketUrl)
                (tu_lastNetworkData ticketUrl) (tu_fetchCount ticketUrl) in
  let ticketUrl :=
    match res_stadiumData r with
    | Some sd =>
        mkTicketUrl (tu_tickets ticketUrl) (Some sd) (tu_changes ticketUrl)
                    (tu_lastNetworkData ticketUrl) (tu_fetchCount ticketUrl)
    | None => ticketUrl
    end in
  let ticketUrl := track_changes ticketUrl (res_networkData r) in
  mkTicketUrl (tu_tickets ticketUrl) (tu_stadium ticketUrl) (tu_changes ticketUrl)
              (tu_lastNetworkData ticketUrl) (tu_fetchCount ticketUrl + 1).

(** All changes the steps of a run append, oldest first. *)
Fixpoint appended (ticketUrl : TicketUrl) (results : list FetchResult)
  : list ChangeEvent :=
  match results with
  | [] => []
  | r :: rest =>
      step_changes ticketUrl (res_networkData r)
      ++ appended (update_step ticketUrl r) rest
  end.

Lemma slice_last_short : forall A n (l : list A),
  List.length l <= n -> slice_last n l = l.
Proof.
  intros A n l H. unfold slice_last.
  replace (List.length l - n) with 0 by lia. reflexivity.
Qed.

Lemma slice_last_length : forall A n (l : list A),
  List.length (slice_last n l) = Nat.min n (List.length l).
Proof. intros. unfold slice_last. rewrite length_skipn. lia. Qed.

Lemma slice_last_drop_front : forall A n (a c : list A),
  n <= List.length c -> slice_last n (a ++ c) = slice_last n c.
Proof.
  intros A n a c Hn. unfold slice_last. rewrite length_app, skipn_app.
  rewrite skipn_all2 by lia. simpl. f_equal. lia.
Qed.

Lemma slice_last_app : forall A n (l m : list A),
  slice_last n (slice_last n l ++ m) = slice_last n (l ++ m).
Proof.
  intros A n l m.
  destruct (Nat.le_gt_cases (List.length l) n) as [Hle|Hgt].
  - now rewrite (slice_last_short _ n l) by assumption.
  - assert (E : l ++ m = firstn (List.length l - n) l ++ (slice_last n l ++ m)).
    { unfold slice_last. now rewrite app_assoc, firstn_skipn. }
    rewrite E.
    rewrite (slice_last_drop_front _ n (firstn (List.length l - n) l)).
    + reflexivity.
    + rewrite length_app, slice_last_length. lia.
Qed.

Lemma track_changes_changes : forall ticketUrl networkData,
  List.length (tu_changes ticketUrl) <= 100 ->
  tu_changes (track_changes ticketUrl networkData) =
  slice_last 100 (tu_changes ticketUrl ++ step_changes ticketUrl networkData).
Proof.
  intros ticketUrl [nd|] Hlen; simpl.
  - destruct (detectChanges (tu_lastNetworkData ticketUrl) nd) as [|c cs] eqn:E; simpl.
    + rewrite app_nil_r. now rewrite slice_last_short.
    + destruct (Nat.ltb_spec 100 (List.length (tu_changes ticketUrl ++ c :: cs))).
      * reflexivity.
      * now rewrite slice_last_short by lia.
  - rewrite app_nil_r. now rewrite slice_last_short.
Qed.

Lemma update_step_changes : forall ticketUrl r,
  List.length (tu_changes ticketUrl) <= 100 ->
  tu_changes (update_step ticketUrl r) =
  slice_last 100 (tu_changes ticketUrl ++ step_changes ticketUrl (res_networkData r)).
Proof.
  intros ticketUrl r Hlen. unfold update_step. simpl.
  destruct (res_stadiumData r); simpl;
    rewrite track_changes_changes by (simpl; assumption); reflexivity.
Qed.

Lemma update_step_bounded : forall ticketUrl r,
  List.length (tu_changes ticketUrl) <= 100 ->
  List.length (tu_changes (update_step ticketUrl r)) <= 100.
Proof.
  intros ticketUrl r H. rewrite update_step_changes by assumption.
  rewrite slice_last_length. lia.
Qed.

(** A record as [addUrl] creates it. *)
Definition created : TicketUrl := mkTicketUrl [] None [] None 0.

(** Two fetches: a payload without listings, then one with 101 sections. *)
Definition many_sections : list TicketListing :=
  map (fun i => mkListing (String (ascii_of_nat i) EmptyString) "$1" "" "") (seq 0 101).

Definition two_fetches : list FetchResult :=
  [ mkFetchResult [] None (Some (mkSnapshot (Some [])));
    mkFetchResult many_sections None (Some (mkSnapshot (Some many_sections))) ].

Lemma track_changes_appending : forall ticketUrl networkData,
  step_changes ticketUrl networkData <> [] ->
  tu_changes (track_changes ticketUrl networkData) =
  slice_last 100 (tu_changes ticketUrl ++ step_changes ticketUrl networkData).
Proof.
  intros ticketUrl [nd|] Hne; simpl in *; [|congruence].
  destruct (detectChanges (tu_lastNetworkData ticketUrl) nd) as [|c cs]; [congruence|].
  simpl.
  destruct (Nat.ltb_spec 100 (List.length (tu_changes ticketUrl ++ c :: cs))).
  - reflexivity.
  - now rewrite slice_last_short by lia.
Qed.

(** C5: a step that appends changes leaves the last 100 entries of the old
    list followed by the new changes, whatever the record was; and starting
    from a record within the cap (as every created record is), after any
    sequence of update steps the [changes] list has at most 100 entries:
    the last 100 of the entries it had followed by all changes the steps
    appended, in order, so the oldest are dropped first. *)
Theorem changes_capped_fifo :
  (forall (ticketUrl : TicketUrl) (r : FetchResult),
      step_changes ticketUrl (res_networkData r) <> [] ->
      List.length (tu_changes (update_step ticketUrl r)) <= 100
      /\ tu_changes (update_step ticketUrl r) =
         slice_last 100 (tu_changes ticketUrl
                         ++ step_changes ticketUrl (res_networkData r)))
  /\ (forall (ticketUrl : TicketUrl) (results : list FetchResult),
        List.length (tu_changes ticketUrl) <= 100 ->
        List.length (tu_changes (fold_left update_step results ticketUrl)) <= 100
        /\ tu_changes (fold_left update_step results ticketUrl) =
           slice_last 100 (tu_changes ticketUrl ++ appended ticketUrl results)).
Proof.
  split.
  - intros ticketUrl r Hne.
    assert (Heq : tu_changes (update_step ticketUrl r) =
                  slice_last 100 (tu_changes ticketUrl
                                  ++ step_changes ticketUrl (res_networkData r))).
    { unfold update_step. simpl.
      destruct (res_stadiumData r); simpl;
        now rewrite track_changes_appending. }
    split; [|exact Heq]. rewrite Heq, slice_last_length. lia.
  - intros ticketUrl results. revert ticketUrl.
    induction results as [|r rest IH]; intros ticketUrl Hlen; simpl.
    + rewrite app_nil_r. split; [assumption|]. now rewrite slice_last_short.
    + destruct (IH (update_step ticketUrl r) (update_step_bounded _ r Hlen)) as [Hb Heq].
      split; [assumption|].
      rewrite Heq, update_step_changes by assumption.
      now rewrite slice_last_app, <- app_assoc.
Qed.

Lemma changes_capped_fifo_witness :
  List.length (tu_changes (fold_left update_step two_fetches created)) <= 100
  /\ tu_changes (fold_left update_step two_fetches created) =
     slice_last 100 (tu_changes created ++ appended created two_fetches).
Proof.
  destruct changes_capped_fifo as [_ H].
  apply (H created two_fetches). simpl. lia.
Defined.

Example one_step_evicts_oldest :
  List.length (appended created two_fetches) = 101
  /\ tu_changes (fold_left update_step two_fetches created) =
     skipn 1 (appended created two_fetches).
Proof. split; reflexivity. Qed.

End Poller.

(** ** The event identifier of a URL

    [url.match(/event\/([A-Z0-9]+)/i)] and its first capture group. A
    string is a sequence of code units; only ASCII letters have a case
    under the [i] flag of a regular expression without the [u] flag. *)

Module EventId.

Definition is_digit (c : ascii) : bool :=
  let n := nat_of_ascii c in (48 <=? n)%nat && (n <=? 57)%nat.

Definition is_upper (c : ascii) : bool :=
  let n := nat_of_ascii c in (65 <=? n)%nat && (n <=? 90)%nat.

Definition is_lower (c : ascii) : bool :=
  let n := nat_of_ascii c in (97 <=? n)%nat && (n <=? 122)%nat.

(** Canonicalize: the upper case of a letter, any other code unit itself. *)
Definition canonicalize (c : ascii) : ascii :=
  if is_lower c then ascii_of_nat (nat_of_ascii c - 32) else c.

(** The class [[A-Z0-9]] under the [i] flag. *)
Definition alnum (c : ascii) : bool :=
  let u := canonicalize c in is_upper u || is_digit u.

(** A literal at the start of the input: the input after it. *)
Fixpoint match_literal (lit s : string) : option string :=
  match lit, s with
  | EmptyString, _ => Some s
  | String a lit', String b s' =>
      if Ascii.eqb (canonicalize a) (canonicalize b) then match_literal lit' s' else None
  | String _ _, EmptyString => None
  end.

(** [[A-Z0-9]+] is greedy and nothing follows it: the longest run. *)
Fixpoint take_alnum (s : string) : string :=
  match s with
  | String c s' => if alnum c then String c (take_alnum s') else EmptyString
  | EmptyString => EmptyString
  end.

(** A match that starts at the first character: its capture group. *)
Definition match_here (s : string) : option string :=
  match match_literal "event/" s with
  | Some rest =>
      match take_alnum rest with
      | EmptyString => None
      | id => Some id
      end
  | None => None
  end.

(** The leftmost match: its capture group, [None] for [null]. *)
Fixpoint regex_match (s : string) : option string :=
  match match_here s with
  | Some id => Some id
  | None =>
      match s with
      | String _ s' => regex_match s'
      | EmptyString => None
      end
  end.

(** [eventIdMatch ? eventIdMatch[1] : null], and [!eventId] is the case
    [None]: a captured string is falsy only when it is empty. *)
Definition event_id_of (url : string) : option string :=
  match regex_match url with
  | Some id => if String.eqb id "" then None else Some id
  | None => None
  end.

(** *** In the words of the specification *)

(** Equal up to the case of letters. *)
Fixpoint same_letters (a b : string) : bool :=
  match a, b with
  | EmptyString, EmptyString => true
  | String x a', String y b' =>
      Ascii.eqb (canonicalize x) (canonicalize y) && same_letters a' b'
  | _, _ => false
  end.

Fixpoint all_alnum (s : string) : bool :=
  match s with
  | EmptyString => true
  | String c s' => alnum c && all_alnum s'
  end.

(** The input starts with no alphanumeric character. *)
Definition stops (s : string) : bool :=
  match s with
  | EmptyString => true
  | String c _ => negb (alnum c)
  end.

(** The URL has ["event/"], in any case, followed by an alphanumeric
    character. *)
Definition has_event_segment (url : string) : Prop :=
  exists pre lit c rest,
    url = (pre ++ lit ++ String c rest)%string
    /\ same_letters "event/" lit = true /\ alnum c = true.

Definition sample_url : string :=
  "https://www.ticketmaster.com/denver-broncos-vs-tennessee-titans-denver-colorado-09-07-2025/event/1E00625CD153457B".

Example sample_event_id : event_id_of sample_url = Some "1E00625CD153457B".
Proof. reflexivity. Qed.

Example lower_case_event_id :
  event_id_of "https://x.example/Event/ab12?x=1" = Some "ab12".
Proof. reflexivity. Qed.

Example no_event_id : event_id_of "https://www.ticketmaster.com/event/" = None.
Proof. reflexivity. Qed.

Lemma match_literal_sound : forall lit s rest,
  match_literal lit s = Some rest ->
  exists l, s = (l ++ rest)%string /\ same_letters lit l = true.
Proof.
  induction lit as [|a lit IH]; intros s rest H; simpl in H.
  - inversion H; subst. exists EmptyString. split; reflexivity.
  - destruct s as [|b s]; [discriminate|].
    destruct (Ascii.eqb (canonicalize a) (canonicalize b)) eqn:E; [|discriminate].
    destruct (IH s rest H) as (l & -> & Hl).
    exists (String b l). simpl. now rewrite E, Hl.
Qed.

Lemma match_literal_complete : forall lit l rest,
  same_letters lit l = true -> match_literal lit (l ++ rest) = Some rest.
Proof.
  induction lit as [|a lit IH]; intros l rest H; destruct l as [|b l];
    simpl in *; try discriminate; [reflexivity|].
  apply andb_true_iff in H as [E Hl]. rewrite E. now apply IH.
Qed.

Lemma take_alnum_split : forall s,
  exists rest, s = (take_alnum s ++ rest)%string
               /\ all_alnum (take_alnum s) = true /\ stops rest = true.
Proof.
  induction s as [|c s IH]; simpl.
  - exists EmptyString. repeat split.
  - destruct (alnum c) eqn:E.
    + destruct IH as (rest & Hs & Ha & Hr). exists rest. simpl.
      rewrite E, Ha. repeat split; [now rewrite <- Hs|assumption].
    + exists (String c s). simpl. rewrite E. repeat split.
Qed.

Lemma append_assoc : forall a b c : string,
  ((a ++ b) ++ c = a ++ (b ++ c))%string.
Proof.
  induction a as [|x a IH]; intros; simpl; [reflexivity|now rewrite IH].
Qed.

Lemma match_here_sound : forall s id,
  match_here s = Some id ->
  exists lit rest,
    s = (lit ++ id ++ rest)%string /\ same_letters "event/" lit = true
    /\ id <> EmptyString /\ all_alnum id = true /\ stops rest = true.
Proof.
  intros s id H. unfold match_here in H.
  destruct (match_literal "event/" s) as [after|] eqn:El; [|discriminate].
  apply match_literal_sound in El as (lit & -> & Hlit).
  destruct (take_alnum_split after) as (rest & Hs & Ha & Hr).
  destruct (take_alnum after) as [|c t] eqn:Et; [discriminate|].
  inversion H; subst id. exists lit, rest.
  repeat split; auto; [now rewrite <- Hs|discriminate].
Qed.

Lemma match_here_complete : forall lit c rest,
  same_letters "event/" lit = true -> alnum c = true ->
  exists id, match_here (lit ++ String c rest) = Some id.
Proof.
  intros lit c rest Hlit Hc. unfold match_here.
  rewrite (match_literal_complete _ _ _ Hlit). simpl. rewrite Hc. eauto.
Qed.

Lemma regex_match_sound : forall s id,
  regex_match s = Some id ->
  exists pre lit rest,
    s = (pre ++ lit ++ id ++ rest)%string /\ same_letters "event/" lit = true
    /\ id <> EmptyString /\ all_alnum id = true /\ stops rest = true.
Proof.
  induction s as [|c s IH]; intros id H.
  - discriminate.
  - cbn [regex_match] in H.
    destruct (match_here (String c s)) as [id'|] eqn:E.
    + inversion H; subst id'. apply match_here_sound in E as (lit & rest & Hs & Hr).
      exists EmptyString, lit, rest. split; [exact Hs|exact Hr].
    + destruct (IH id H) as (pre & lit & rest & -> & Hr).
      exists (String c pre), lit, rest. split; [reflexivity|exact Hr].
Qed.

Lemma regex_match_complete : forall pre lit c rest,
  same_letters "event/" lit = true -> alnum c = true ->
  exists id, regex_match (pre ++ lit ++ String c rest) = Some id.
Proof.
  induction pre as [|x pre IH]; intros lit c rest Hlit Hc.
  - destruct (match_here_complete lit c rest Hlit Hc) as [id Hid].
    exists id. simpl append.
    destruct (lit ++ String c rest)%string eqn:E; cbn [regex_match];
      now rewrite Hid.
  - simpl append. cbn [regex_match].
    destruct (match_here _) as [id|]; [eauto|]. now apply IH.
Qed.

Lemma event_id_of_regex : forall url, event_id_of url = regex_match url.
Proof.
  intros url. unfold event_id_of.
  destruct (regex_match url) as [id|] eqn:E; [|reflexivity].
  apply regex_match_sound in E as (_ & _ & _ & _ & _ & Hne & _).
  destruct id; [congruence|reflexivity].
Qed.

Lemma event_id_of_None : forall url,
  event_id_of url = None <-> ~ has_event_segment url.
Proof.
  intros url. rewrite event_id_of_regex. split.
  - intros H (pre & lit & c & rest & -> & Hlit & Hc).
    destruct (regex_match_complete pre lit c rest Hlit Hc) as [id Hid]. congruence.
  - intros Hn. destruct (regex_match url) as [id|] eqn:E; [|reflexivity].
    exfalso. apply Hn.
    apply regex_match_sound in E as (pre & lit & rest & -> & Hlit & Hne & Ha & _).
    destruct id as [|c id]; [congruence|].
    simpl in Ha. apply andb_true_iff in Ha as [Hc _].
    exists pre, lit, c, (id ++ rest)%string. auto.
Qed.

Lemma match_literal_app : forall lit s t r,
  match_literal lit s = Some r -> match_literal lit (s ++ t) = Some (r ++ t)%string.
Proof.
  induction lit as [|a lit IH]; intros s t r H; simpl in *.
  - now inversion H.
  - destruct s as [|b s]; [discriminate|]. simpl.
    destruct (Ascii.eqb (canonicalize a) (canonicalize b)); [now apply IH|discriminate].
Qed.

Lemma match_literal_app_None : forall lit s t,
  (String.length lit <= String.length s)%nat ->
  match_literal lit s = None -> match_literal lit (s ++ t) = None.
Proof.
  induction lit as [|a lit IH]; intros s t Hlen H; simpl in *.
  - discriminate.
  - destruct s as [|b s]; simpl in *; [lia|].
    destruct (Ascii.eqb (canonicalize a) (canonicalize b)); [|reflexivity].
    apply IH; [lia|assumption].
Qed.

Lemma match_literal_length : forall lit s r,
  match_literal lit s = Some r ->
  String.length s = (String.length lit + String.length r)%nat.
Proof.
  induction lit as [|a lit IH]; intros s r H; simpl in *.
  - now inversion H.
  - destruct s as [|b s]; [discriminate|].
    destruct (Ascii.eqb (canonicalize a) (canonicalize b)); [|discriminate].
    simpl. f_equal. now apply IH.
Qed.

Lemma take_alnum_all : forall id rest,
  all_alnum id = true -> stops rest = true -> take_alnum (id ++ rest) = id.
Proof.
  induction id as [|c id IH]; intros rest Ha Hs; simpl in *.
  - destruct rest as [|c rest]; [reflexivity|]. simpl in *.
    now destruct (alnum c).
  - apply andb_true_iff in Ha as [Hc Ha]. rewrite Hc. f_equal. now apply IH.
Qed.

Lemma take_alnum_stuck : forall r t,
  r <> EmptyString -> take_alnum r = EmptyString -> take_alnum (r ++ t) = EmptyString.
Proof.
  intros [|c r] t Hne H; [congruence|]. simpl in *.
  destruct (alnum c); [discriminate|reflexivity].
Qed.

Lemma string_length_app : forall a b : string,
  String.length (a ++ b) = (String.length a + String.length b)%nat.
Proof. induction a as [|c a IH]; intros b; simpl; [reflexivity|now rewrite IH]. Qed.

(** No match starts in a string of more than six characters: none starts
    there when more text follows. *)
Lemma match_here_app_None : forall s t,
  (6 < String.length s)%nat -> match_here s = None -> match_here (s ++ t) = None.
Proof.
  intros s t Hlen H. unfold match_here in *.
  destruct (match_literal "event/" s) as [r|] eqn:El.
  - rewrite (match_literal_app _ _ t _ El).
    assert (Hr : r <> EmptyString).
    { apply match_literal_length in El. intros ->. simpl in El. lia. }
    destruct (take_alnum r) eqn:Et; [|discriminate].
    now rewrite (take_alnum_stuck r t Hr Et).
  - rewrite match_literal_app_None; [reflexivity|simpl; lia|assumption].
Qed.

Lemma regex_match_cons_None : forall c s,
  regex_match (String c s) = None ->
  match_here (String c s) = None /\ regex_match s = None.
Proof.
  intros c s H. cbn [regex_match] in H.
  destruct (match_here (String c s)); [discriminate|auto].
Qed.

Lemma regex_match_here : forall s id,
  match_here s = Some id -> regex_match s = Some id.
Proof. intros s id H. destruct s; cbn [regex_match]; now rewrite H. Qed.

(** A match that starts at the first character still starts there when
    more text follows. *)
Lemma match_here_app_Some : forall s t id,
  match_here s = Some id -> exists id', match_here (s ++ t) = Some id'.
Proof.
  intros s t id H. unfold match_here in *.
  destruct (match_literal "event/" s) as [r|] eqn:El; [|discriminate].
  rewrite (match_literal_app _ _ t _ El).
  destruct r as [|c r]; [discriminate|]. cbn [take_alnum append] in *.
  destruct (alnum c); [eauto|discriminate].
Qed.

(** A string of six characters or fewer has no match. *)
Lemma regex_match_short : forall s,
  (String.length s <= 6)%nat -> regex_match s = None.
Proof.
  assert (Hhere : forall s, (String.length s <= 6)%nat -> match_here s = None).
  { intros s Hlen. unfold match_here.
    destruct (match_literal "event/" s) as [r|] eqn:El; [|reflexivity].
    apply match_literal_length in El. simpl in El.
    destruct r as [|c r]; [reflexivity|simpl in El; lia]. }
  induction s as [|c s IH]; intros Hlen.
  - reflexivity.
  - cbn [regex_match]. rewrite (Hhere _ Hlen). apply IH. simpl in Hlen. lia.
Qed.

Lemma same_letters_length : forall a b,
  same_letters a b = true -> String.length a = String.length b.
Proof.
  induction a as [|x a IH]; intros [|y b] H; simpl in *; try discriminate;
    [reflexivity|].
  apply andb_true_iff in H as [_ H]. f_equal. now apply IH.
Qed.

(** The match is the leftmost one: no match starts before it. *)
Lemma regex_match_leftmost : forall s id,
  regex_match s = Some id ->
  exists pre lit rest,
    s = (pre ++ lit ++ id ++ rest)%string /\ same_letters "event/" lit = true
    /\ id <> EmptyString /\ all_alnum id = true /\ stops rest = true
    /\ regex_match (pre ++ lit) = None.
Proof.
  induction s as [|c s IH]; intros id H.
  - discriminate.
  - cbn [regex_match] in H.
    destruct (match_here (String c s)) as [id'|] eqn:E.
    + inversion H; subst id'.
      apply match_here_sound in E as (lit & rest & Hs & Hlit & Hr).
      exists EmptyString, lit, rest. split; [exact Hs|]. split; [exact Hlit|].
      destruct Hr as (Hne & Ha & Hst). repeat split; try assumption.
      cbn [append]. apply regex_match_short.
      rewrite <- (same_letters_length _ _ Hlit). simpl. lia.
    + destruct (IH id H) as (pre & lit & rest & Hs & Hlit & Hne & Ha & Hst & Hleft).
      exists (String c pre), lit, rest. split; [now rewrite Hs|].
      repeat split; try assumption.
      change (String c pre ++ lit)%string with (String c (pre ++ lit)).
      cbn [regex_match].
      destruct (match_here (String c (pre ++ lit))) as [x|] eqn:Ex; [|exact Hleft].
      exfalso.
      destruct (match_here_app_Some _ (id ++ rest) _ Ex) as [y Hy].
      change (String c (pre ++ lit) ++ id ++ rest)%string
        with (String c ((pre ++ lit) ++ id ++ rest)) in Hy.
      rewrite append_assoc, <- Hs in Hy. congruence.
Qed.

End EventId.

(** ** JSON values: payloads and results *)

Module Json.

#[local] Set Warnings "-register-all".

Inductive json :=
| JNull
| JBool (b : bool)
| JNum (n : Z)
| JStr (s : string)
| JArr (items : list json)
| JObj (fields : list (string * json)).

Fixpoint field (name : string) (fields : list (string * json)) : option json :=
  match fields with
  | [] => None
  | (n, v) :: rest => if String.eqb name n then Some v else field name rest
  end.

(** [j.name]; [None] stands for [undefined]. *)
Definition get (j : json) (name : string) : option json :=
  match j with
  | JObj fields => field name fields
  | _ => None
  end.

(** ToBoolean *)
Definition truthy (j : json) : bool :=
  match j with
  | JNull => false
  | JBool b => b
  | JNum n => negb (Z.eqb n 0)
  | JStr s => negb (String.eqb s "")
  | JArr _ | JObj _ => true
  end.

(** [j.length === 0] *)
Definition length_is_zero (j : json) : bool :=
  match j with
  | JArr items => match items with [] => true | _ :: _ => false end
  | JStr s => String.eqb s ""
  | JObj fields => match field "length" fields with Some (JNum 0) => true | _ => false end
  | _ => false
  end.

(** [json && typeof json === "object"] *)
Definition is_object (j : json) : bool :=
  match j with
  | JArr _ | JObj _ => true
  | _ => false
  end.

Fixpoint size (j : json) : nat :=
  match j with
  | JArr items => S (list_sum (map size items))
  | JObj fields => S (list_sum (map (fun nv => size (snd nv)) fields))
  | _ => 1
  end.

Lemma field_size : forall name fields v,
  field name fields = Some v ->
  size v <= list_sum (map (fun nv => size (snd nv)) fields).
Proof.
  intros name fields v. induction fields as [|[n x] rest IH]; simpl; [discriminate|].
  destruct (String.eqb name n).
  - intros [= ->]. lia.
  - intros H. apply IH in H. lia.
Qed.

(** An object is never one of its own properties. *)
Lemma get_neq : forall j name v, get j name = Some v -> v <> j.
Proof.
  intros j name v H Heq. subst v. destruct j; simpl in H; try discriminate.
  apply field_size in H. simpl in H. lia.
Qed.

End Json.

(** ** Network capture: [fetchNetworkData]

    The promise, the response listener and the timer, driven by what
    happens while the promise is pending: responses reaching the page and
    the timer firing. A response is handled in one step, at the moment its
    body has been read. *)

Module Capture.
Import Json.

(** [s.includes(sub)] *)
Fixpoint includes (s sub : string) : bool :=
  if String.prefix sub s then true
  else match s with
       | EmptyString => false
       | String _ s' => includes s' sub
       end.

(** A response: its URL, the resource type of its request, and what
    [response.json()] gives ([None] when it rejects). *)
Record Response := mkResponse
  { resp_url : string; resourceType : string; body : option json }.

Inductive Event :=
| Responded (r : Response)
| TimerFired.

Record State := mkState
  { attached : bool;                 (* the listener is on the page *)
    timerArmed : bool;               (* the timeout is pending *)
    settled : option (option json);  (* the promise's value, once resolved *)
    networkData : option json;
    offCalls : nat }.                (* calls of [page.off] *)

(** After [page.on("response", responseHandler)] and [setTimeout]. *)
Definition started : State := mkState true true None None 0.

(** [resolve(v)]: only the first call settles the promise. *)
Definition resolve (v : option json) (st : State) : State :=
  match settled st with
  | None => mkState (attached st) (timerArmed st) (Some v) (networkData st) (offCalls st)
  | Some _ => st
  end.

Definition responseHandler (eventId : string) (response : Response) (st : State)
  : State :=
  if includes (resp_url response) eventId && String.eqb (resourceType response) "xhr"
  then
    match body response with
    | Some json =>
        if is_object json
        then
          (* networkData = json; clearTimeout(timeoutId); resolve(networkData) *)
          resolve (Some json)
            (mkState (attached st) false (settled st) (Some json) (offCalls st))
        else st
    | None => st
    end
  else st.

(** The timer's callback: [page.off], then [resolve(null)]. *)
Definition on_timeout (st : State) : State :=
  resolve None
    (mkState false false (settled st) (networkData st) (S (offCalls st))).

Definition step (eventId : string) (st : State) (ev : Event) : State :=
  match ev with
  | Responded r => if attached st then responseHandler eventId r st else st
  | TimerFired => if timerArmed st then on_timeout st else st
  end.

Definition run (eventId : string) (events : list Event) : State :=
  fold_left (step eventId) events started.

(** The responses that arrive, then the 10 s timer (which fires unless it
    was cleared). *)
Definition fetchNetworkData (eventId : string) (responses : list Response) : State :=
  run eventId (map Responded responses ++ [TimerFired]).

Definition matching_response : Response :=
  mkResponse "https://services.example/api/1E00625CD153457B/offers" "xhr"
             (Some (JObj [("offers", JArr [])])).

(** The three situations of a capture. *)
Definition waiting (st : State) : Prop :=
  settled st = None /\ attached st = true /\ timerArmed st = true /\ offCalls st = 0.

Definition captured (st : State) : Prop :=
  (exists json, settled st = Some (Some json))
  /\ attached st = true /\ timerArmed st = false /\ offCalls st = 0.

Definition timed_out (st : State) : Prop :=
  settled st = Some None /\ attached st = false /\ timerArmed st = false
  /\ offCalls st = 1.

Definition situation (st : State) : Prop :=
  waiting st \/ captured st \/ timed_out st.

Lemma step_situation : forall eventId st ev,
  situation st -> situation (step eventId st ev).
Proof.
  intros eventId st ev [Hw|[Hc|Ht]].
  - destruct Hw as (Hs & Ha & Htm & Ho). destruct ev as [r|]; simpl.
    + rewrite Ha. unfold responseHandler.
      destruct (includes (resp_url r) eventId && String.eqb (resourceType r) "xhr");
        [|left; repeat split; assumption].
      destruct (body r) as [j|]; [|left; repeat split; assumption].
      destruct (is_object j); [|left; repeat split; assumption].
      right; left. unfold resolve. simpl. rewrite Hs. simpl.
      repeat split; try assumption. now exists j.
    + rewrite Htm. right; right. unfold on_timeout, resolve. simpl. rewrite Hs.
      simpl. repeat split. now rewrite Ho.
  - destruct Hc as ((j & Hs) & Ha & Htm & Ho).
    assert (Hcap : captured st) by (repeat split; eauto).
    destruct ev as [r|]; simpl.
    + rewrite Ha. unfold responseHandler.
      destruct (includes (resp_url r) eventId && String.eqb (resourceType r) "xhr");
        [|right; left; exact Hcap].
      destruct (body r) as [j'|]; [|right; left; exact Hcap].
      destruct (is_object j'); [|right; left; exact Hcap].
      right; left. unfold resolve, captured. simpl. rewrite Hs. simpl.
      split; [now exists j|]. repeat split; assumption.
    + rewrite Htm. right; left. exact Hcap.
  - destruct Ht as (Hs & Ha & Htm & Ho). destruct ev as [r|]; simpl.
    + rewrite Ha. right; right. repeat split; assumption.
    + rewrite Htm. right; right. repeat split; assumption.
Qed.

Lemma run_situation : forall eventId events st,
  situation st -> situation (fold_left (step eventId) events st).
Proof.
  intros eventId events. induction events as [|ev events IH]; intros st H; simpl.
  - assumption.
  - apply IH. now apply step_situation.
Qed.

Lemma started_waiting : waiting started.
Proof. repeat split. Qed.

Lemma fetchNetworkData_settles : forall eventId responses,
  settled (fetchNetworkData eventId responses) <> None.
Proof.
  intros eventId responses. unfold fetchNetworkData, run.
  rewrite fold_left_app. simpl.
  set (st := fold_left (step eventId) (map Responded responses) started).
  assert (Hst : situation st) by (apply run_situation; left; apply started_waiting).
  destruct Hst as [Hw|[Hc|Ht]].
  - destruct Hw as (Hs & Ha & Htm & Ho). rewrite Htm.
    unfold on_timeout, resolve. simpl. rewrite Hs. discriminate.
  - destruct Hc as ((j & Hs) & Ha & Htm & Ho). rewrite Htm. congruence.
  - destruct Ht as (Hs & Ha & Htm & Ho). rewrite Htm. congruence.
Qed.

(** One matching response: the payload is captured and the listener is
    still attached, with no call of [page.off]. *)
Lemma capture_leaves_listener :
  let st := fetchNetworkData "1E00625CD153457B" [matching_response] in
  settled st = Some (Some (JObj [("offers", JArr [])]))
  /\ offCalls st = 0 /\ attached st = true.
Proof. repeat split. Qed.

Lemma timeout_detaches_listener :
  let st := fetchNetworkData "1E00625CD153457B" [] in
  settled st = Some None /\ offCalls st = 1 /\ attached st = false.
Proof. repeat split. Qed.

(** C4 (what the code does): the capture always settles; when it resolves
    with a payload the timer was cleared and [page.off] was never called, so
    the listener stays attached; only a capture that times out detaches the
    listener, once. One matching response is enough to leave the listener
    on the page. *)
Theorem listener_detached_only_on_timeout :
  (forall (eventId : string) (responses : list Response),
      let st := fetchNetworkData eventId responses in
      ((exists json, settled st = Some (Some json))
       /\ offCalls st = 0 /\ attached st = true)
      \/ (settled st = Some None /\ offCalls st = 1 /\ attached st = false))
  /\ (let st := fetchNetworkData "1E00625CD153457B" [matching_response] in
      settled st = Some (Some (JObj [("offers", JArr [])]))
      /\ offCalls st = 0 /\ attached st = true).
Proof.
  split; [|exact capture_leaves_listener].
  intros eventId responses st.
  assert (Hst : situation st).
  { apply run_situation. left. apply started_waiting. }
  pose proof (fetchNetworkData_settles eventId responses) as Hset.
  fold st in Hset.
  destruct Hst as [Hw|[Hc|Ht]].
  - destruct Hw as (Hs & _). contradiction.
  - left. destruct Hc as (Hj & Ha & _ & Ho). auto.
  - right. destruct Ht as (Hs & Ha & _ & Ho). auto.
Qed.

End Capture.

(** ** The fetch pipeline: [fetchAvailableTickets]

    The browser, the page, the clock and the file system are an
    environment: every operation the code performs is recorded, and the
    environment answers it (a rejected call is an answer too). The module
    state ([networkDataCache], [browserCache]) is part of the world. A
    [while] loop is run with fuel, one unit per iteration; [OutOfFuel] is
    the loop that has not ended. *)

Module Fetch.
Import Json.

Inductive error :=
| Error (message : string)
| PageError (message : string)
| ReferenceError (identifier : string).

Inductive outcome (A : Type) :=
| Ret (a : A)
| Throw (e : error)
| OutOfFuel.
Arguments Ret {A} a.
Arguments Throw {A} e.
Arguments OutOfFuel {A}.

Inductive Action :=
| Now                                   (* Date.now(), new Date() *)
| Launch                                (* puppeteer.launch *)
| NewPage
| SetViewport (width height : Z)
| SetUserAgent (userAgent : string)
| Goto (url : string)
| Pages                                 (* browser.pages() *)
| ClosePage (index : nat)
| Sleep (ms : Z)
| Screenshot (name : string) (stamp : Z) (* name_<stamp>.png *)
| WaitForLoaded                         (* waitForFunction: no "Loading..." *)
| Query (selector : string)             (* page.$ *)
| ClickElement                          (* checkbox.click() *)
| InnerText                             (* document.body.innerText *)
| KeyPress (key : string)
| WaitForSelector (selector : string) (timeout : Z)
| Click (selector : string)
| PageUrl
| Reload
| Content
| EvalOuterHTML (selector : string)     (* page.$eval *)
| EvalSections
| AwaitResponses                        (* the responses while the capture waits *)
| EvalListings                          (* page.$$eval *)
| WriteFile (name : string) (stamp : Z) (content : json)
| Emit (event : string) (payload : json).

(** What the environment answers to one operation; each operation reads
    the fields that concern it. *)
Record Obs := mkObs
  { fails : option string;              (* the call rejects with this message *)
    now : Z;                            (* the clock, in ms *)
    found : bool;                       (* page.$ found an element *)
    text : string;                      (* innerText, page.url(), outerHTML *)
    others : nat;                       (* pages open besides this one *)
    sections : list json;
    responses : list Capture.Response;
    listings : list ChangeDetector.TicketListing }.

Record CacheEntry := mkEntry { data : json; timestamp : Z }.

Record World := mkWorld
  { env : nat -> Obs;
    trace : list Action;
    networkDataCache : JsMap.t string CacheEntry;
    browserCache : bool;                (* browserCache.has("default") *)
    listeners : nat }.                  (* response listeners left on pages *)

Definition F (A : Type) := World -> outcome A * World.

Definition ret {A} (a : A) : F A := fun w => (Ret a, w).
Definition throw {A} (e : error) : F A := fun w => (Throw e, w).
Definition bind {A B} (m : F A) (f : A -> F B) : F B :=
  fun w => match m w with
           | (Ret a, w') => f a w'
           | (Throw e, w') => (Throw e, w')
           | (OutOfFuel, w') => (OutOfFuel, w')
           end.

Declare Scope fetch_scope.
Delimit Scope fetch_scope with fetch.
Notation "x <- c1 ;; c2" := (bind c1 (fun x => c2))
  (at level 100, c1 at next level, right associativity) : fetch_scope.
Notation "c1 ;;; c2" := (bind c1 (fun _ => c2))
  (at level 100, right associativity) : fetch_scope.
Open Scope fetch_scope.

(** [try { m } catch (err) { handler err }] *)
Definition try_catch {A} (m : F A) (handler : error -> F A) : F A :=
  fun w => match m w with
           | (Throw e, w') => handler e w'
           | r => r
           end.

Fixpoint while_ {S} (fuel : nat) (cond : S -> bool) (body : S -> F S) (s : S) : F S :=
  if cond s then
    match fuel with
    | O => fun w => (OutOfFuel, w)
    | Datatypes.S fuel' => s' <- body s ;; while_ fuel' cond body s'
    end
  else ret s.

Definition record (a : Action) (w : World) : World :=
  mkWorld (env w) (trace w ++ [a]) (networkDataCache w) (browserCache w) (listeners w).

(** An operation: recorded, and answered by the environment. *)
Definition op (a : Action) : F Obs :=
  fun w => (Ret (env w (List.length (trace w))), record a w).

(** An awaited call that may reject. *)
Definition call (a : Action) : F Obs :=
  o <- op a ;;
  match fails o with
  | Some message => throw (PageError message)
  | None => ret o
  end.

Definition clock : F Z := o <- op Now ;; ret (now o).

Definition sleep (ms : Z) : F unit := op (Sleep ms) ;;; ret tt.

Definition decimal (n : nat) : string := NilEmpty.string_of_uint (Nat.to_uint n).

(** [captureScreenshot]: a failed screenshot is caught and gives [null]. *)
Definition captureScreenshot (name : string) : F (option string) :=
  timestamp <- clock ;;
  o <- op (Screenshot name timestamp) ;;
  ret (match fails o with None => Some name | Some _ => None end).

Definition getBrowser : F unit :=
  fun w =>
    if browserCache w then (Ret tt, w)
    else
      (call Launch ;;;
       fun w' => (Ret tt, mkWorld (env w') (trace w') (networkDataCache w') true
                                  (listeners w'))) w.

Fixpoint closePages (n : nat) : F unit :=
  match n with
  | O => ret tt
  | Datatypes.S n' => call (ClosePage n') ;;; closePages n'
  end.

Definition closeOtherTabs : F unit :=
  o <- call Pages ;;
  closePages (others o).

Definition maxRetries : nat := 3.
Definition maxAttempts : nat := 3.

(** *** Navigation with retry *)

Record NavState := mkNav { retryCount : nat; navigationSuccess : bool }.

Definition nav_cond (st : NavState) : bool :=
  (retryCount st <? maxRetries)%nat && negb (navigationSuccess st).

Definition nav_body (url : string) (st : NavState) : F NavState :=
  try_catch
    (call (Goto url) ;;;
     closeOtherTabs ;;;
     sleep 12000 ;;;
     ret (mkNav (retryCount st) true))
    (fun err =>
       let retryCount := Datatypes.S (retryCount st) in
       captureScreenshot ("navigation_failed_attempt_" ++ decimal retryCount) ;;;
       if (retryCount =? maxRetries)%nat then throw err
       else sleep 2000 ;;; ret (mkNav retryCount false)).

(** *** The bot check and block page loop *)

Record GateState := mkGate { attempt : nat; passed : bool }.

Definition gate_cond (st : GateState) : bool :=
  (attempt st <? maxAttempts)%nat && negb (passed st).

Definition checkboxSelector : string := "button.checkbox-container#captcha-checkbox".

Definition gate_body (st : GateState) : F GateState :=
  let attempt := Datatypes.S (attempt st) in
  call WaitForLoaded ;;;
  sleep 2000 ;;;
  captureScreenshot ("after_full_load_attempt_" ++ decimal attempt) ;;;
  checkbox <- call (Query checkboxSelector) ;;
  if found checkbox
  then
    call ClickElement ;;;
    sleep 4000 ;;;
    captureScreenshot ("after_bot_checkbox_click_attempt_" ++ decimal attempt) ;;;
    ret (mkGate attempt false)
  else
    pageText <- call InnerText ;;
    if Capture.includes (text pageText) "Your Browsing Activity Has Been Paused"
    then
      call (KeyPress "F5") ;;;
      sleep 4000 ;;;
      captureScreenshot ("after_block_reload_attempt_" ++ decimal attempt) ;;;
      ret (mkGate attempt false)
    else ret (mkGate attempt true).

Definition gate_loop (fuel : nat) : F GateState :=
  while_ fuel gate_cond gate_body (mkGate 0 false).

Definition failed_result (eventId : string) : json :=
  JObj [("eventId", JStr eventId); ("tickets", JArr []); ("stadiumData", JNull);
        ("networkData", JNull); ("status", JStr "failed");
        ("reason", JStr "Bot check or block page not passed")].

Definition bot_check_result (eventId : string) : json :=
  JObj [("eventId", JStr eventId); ("tickets", JArr []); ("stadiumData", JNull);
        ("networkData", JNull); ("botCheck", JBool true)].

Definition empty_result (eventId : string) : json :=
  JObj [("eventId", JStr eventId); ("tickets", JArr []); ("stadiumData", JNull);
        ("networkData", JNull)].

(** *** Page validation *)

Fixpoint upper (s : string) : string :=
  match s with
  | EmptyString => EmptyString
  | String c s' => String (EventId.canonicalize c) (upper s')
  end.

Definition includes_ci (s phrase : string) : bool :=
  Capture.includes (upper s) (upper phrase).

(** [/verify you are human|extra protections|recaptcha|your browsing
    activity has been unusual/i.test(content)] *)
Definition bot_phrases (content : string) : bool :=
  includes_ci content "verify you are human"
  || includes_ci content "extra protections"
  || includes_ci content "recaptcha"
  || includes_ci content "your browsing activity has been unusual".

(** [pageContent] is declared nowhere: no [let], [const], [var] or
    parameter of the function or of the module binds it. The file is an ES
    module, hence strict code: reading the identifier and assigning to it
    both throw a [ReferenceError]. *)
Definition unresolvable {A} (identifier : string) : F A :=
  throw (ReferenceError identifier).

Definition real_event_page (currentUrl eventId : string) : F bool :=
  if Capture.includes currentUrl ("/event/" ++ eventId)
  then pageContent <- unresolvable "pageContent" ;;
       ret (negb (bot_phrases pageContent))
  else ret false.

(** The first [if (!realEventPage)]: reload and look again. *)
Definition reload_and_recheck (eventId : string) : F bool :=
  captureScreenshot "not_real_event_first_load" ;;;
  call Reload ;;;
  sleep 7000 ;;;
  currentUrl <- op PageUrl ;;
  content <- call Content ;;
  (unresolvable "pageContent" : F unit) ;;;
  real_event_page (text currentUrl) eventId.

(** The second [if (!realEventPage)]: one more click on the checkbox;
    whatever it throws is caught. *)
Definition last_checkbox_click : F unit :=
  captureScreenshot "not_real_event_after_reload" ;;;
  try_catch
    (checkbox <- call (Query checkboxSelector) ;;
     if found checkbox
     then
       call ClickElement ;;;
       sleep 4000 ;;;
       captureScreenshot "after_bot_checkbox_click" ;;;
       call WaitForLoaded ;;;
       captureScreenshot "full_page_loaded_after_bot_check" ;;;
       ret tt
     else ret tt)
    (fun _ => ret tt).

Definition validate (eventId : string) : F bool :=
  currentUrl <- op PageUrl ;;
  realEventPage <- real_event_page (text currentUrl) eventId ;;
  realEventPage <-
    (if negb realEventPage then reload_and_recheck eventId else ret realEventPage) ;;
  (if negb realEventPage then last_checkbox_click else ret tt) ;;;
  ret realEventPage.

(** *** Data extraction *)

(** A selector [tag[attribute=value]] with its value in double quotes. *)
Definition attribute_selector (tag attribute value : string) : string :=
  tag ++ "[" ++ attribute ++ String (ascii_of_nat 34) value
      ++ String (ascii_of_nat 34) "]".

Definition stadium_selectors : list string :=
  [attribute_selector "svg" "data-bdd=" "venue-map";
   attribute_selector "div" "data-bdd=" "venue-map";
   attribute_selector "div" "class*=" "venue-map";
   attribute_selector "div" "class*=" "stadium"].

(** The loop over the selectors: the first one found gives the map. *)
Fixpoint find_stadium_map (selectors : list string) : F (option string) :=
  match selectors with
  | [] => ret None
  | selector :: rest =>
      r <- try_catch
             (call (WaitForSelector selector 5000) ;;;
              el <- call (EvalOuterHTML selector) ;;
              ret (Some (text el)))
             (fun _ => ret None) ;;
      match r with
      | Some stadiumImage => ret (Some stadiumImage)
      | None => find_stadium_map rest
      end
  end.

Definition json_of_option_string (s : option string) : json :=
  match s with Some x => JStr x | None => JNull end.

(** [extractStadiumData]: [{stadiumImage, layoutData}], or [null] when
    anything outside the selector loop fails. *)
Definition extractStadiumData : F (option json) :=
  try_catch
    (call (WaitForSelector "body" 30000) ;;;
     stadiumImage <- find_stadium_map stadium_selectors ;;
     layoutData <-
       (match stadiumImage with
        | Some html =>
            if negb (String.eqb html "")
            then o <- call EvalSections ;; ret (JArr (sections o))
            else ret JNull
        | None => ret JNull
        end) ;;
     ret (Some (JObj [("stadiumImage", json_of_option_string stadiumImage);
                      ("layoutData", layoutData)])))
    (fun _ => ret None).

Record StadiumState := mkStadium { stadiumRetry : nat; stadiumData : option json }.

Definition stadium_cond (st : StadiumState) : bool :=
  (stadiumRetry st <? maxRetries)%nat
  && match stadiumData st with None => true | Some _ => false end.

Definition stadium_body (st : StadiumState) : F StadiumState :=
  stadiumData <- extractStadiumData ;;
  match stadiumData with
  | None => sleep 2000 ;;; ret (mkStadium (Datatypes.S (stadiumRetry st)) None)
  | Some _ => ret (mkStadium (stadiumRetry st) stadiumData)
  end.

(** [fetchNetworkData] in the pipeline: the capture runs on the responses
    that arrive; a listener it leaves attached stays on the page. *)
Definition fetchNetworkData (eventId : string) : F (option json) :=
  o <- op AwaitResponses ;;
  let st := Capture.fetchNetworkData eventId (responses o) in
  fun w =>
    (Ret (match Capture.settled st with Some v => v | None => None end),
     mkWorld (env w) (trace w) (networkDataCache w) (browserCache w)
             (if Capture.attached st then Datatypes.S (listeners w) else listeners w)).

Definition json_of_listing (t : ChangeDetector.TicketListing) : json :=
  JObj [("sectionRow", JStr (ChangeDetector.sectionRow t));
        ("price", JStr (ChangeDetector.price t));
        ("type", JStr (ChangeDetector.type t));
        ("timestamp", JStr (ChangeDetector.timestamp t))].

Definition json_of_option (j : option json) : json :=
  match j with Some x => x | None => JNull end.

(** [!stadiumData || !stadiumData.layoutData ||
     stadiumData.layoutData.length === 0 || !tickets || tickets.length === 0] *)
Definition nothing_found (stadiumData : option json) (tickets : list json) : bool :=
  match stadiumData with
  | None => true
  | Some sd =>
      match get sd "layoutData" with
      | Some layoutData => negb (truthy layoutData) || length_is_zero layoutData
      | None => true
      end
  end
  || match tickets with [] => true | _ :: _ => false end.

Definition cache_put (eventId : string) (entry : CacheEntry) : F unit :=
  fun w =>
    (Ret tt,
     mkWorld (env w) (trace w)
             (JsMap.set String.eqb eventId entry (networkDataCache w))
             (browserCache w) (listeners w)).

(** From the empty-data check to the end of the function. *)
Definition publish (eventId : string) (tickets : list json)
    (stadiumData networkData : option json) : F json :=
  if nothing_found stadiumData tickets then ret (empty_result eventId)
  else
    (match networkData with
     | Some nd => t <- clock ;; cache_put eventId (mkEntry nd t)
     | None => ret tt
     end) ;;;
    let result := [("eventId", JStr eventId); ("tickets", JArr tickets);
                   ("stadiumData", json_of_option stadiumData);
                   ("networkData", json_of_option networkData)] in
    timestamp <- clock ;;
    call (WriteFile ("./screenshots/ticketmaster_" ++ eventId) timestamp (JObj result)) ;;;
    t <- clock ;;
    let result := JObj (result ++ [("timestamp", JNum t)]) in
    call (Emit "ticketUpdate" result) ;;;
    call (Goto "https://api.ipify.org") ;;;
    call InnerText ;;;
    ret result.

Definition extract_and_publish (fuel : nat) (eventId : string) : F json :=
  st <- while_ fuel stadium_cond stadium_body (mkStadium 0 None) ;;
  networkData <- fetchNetworkData eventId ;;
  o <- call EvalListings ;;
  let tickets := map json_of_listing (listings o) in
  publish eventId tickets (stadiumData st) networkData.

(** *** The snapshot cache and the whole function *)

(** The check at the top: a hit is an entry younger than 5000 ms. *)
Definition cache_lookup (eventId : string) : F (option json) :=
  fun w =>
    match JsMap.get String.eqb eventId (networkDataCache w) with
    | Some cachedData =>
        (t <- clock ;;
         if (t - timestamp cachedData <? 5000)%Z
         then ret (Some (data cachedData))
         else ret None) w
    | None => (Ret None, w)
    end.

Definition acceptSelector : string :=
  attribute_selector "button" "data-bdd=" "accept-modal-accept-button".

Definition userAgent : string :=
  "Mozilla/5.0 (Windows NT 10.0; Win64; x64) AppleWebKit/537.36 (KHTML, like Gecko) Chrome/120.0.0.0 Safari/537.36".

(** The function after the cache check. The [try] block rethrows what it
    catches and its [finally] only logs, so errors pass through as they
    are. *)
Definition fetch_event (fuel : nat) (url eventId : string) : F json :=
  getBrowser ;;;
  call NewPage ;;;
  call (SetViewport 860 480) ;;;
  call (SetUserAgent userAgent) ;;;
  while_ fuel nav_cond (nav_body url) (mkNav 0 false) ;;;
  gate <- gate_loop fuel ;;
  if negb (passed gate)
  then
    captureScreenshot "final_failed_status" ;;;
    ret (failed_result eventId)
  else
    call (WaitForSelector acceptSelector 120000) ;;;
    captureScreenshot "accept_and_continue_modal" ;;;
    call (Click acceptSelector) ;;;
    call WaitForLoaded ;;;
    captureScreenshot "full_page_loaded_after_accept" ;;;
    realEventPage <- validate eventId ;;
    if negb realEventPage
    then ret (bot_check_result eventId)
    else extract_and_publish fuel eventId.

Definition invalid_url : error :=
  Error "Invalid Ticketmaster URL: Could not extract event ID".

Definition fetchAvailableTickets (fuel : nat) (url : string) : F json :=
  match EventId.event_id_of url with
  | None => throw invalid_url
  | Some eventId =>
      cached <- cache_lookup eventId ;;
      match cached with
      | Some cachedData => ret cachedData
      | None => fetch_event fuel url eventId
      end
  end.

(** *** Sample environments *)

(** Every call succeeds, no checkbox, no block page, empty page text. *)
Definition calm : Obs := mkObs None 0 false "" 0 [] [] [].

(** The loading indicator never goes away: the wait rejects. *)
Definition loading_forever : Obs :=
  mkObs (Some "TimeoutError: Waiting failed: 120000ms exceeded") 0 false
        "Loading..." 0 [] [] [].

(** The captcha checkbox is there at every look. *)
Definition captcha_always : Obs := mkObs None 0 true "" 0 [] [] [].

(** The page stays on the event URL. *)
Definition on_event_page : Obs := mkObs None 0 false EventId.sample_url 0 [] [] [].

Definition world_of (answers : nat -> Obs) : World := mkWorld answers [] [] false 0.

(** *** What a computation can return *)

(** Every value [m] returns satisfies [P]. *)
Definition returns {A} (m : F A) (P : A -> Prop) : Prop :=
  forall w a w', m w = (Ret a, w') -> P a.

Lemma returns_ret : forall A (a : A) (P : A -> Prop), P a -> returns (ret a) P.
Proof. intros A a P H w b w' [= <- _]. exact H. Qed.

Lemma returns_throw : forall A e (P : A -> Prop), returns (throw e) P.
Proof. intros A e P w a w' H. discriminate. Qed.

Lemma returns_bind : forall A B (m : F A) (f : A -> F B) (P : B -> Prop),
  (forall a, returns (f a) P) -> returns (bind m f) P.
Proof.
  intros A B m f P Hf w b w' H. unfold bind in H.
  destruct (m w) as [[a| |] w1]; try discriminate.
  now apply (Hf a w1 b w').
Qed.

Lemma returns_bind_never : forall A B (m : F A) (f : A -> F B) (P : B -> Prop),
  returns m (fun _ => False) -> returns (bind m f) P.
Proof.
  intros A B m f P Hm w b w' H. unfold bind in H.
  destruct (m w) as [[a| |] w1] eqn:E; try discriminate.
  destruct (Hm w a w1 E).
Qed.

Lemma returns_unresolvable : forall A x (P : A -> Prop), returns (unresolvable x) P.
Proof. intros. apply returns_throw. Qed.

Lemma real_event_page_false : forall currentUrl eventId,
  returns (real_event_page currentUrl eventId) (fun b => b = false).
Proof.
  intros currentUrl eventId. unfold real_event_page.
  destruct (Capture.includes currentUrl _).
  - apply returns_bind_never, returns_unresolvable.
  - now apply returns_ret.
Qed.

Lemma returns_bind_post : forall A B (m : F A) (f : A -> F B)
    (Q : A -> Prop) (P : B -> Prop),
  returns m Q -> (forall a, Q a -> returns (f a) P) -> returns (bind m f) P.
Proof.
  intros A B m f Q P Hm Hf w b w' H. unfold bind in H.
  destruct (m w) as [[a| |] w1] eqn:E; try discriminate.
  exact (Hf a (Hm w a w1 E) w1 b w' H).
Qed.

Lemma reload_and_recheck_never_returns : forall eventId,
  returns (reload_and_recheck eventId) (fun _ => False).
Proof.
  intros eventId. unfold reload_and_recheck.
  do 3 (apply returns_bind; intros _).
  apply returns_bind; intros currentUrl.
  apply returns_bind; intros content.
  apply returns_bind_never, returns_unresolvable.
Qed.

(** The validation never returns: it ends in the [ReferenceError], or in
    the rejection of the reload or of [page.content()] before it. *)
Lemma validate_never_returns : forall eventId,
  returns (validate eventId) (fun _ => False).
Proof.
  intros eventId. unfold validate.
  apply returns_bind; intros currentUrl.
  eapply returns_bind_post; [apply real_event_page_false|].
  intros realEventPage ->. cbn [negb].
  apply returns_bind_never, reload_and_recheck_never_returns.
Qed.

(** Every normal return of the function after the cache check is the
    "failed" payload of the bot gate. *)
Lemma fetch_event_returns : forall fuel url eventId,
  returns (fetch_event fuel url eventId) (fun r => r = failed_result eventId).
Proof.
  intros fuel url eventId. unfold fetch_event.
  do 5 (apply returns_bind; intros _).
  apply returns_bind; intros gate.
  destruct (negb (passed gate)).
  - apply returns_bind; intros _. now apply returns_ret.
  - do 5 (apply returns_bind; intros _).
    apply returns_bind_never, validate_never_returns.
Qed.

(** *** The cache check *)

Lemma cache_lookup_hit : forall eventId entry w,
  JsMap.get String.eqb eventId (networkDataCache w) = Some entry ->
  (now (env w (List.length (trace w))) - timestamp entry < 5000)%Z ->
  cache_lookup eventId w = (Ret (Some (data entry)), record Now w).
Proof.
  intros eventId entry w Hget Hage. unfold cache_lookup. rewrite Hget.
  unfold clock, bind, op, ret. simpl.
  destruct (Z.ltb_spec (now (env w (List.length (trace w))) - timestamp entry) 5000);
    [reflexivity|lia].
Qed.

Lemma cache_lookup_miss : forall eventId w,
  JsMap.get String.eqb eventId (networkDataCache w) = None ->
  cache_lookup eventId w = (Ret None, w).
Proof. intros eventId w H. unfold cache_lookup. now rewrite H. Qed.

(** A call with a cache entry younger than 5000 ms reads the clock, does
    nothing else, and returns the entry's [data]. *)
Lemma fetch_cache_hit : forall fuel url eventId entry w,
  EventId.event_id_of url = Some eventId ->
  JsMap.get String.eqb eventId (networkDataCache w) = Some entry ->
  (now (env w (List.length (trace w))) - timestamp entry < 5000)%Z ->
  fetchAvailableTickets fuel url w = (Ret (data entry), record Now w).
Proof.
  intros fuel url eventId entry w Hid Hget Hage. unfold fetchAvailableTickets.
  rewrite Hid. unfold bind at 1.
  now rewrite (cache_lookup_hit eventId entry w Hget Hage).
Qed.

(** *** The end of a cycle that found data *)

Ltac run_calls :=
  repeat match goal with
         | H : context [fails ?o] |- _ =>
             destruct (fails o); cbn in H; try discriminate
         end.

Lemma publish_caches_payload : forall eventId tickets stadiumData nd w r w1,
  nothing_found stadiumData tickets = false ->
  publish eventId tickets stadiumData (Some nd) w = (Ret r, w1) ->
  JsMap.get String.eqb eventId (networkDataCache w1)
    = Some (mkEntry nd (now (env w (List.length (trace w)))))
  /\ get r "networkData" = Some nd
  /\ List.length (trace w1) = List.length (trace w) + 7.
Proof.
  intros eventId tickets stadiumData nd w r w1 Hfound H.
  unfold publish in H. rewrite Hfound in H.
  unfold bind, clock, call, cache_put, op, ret, throw, record in H. cbn in H.
  run_calls. inversion H; subst; clear H. cbn.
  split; [apply (JsMap.get_set_same String.eqb String.eqb_spec)|].
  split; [reflexivity|].
  rewrite !length_app. simpl. lia.
Qed.

(** *** The bot gate loop ends *)

Lemma while_more_fuel : forall S (cond : S -> bool) (body : S -> F S) fuel k s w,
  fst (while_ fuel cond body s w) <> OutOfFuel ->
  while_ (fuel + k) cond body s w = while_ fuel cond body s w.
Proof.
  intros S cond body fuel k. induction fuel as [|fuel IH]; intros s w H; simpl in *.
  - destruct (cond s) eqn:E; [now elim H|].
    destruct k; simpl; now rewrite E.
  - destruct (cond s); [|reflexivity].
    unfold bind in *. destruct (body s w) as [[s'| |] w1]; try reflexivity.
    now apply IH.
Qed.

Ltac run_gate :=
  repeat match goal with
         | |- context [fails ?o] => destruct (fails o); cbn
         | |- context [if found ?o then _ else _] => destruct (found o); cbn
         | |- context [if Capture.includes ?a ?b then _ else _] =>
             destruct (Capture.includes a b); cbn
         end.

(** One iteration: [attempt] goes up by one, or a page call rejects. *)
Lemma gate_body_step : forall st w,
  match fst (gate_body st w) with
  | Ret st' => attempt st' = Datatypes.S (attempt st)
  | Throw e => exists message, e = PageError message
  | OutOfFuel => False
  end.
Proof.
  intros st w.
  unfold gate_body, bind, call, sleep, captureScreenshot, clock, op, ret, throw.
  cbn. run_gate; eauto.
Qed.

Definition gate_ended (r : outcome GateState) : Prop :=
  match r with
  | Ret st =>
      (attempt st <= maxAttempts)%nat
      /\ (passed st = true \/ (passed st = false /\ attempt st = maxAttempts))
  | Throw e => exists message, e = PageError message
  | OutOfFuel => False
  end.

Lemma gate_while_ends : forall fuel st w,
  (attempt st <= maxAttempts)%nat ->
  (maxAttempts <= attempt st + fuel)%nat ->
  gate_ended (fst (while_ fuel gate_cond gate_body st w)).
Proof.
  induction fuel as [|fuel IH]; intros st w Hle Hfuel; simpl.
  - unfold gate_cond.
    destruct (Nat.ltb_spec (attempt st) maxAttempts); [lia|]. simpl.
    split; [assumption|]. destruct (passed st); [now left|right; split; [reflexivity|lia]].
  - unfold gate_cond at 1.
    destruct (Nat.ltb_spec (attempt st) maxAttempts) as [Hlt|Hge]; simpl.
    + destruct (passed st) eqn:Ep; simpl.
      * split; [assumption|now left].
      * unfold bind. pose proof (gate_body_step st w) as Hstep.
        destruct (gate_body st w) as [[st'| |] w1]; simpl in *.
        -- apply IH; lia.
        -- exact Hstep.
        -- exact Hstep.
    + split; [assumption|].
      destruct (passed st); [now left|right; split; [reflexivity|lia]].
Qed.

Lemma gate_loop_ends : forall w, gate_ended (fst (gate_loop 3 w)).
Proof.
  intros w. unfold gate_loop. apply gate_while_ends; simpl; unfold maxAttempts; lia.
Qed.

Lemma gate_loop_fuel : forall fuel w,
  (3 <= fuel)%nat -> gate_loop fuel w = gate_loop 3 w.
Proof.
  intros fuel w H. unfold gate_loop.
  replace fuel with (3 + (fuel - 3)) by lia.
  apply while_more_fuel.
  pose proof (gate_loop_ends w) as He. unfold gate_loop in He.
  intros Hout. rewrite Hout in He. exact He.
Qed.

(** *** Three units of fuel are enough for every loop *)

(** [m] never stops for lack of fuel. *)
Definition ends {A} (m : F A) : Prop := forall w, fst (m w) <> OutOfFuel.

Lemma ends_ret : forall A (a : A), ends (ret a).
Proof. intros A a w. discriminate. Qed.

Lemma ends_throw : forall A e, ends (@throw A e).
Proof. intros A e w. discriminate. Qed.

Lemma ends_bind : forall A B (m : F A) (f : A -> F B),
  ends m -> (forall a, ends (f a)) -> ends (bind m f).
Proof.
  intros A B m f Hm Hf w. unfold bind. specialize (Hm w).
  destruct (m w) as [[a| |] w1]; simpl in *; try discriminate; [apply Hf|congruence].
Qed.

Lemma ends_try_catch : forall A (m : F A) handler,
  ends m -> (forall e, ends (handler e)) -> ends (try_catch m handler).
Proof.
  intros A m handler Hm Hh w. unfold try_catch. specialize (Hm w).
  destruct (m w) as [[a| |] w1]; simpl in *; try discriminate; [apply Hh|congruence].
Qed.

Lemma ends_op : forall a, ends (op a).
Proof. intros a w. discriminate. Qed.

Lemma ends_call : forall a, ends (call a).
Proof.
  intros a. unfold call. apply ends_bind; [apply ends_op|].
  intros o. destruct (fails o); [apply ends_throw|apply ends_ret].
Qed.

Lemma ends_clock : ends clock.
Proof. unfold clock. apply ends_bind; [apply ends_op|intros; apply ends_ret]. Qed.

Lemma ends_sleep : forall ms, ends (sleep ms).
Proof. intros. unfold sleep. apply ends_bind; [apply ends_op|intros; apply ends_ret]. Qed.

Lemma ends_captureScreenshot : forall name, ends (captureScreenshot name).
Proof.
  intros. unfold captureScreenshot.
  apply ends_bind; [apply ends_clock|intros timestamp].
  apply ends_bind; [apply ends_op|intros; apply ends_ret].
Qed.

Ltac ends_steps :=
  repeat first
    [ apply ends_ret | apply ends_throw | apply ends_call | apply ends_op
    | apply ends_clock | apply ends_sleep | apply ends_captureScreenshot
    | apply ends_bind; [|intros ?]
    | apply ends_try_catch; [|intros ?]
    | match goal with
      | |- ends (if ?b then _ else _) => destruct b
      | |- ends (match ?x with Some _ => _ | None => _ end) => destruct x
      end ].

Lemma ends_returns_while : forall S (cond : S -> bool) (body : S -> F S)
    (measure : S -> nat),
  (forall s, cond s = true -> (0 < measure s)%nat) ->
  (forall s, ends (body s)) ->
  (forall s, cond s = true ->
             returns (body s) (fun s' => (measure s' < measure s)%nat)) ->
  forall fuel s, (measure s <= fuel)%nat -> ends (while_ fuel cond body s).
Proof.
  intros S cond body measure Hpos Hends Hdec.
  induction fuel as [|fuel IH]; intros s Hm w; simpl.
  - destruct (cond s) eqn:E; [|discriminate].
    specialize (Hpos s E). lia.
  - destruct (cond s) eqn:E; [|discriminate].
    unfold bind. pose proof (Hends s w) as He. pose proof (Hdec s E w) as Hd.
    destruct (body s w) as [[s'| |] w1]; simpl in *; try discriminate; [|congruence].
    apply IH. specialize (Hd s' w1 eq_refl). lia.
Qed.

Lemma returns_try_catch : forall A (m : F A) handler (P : A -> Prop),
  returns m P -> (forall e, returns (handler e) P) -> returns (try_catch m handler) P.
Proof.
  intros A m handler P Hm Hh w a w' H. unfold try_catch in H.
  destruct (m w) as [[x| |] w1] eqn:E; try discriminate.
  - inversion H; subst. exact (Hm w a w' E).
  - exact (Hh e w1 a w' H).
Qed.

Lemma ends_closePages : forall n, ends (closePages n).
Proof. induction n as [|n IH]; simpl; ends_steps. exact IH. Qed.

Lemma ends_nav_body : forall url st, ends (nav_body url st).
Proof.
  intros url st. unfold nav_body, closeOtherTabs. ends_steps.
  apply ends_closePages.
Qed.

Definition nav_measure (st : NavState) : nat :=
  if navigationSuccess st then 0 else maxRetries - retryCount st.

Lemma nav_body_decreases : forall url st,
  nav_cond st = true ->
  returns (nav_body url st) (fun st' => (nav_measure st' < nav_measure st)%nat).
Proof.
  intros url st Hc. unfold nav_cond in Hc. apply andb_true_iff in Hc as [Hlt Hns].
  apply Nat.ltb_lt in Hlt. apply negb_true_iff in Hns.
  unfold nav_body. apply returns_try_catch.
  - do 3 (apply returns_bind; intros _). apply returns_ret.
    unfold nav_measure, maxRetries in *. cbn [navigationSuccess retryCount]. rewrite Hns. lia.
  - intros err. apply returns_bind; intros _.
    destruct (Nat.eqb_spec (Datatypes.S (retryCount st)) maxRetries);
      [apply returns_throw|].
    apply returns_bind; intros _. apply returns_ret.
    unfold nav_measure, maxRetries in *. cbn [navigationSuccess retryCount]. rewrite Hns. lia.
Qed.

Lemma ends_nav_loop : forall fuel url,
  (3 <= fuel)%nat -> ends (while_ fuel nav_cond (nav_body url) (mkNav 0 false)).
Proof.
  intros fuel url Hfuel.
  apply (ends_returns_while _ _ _ nav_measure).
  - intros s Hc. unfold nav_cond in Hc. apply andb_true_iff in Hc as [Hlt Hns].
    apply Nat.ltb_lt in Hlt. apply negb_true_iff in Hns.
    unfold nav_measure, maxRetries in *. rewrite Hns. lia.
  - apply ends_nav_body.
  - apply nav_body_decreases.
  - unfold nav_measure, maxRetries. simpl. lia.
Qed.

Lemma ends_find_stadium_map : forall selectors, ends (find_stadium_map selectors).
Proof. induction selectors as [|x rest IH]; simpl; ends_steps. exact IH. Qed.

Lemma ends_extractStadiumData : ends extractStadiumData.
Proof.
  unfold extractStadiumData.
  apply ends_try_catch; [|intros; apply ends_ret].
  apply ends_bind; [apply ends_call|intros _].
  apply ends_bind; [apply ends_find_stadium_map|intros stadiumImage].
  apply ends_bind; [|intros; apply ends_ret].
  destruct stadiumImage as [html|]; [|apply ends_ret].
  destruct (negb (String.eqb html "")); ends_steps.
Qed.

Lemma ends_stadium_body : forall st, ends (stadium_body st).
Proof.
  intros st. unfold stadium_body.
  apply ends_bind; [apply ends_extractStadiumData|intros sd].
  destruct sd; ends_steps.
Qed.

Definition stadium_measure (st : StadiumState) : nat :=
  match stadiumData st with
  | Some _ => 0
  | None => maxRetries - stadiumRetry st
  end.

Lemma stadium_body_decreases : forall st,
  stadium_cond st = true ->
  returns (stadium_body st) (fun st' => (stadium_measure st' < stadium_measure st)%nat).
Proof.
  intros st Hc. unfold stadium_cond in Hc. apply andb_true_iff in Hc as [Hlt Hn].
  apply Nat.ltb_lt in Hlt.
  destruct (stadiumData st) as [x|] eqn:Ed; [discriminate|].
  unfold stadium_body. apply returns_bind; intros sd. destruct sd as [j|].
  - apply returns_ret. unfold stadium_measure, maxRetries in *. cbn [stadiumData stadiumRetry]. rewrite ?Ed. lia.
  - apply returns_bind; intros _. apply returns_ret.
    unfold stadium_measure, maxRetries in *. cbn [stadiumData stadiumRetry]. rewrite ?Ed. lia.
Qed.

Lemma ends_stadium_loop : forall fuel,
  (3 <= fuel)%nat -> ends (while_ fuel stadium_cond stadium_body (mkStadium 0 None)).
Proof.
  intros fuel Hfuel.
  apply (ends_returns_while _ _ _ stadium_measure).
  - intros s Hc. unfold stadium_cond in Hc. apply andb_true_iff in Hc as [Hlt Hn].
    apply Nat.ltb_lt in Hlt. unfold stadium_measure, maxRetries in *.
    destruct (stadiumData s); [discriminate|lia].
  - apply ends_stadium_body.
  - apply stadium_body_decreases.
  - unfold stadium_measure, maxRetries. simpl. lia.
Qed.

Lemma ends_gate_loop : forall fuel, (3 <= fuel)%nat -> ends (gate_loop fuel).
Proof.
  intros fuel Hfuel w Hout. rewrite (gate_loop_fuel fuel w Hfuel) in Hout.
  pose proof (gate_loop_ends w) as He. now rewrite Hout in He.
Qed.

Lemma ends_publish : forall eventId tickets stadiumData networkData,
  ends (publish eventId tickets stadiumData networkData).
Proof.
  intros. unfold publish. destruct (nothing_found _ _); [apply ends_ret|].
  apply ends_bind.
  - destruct networkData; [|apply ends_ret].
    apply ends_bind; [apply ends_clock|]. intros t w. discriminate.
  - intros _. ends_steps.
Qed.

Lemma ends_extract_and_publish : forall fuel eventId,
  (3 <= fuel)%nat -> ends (extract_and_publish fuel eventId).
Proof.
  intros fuel eventId Hfuel. unfold extract_and_publish.
  apply ends_bind; [now apply ends_stadium_loop|intros st].
  apply ends_bind.
  - unfold fetchNetworkData. apply ends_bind; [apply ends_op|].
    intros o w. discriminate.
  - intros nd. apply ends_bind; [apply ends_call|intros o]. apply ends_publish.
Qed.

Lemma ends_validate : forall eventId, ends (validate eventId).
Proof.
  intros eventId.
  assert (Hreal : forall u, ends (real_event_page u eventId)).
  { intros u. unfold real_event_page, unresolvable. ends_steps. }
  unfold validate.
  apply ends_bind; [apply ends_op|intros currentUrl].
  apply ends_bind; [apply Hreal|intros b].
  apply ends_bind.
  - destruct (negb b); [|apply ends_ret].
    unfold reload_and_recheck, unresolvable. ends_steps; apply Hreal.
  - intros b'. apply ends_bind; [|intros; apply ends_ret].
    destruct (negb b'); [|apply ends_ret].
    unfold last_checkbox_click. ends_steps.
Qed.

Lemma ends_getBrowser : ends getBrowser.
Proof.
  intros w. unfold getBrowser. destruct (browserCache w); [discriminate|].
  unfold bind, call, op, bind, ret, throw. cbn.
  destruct (fails _); discriminate.
Qed.

Lemma ends_fetch_event : forall fuel url eventId,
  (3 <= fuel)%nat -> ends (fetch_event fuel url eventId).
Proof.
  intros fuel url eventId Hfuel. unfold fetch_event.
  apply ends_bind; [apply ends_getBrowser|intros _].
  do 3 (apply ends_bind; [apply ends_call|intros _]).
  apply ends_bind; [now apply ends_nav_loop|intros _].
  apply ends_bind; [now apply ends_gate_loop|intros gate].
  destruct (negb (passed gate)); [ends_steps|].
  apply ends_bind; [apply ends_call|intros _].
  apply ends_bind; [apply ends_captureScreenshot|intros _].
  apply ends_bind; [apply ends_call|intros _].
  apply ends_bind; [apply ends_call|intros _].
  apply ends_bind; [apply ends_captureScreenshot|intros _].
  apply ends_bind; [apply ends_validate|intros b].
  destruct (negb b); [apply ends_ret|now apply ends_extract_and_publish].
Qed.

(** With three units of fuel or more the function always ends: it returns
    or it throws. *)
Lemma fetchAvailableTickets_ends : forall fuel url,
  (3 <= fuel)%nat -> ends (fetchAvailableTickets fuel url).
Proof.
  intros fuel url Hfuel. unfold fetchAvailableTickets.
  destruct (EventId.event_id_of url) as [eventId|]; [|apply ends_throw].
  apply ends_bind.
  - intros w. unfold cache_lookup.
    destruct (JsMap.get String.eqb eventId (networkDataCache w)); [|discriminate].
    unfold bind, clock, op, ret. cbn. destruct (_ <? _)%Z; discriminate.
  - intros cached. destruct cached; [apply ends_ret|now apply ends_fetch_event].
Qed.

(** C6 (amended): whatever the page shows and whichever calls reject, the
    bot gate loop ends within three iterations: three units of fuel, one per
    iteration, are enough and more fuel changes nothing; it ends passed with
    [attempt] at most 3, or not passed after exactly 3 attempts, or with the
    rejection of a page call (the wait for the loading indicator, a click,
    the text read, the key press), which the function rethrows. *)
Theorem gate_loop_ends_within_three :
  forall (fuel : nat) (w : World),
    (3 <= fuel)%nat ->
    gate_loop fuel w = gate_loop 3 w
    /\ match fst (gate_loop fuel w) with
       | Ret st =>
           (attempt st <= 3)%nat
           /\ (passed st = true \/ (passed st = false /\ attempt st = 3))
       | Throw e => exists message, e = PageError message
       | OutOfFuel => False
       end.
Proof.
  intros fuel w Hfuel. split; [now apply gate_loop_fuel|].
  rewrite (gate_loop_fuel fuel w Hfuel). exact (gate_loop_ends w).
Qed.

Lemma gate_loop_ends_within_three_witness :
  gate_loop 5 (world_of (fun _ => captcha_always))
    = gate_loop 3 (world_of (fun _ => captcha_always))
  /\ match fst (gate_loop 5 (world_of (fun _ => captcha_always))) with
     | Ret st =>
         (attempt st <= 3)%nat
         /\ (passed st = true \/ (passed st = false /\ attempt st = 3))
     | Throw e => exists message, e = PageError message
     | OutOfFuel => False
     end.
Proof.
  apply (gate_loop_ends_within_three 5 (world_of (fun _ => captcha_always))). lia.
Defined.

(** C6 as stated fails: with a loading indicator that never goes away the
    first wait rejects, and the loop ends neither passed nor failed: the
    error leaves the function. *)
Lemma gate_loop_loading_forever :
  fst (gate_loop 3 (world_of (fun _ => loading_forever)))
    = Throw (PageError "TimeoutError: Waiting failed: 120000ms exceeded")
  /\ (forall st, fst (gate_loop 3 (world_of (fun _ => loading_forever))) <> Ret st)
  /\ fst (fetchAvailableTickets 3 EventId.sample_url
            (world_of (fun n => if (n <? 7)%nat then calm else loading_forever)))
     = Throw (PageError "TimeoutError: Waiting failed: 120000ms exceeded").
Proof.
  split; [reflexivity|]. split; [|reflexivity].
  intros st H. discriminate.
Qed.

(** A page that was redirected away from the event. *)
Definition redirected : Obs :=
  mkObs None 0 false "https://www.ticketmaster.com/verify" 0 [] [] [].

(** C3 (what the code does): the bot gate that is not passed after three
    attempts gives the "failed" payload, but no call returns the
    [botCheck] payload: once the gate and the consent step are passed, the
    validation ends in the [ReferenceError] for [pageContent] (or in a
    rejected reload), so without a cache hit a call ends, and the only
    value it returns is the "failed" payload. *)
Theorem validation_failure_throws :
  (forall fuel url w, (3 <= fuel)%nat ->
      fst (fetchAvailableTickets fuel url w) <> OutOfFuel)
  /\ (forall fuel url eventId w r w',
      EventId.event_id_of url = Some eventId ->
      JsMap.get String.eqb eventId (networkDataCache w) = None ->
      fetchAvailableTickets fuel url w = (Ret r, w') ->
      r = failed_result eventId)
  /\ fst (fetchAvailableTickets 3 EventId.sample_url (world_of (fun _ => captcha_always)))
     = Ret (failed_result "1E00625CD153457B")
  /\ fst (fetchAvailableTickets 3 EventId.sample_url (world_of (fun _ => redirected)))
     = Throw (ReferenceError "pageContent")
  /\ fst (fetchAvailableTickets 3 EventId.sample_url (world_of (fun _ => on_event_page)))
     = Throw (ReferenceError "pageContent").
Proof.
  split; [intros fuel url w Hfuel; now apply fetchAvailableTickets_ends|].
  split; [|repeat split].
  intros fuel url eventId w r w' Hid Hmiss H.
  unfold fetchAvailableTickets in H. rewrite Hid in H.
  unfold bind at 1 in H. rewrite (cache_lookup_miss eventId w Hmiss) in H.
  exact (fetch_event_returns fuel url eventId w r w' H).
Qed.

(** C9: the event identifier is the run of letters and digits after the
    leftmost ["event/"] (in any case) that is followed by one, as on the
    sample URL: what is extracted stands after such a segment, no match
    starts before it and the run is not cut short; the function goes on
    with that identifier; every URL that has such a segment yields an
    identifier; and a URL with no such segment makes the function throw the
    invalid-URL error with the world untouched: no browser, no page, no
    operation at all. *)
Theorem event_id_extracted_or_invalid_url :
  EventId.event_id_of EventId.sample_url = Some "1E00625CD153457B"
  /\ (forall url eventId,
        EventId.event_id_of url = Some eventId ->
        (exists pre lit rest,
            url = (pre ++ lit ++ eventId ++ rest)%string
            /\ EventId.same_letters "event/" lit = true
            /\ eventId <> EmptyString
            /\ EventId.all_alnum eventId = true
            /\ EventId.stops rest = true
            /\ EventId.event_id_of (pre ++ lit) = None)
        /\ forall fuel w,
             fetchAvailableTickets fuel url w =
             (cached <- cache_lookup eventId ;;
              match cached with
              | Some cachedData => ret cachedData
              | None => fetch_event fuel url eventId
              end) w)
  /\ (forall url,
        ~ EventId.has_event_segment url ->
        forall fuel w, fetchAvailableTickets fuel url w = (Throw invalid_url, w))
  /\ (forall url,
        EventId.has_event_segment url ->
        exists eventId, EventId.event_id_of url = Some eventId).
Proof.
  split; [reflexivity|]. split; [|split].
  - intros url eventId Hid. split.
    + rewrite EventId.event_id_of_regex in Hid.
      destruct (EventId.regex_match_leftmost url eventId Hid)
        as (pre & lit & rest & H).
      exists pre, lit, rest. now rewrite EventId.event_id_of_regex.
    + intros fuel w. unfold fetchAvailableTickets. now rewrite Hid.
  - intros url Hno fuel w. apply EventId.event_id_of_None in Hno.
    unfold fetchAvailableTickets. now rewrite Hno.
  - intros url Hseg.
    destruct (EventId.event_id_of url) as [eventId|] eqn:E; [eauto|].
    now apply EventId.event_id_of_None in E.
Qed.

Lemma event_id_extracted_or_invalid_url_witness :
  fetchAvailableTickets 3 "https://www.ticketmaster.com/event/"
    (world_of (fun _ => calm))
  = (Throw invalid_url, world_of (fun _ => calm)).
Proof.
  destruct event_id_extracted_or_invalid_url as (_ & _ & H & _).
  apply H. intros (pre & lit & c & rest & Hurl & Hlit & Hc).
  assert (Hsome : exists id,
             EventId.regex_match "https://www.ticketmaster.com/event/" = Some id).
  { rewrite Hurl. now apply EventId.regex_match_complete. }
  destruct Hsome as [id Hid]. vm_compute in Hid. discriminate.
Defined.

End Fetch.

(** ** More about the network capture *)

Module CaptureFacts.
Import Json Capture.

(** The payload a response carries for the capture, if any: its URL
    contains the identifier, its request is an xhr, and its body parses to
    an object or an array. *)
Definition payload_of (eventId : string) (r : Response) : option json :=
  if includes (resp_url r) eventId && String.eqb (resourceType r) "xhr"
  then match body r with
       | Some json => if is_object json then Some json else None
       | None => None
       end
  else None.

Fixpoint first_payload (eventId : string) (rs : list Response) : option json :=
  match rs with
  | [] => None
  | r :: rest =>
      match payload_of eventId r with
      | Some json => Some json
      | None => first_payload eventId rest
      end
  end.

Lemma settled_stays : forall eventId st ev v,
  settled st = Some v -> settled (step eventId st ev) = Some v.
Proof.
  intros eventId st ev v H. destruct ev as [r|]; simpl.
  - destruct (attached st); [|assumption]. unfold responseHandler.
    destruct (includes (resp_url r) eventId && String.eqb (resourceType r) "xhr");
      [|assumption].
    destruct (body r) as [j|]; [|assumption].
    destruct (is_object j); [|assumption].
    unfold resolve. simpl. now rewrite H.
  - destruct (timerArmed st); [|assumption].
    unfold on_timeout, resolve. simpl. now rewrite H.
Qed.

Lemma settled_stays_run : forall eventId events st v,
  settled st = Some v -> settled (fold_left (step eventId) events st) = Some v.
Proof.
  intros eventId events. induction events as [|ev events IH]; intros st v H; simpl.
  - assumption.
  - apply IH. now apply settled_stays.
Qed.

Lemma step_no_payload : forall eventId st r,
  payload_of eventId r = None -> step eventId st (Responded r) = st.
Proof.
  intros eventId st r H. simpl. destruct (attached st); [|reflexivity].
  unfold responseHandler. unfold payload_of in H.
  destruct (includes (resp_url r) eventId && String.eqb (resourceType r) "xhr");
    [|reflexivity].
  destruct (body r) as [j|]; [|reflexivity].
  destruct (is_object j); [discriminate|reflexivity].
Qed.

Lemma step_payload : forall eventId st r json,
  waiting st -> payload_of eventId r = Some json ->
  settled (step eventId st (Responded r)) = Some (Some json).
Proof.
  intros eventId st r json (Hs & Ha & _) H. simpl. rewrite Ha.
  unfold responseHandler. unfold payload_of in H.
  destruct (includes (resp_url r) eventId && String.eqb (resourceType r) "xhr");
    [|discriminate].
  destruct (body r) as [j|]; [|discriminate].
  destruct (is_object j); [|discriminate].
  inversion H; subst. unfold resolve. simpl. now rewrite Hs.
Qed.

(** X1: the capture resolves with the payload of the first response that
    carries one, and with [null] when no response does: responses for other
    URLs, of other resource types, with a body that is no JSON or is a JSON
    number, string, boolean or [null] are passed over, and a later payload
    never replaces the first. *)
Theorem capture_resolves_first_payload :
  forall (eventId : string) (responses : list Response),
    settled (fetchNetworkData eventId responses)
    = Some (first_payload eventId responses).
Proof.
  intros eventId responses. unfold fetchNetworkData, run.
  assert (Hgen : forall st, waiting st ->
            settled (fold_left (step eventId)
                       (map Responded responses ++ [TimerFired]) st)
            = Some (first_payload eventId responses)).
  { induction responses as [|r rest IH]; intros st Hw.
    - simpl. destruct Hw as (Hs & _ & Ht & _). rewrite Ht.
      unfold on_timeout, resolve. simpl. now rewrite Hs.
    - cbn [map app fold_left first_payload].
      destruct (payload_of eventId r) as [j|] eqn:E.
      + apply settled_stays_run. now apply step_payload.
      + rewrite (step_no_payload eventId st r E). now apply IH. }
  apply Hgen, started_waiting.
Qed.

End CaptureFacts.

(** ** More about [detectChanges] on listings *)

Module ChangeDetectorFacts.
Import ChangeDetector.

(** The key a record is about. *)
Definition change_key (c : ChangeEvent) : string :=
  match c with
  | PRICE_CHANGE k _ _ => k
  | NEW_SECTION k _ => k
  end.

Lemma flat_map_all_nil : forall (X Y : Type) (f : X -> list Y) (l : list X),
  (forall x, In x l -> f x = []) -> flat_map f l = [].
Proof.
  intros X Y f l H. induction l as [|x l IH]; simpl; [reflexivity|].
  rewrite (H x) by now left. apply IH. intros y Hy. apply H. now right.
Qed.

Lemma flat_map_length_le : forall (X Y : Type) (f g : X -> list Y) (l : list X),
  (forall x, List.length (f x) + List.length (g x) <= 1) ->
  List.length (flat_map f l) + List.length (flat_map g l) <= List.length l.
Proof.
  intros X Y f g l H. induction l as [|x l IH]; simpl; [lia|].
  rewrite !length_app. specialize (H x). lia.
Qed.

Lemma one_record_per_key : forall A B k,
  List.length (price_change_of A B k) + List.length (new_section_of A B k) <= 1.
Proof.
  intros A B k. unfold price_change_of, new_section_of.
  destruct (last_listing k A) as [a|], (last_listing k B) as [b|]; simpl; try lia.
  destruct (String.eqb (price a) (price b)); simpl; lia.
Qed.

Lemma first_occ_length : forall l : list string,
  List.length (JsMap.first_occ String.eqb l) <= List.length l.
Proof.
  induction l as [|k l IH]; simpl; [lia|].
  pose proof (filter_length_le (fun k' => negb (String.eqb k' k))
                (JsMap.first_occ String.eqb l)).
  lia.
Qed.

Lemma record_key_of_price_change : forall A B k c,
  In c (price_change_of A B k) -> change_key c = k /\ last_listing k B <> None.
Proof.
  intros A B k c H. unfold price_change_of in H.
  destruct (last_listing k A) as [a|], (last_listing k B) as [b|]; try contradiction.
  destruct (String.eqb (price a) (price b)); [contradiction|].
  destruct H as [<-|[]]. split; [reflexivity|discriminate].
Qed.

Lemma record_key_of_new_section : forall A B k c,
  In c (new_section_of A B k) -> change_key c = k /\ last_listing k B <> None.
Proof.
  intros A B k c H. unfold new_section_of in H.
  destruct (last_listing k A) as [a|], (last_listing k B) as [b|]; try contradiction.
  destruct H as [<-|[]]. split; [reflexivity|discriminate].
Qed.

Lemma same_snapshot_no_record :
  forall s : Snapshot, detectChanges (Some s) s = [].
Proof.
  intros [[ts|]]; [|reflexivity].
  rewrite detectChanges_diff_spec. unfold diff_spec.
  rewrite !flat_map_all_nil; [reflexivity| |].
  - intros k Hk. apply insertion_order_In in Hk. unfold new_section_of.
    destruct (last_listing k ts); [reflexivity|congruence].
  - intros k _. unfold price_change_of.
    destruct (last_listing k ts); [|reflexivity]. now rewrite String.eqb_refl.
Qed.

Lemma flat_map_nil_inv : forall (X Y : Type) (f : X -> list Y) (l : list X) x,
  flat_map f l = [] -> In x l -> f x = [].
Proof.
  intros X Y f l x. induction l as [|y l IH]; simpl; [contradiction|].
  intros H [->|Hin]; apply app_eq_nil in H as [H1 H2]; auto.
Qed.

(** X2: no change is reported exactly when every section of the new
    snapshot is in the old one with the same price, the last listing of a
    section standing for it; sections that are only in the old snapshot do
    not count. In particular a snapshot compared with itself has no
    changes, whether or not it carries a ticket array and whatever
    duplicates the array has. *)
Theorem detectChanges_no_change :
  (forall s : Snapshot, detectChanges (Some s) s = [])
  /\ forall A B : list TicketListing,
       detectChanges (Some (mkSnapshot (Some A))) (mkSnapshot (Some B)) = []
       <-> forall k, In k (map sectionRow B) ->
             exists a b, last_listing k A = Some a /\ last_listing k B = Some b
                         /\ price a = price b.
Proof.
  split; [exact same_snapshot_no_record|].
  intros A B. rewrite detectChanges_diff_spec. unfold diff_spec. split.
  - intros H k Hk. apply app_eq_nil in H as [Hp Hn].
    assert (Hin : In k (insertion_order B))
      by exact (proj2 (JsMap.In_first_occ String.eqb String.eqb_spec k
                         (map sectionRow B)) Hk).
    pose proof (flat_map_nil_inv _ _ _ _ k Hp Hin) as Hpk.
    pose proof (flat_map_nil_inv _ _ _ _ k Hn Hin) as Hnk.
    unfold price_change_of in Hpk. unfold new_section_of in Hnk.
    destruct (last_listing k B) as [b|] eqn:Eb;
      [|now apply last_listing_None in Eb].
    destruct (last_listing k A) as [a|]; [|discriminate].
    exists a, b. repeat split.
    destruct (String.eqb_spec (price a) (price b)); [assumption|discriminate].
  - intros H.
    assert (Hk : forall k, In k (insertion_order B) ->
                   price_change_of A B k = [] /\ new_section_of A B k = []).
    { intros k Hin.
      apply (proj1 (JsMap.In_first_occ String.eqb String.eqb_spec k
                      (map sectionRow B))) in Hin.
      destruct (H k Hin) as (a & b & Ea & Eb & Hprice).
      unfold price_change_of, new_section_of. rewrite Ea, Eb, Hprice.
      now rewrite String.eqb_refl. }
    rewrite !flat_map_all_nil; [reflexivity| |]; intros k Hin; now apply Hk.
Qed.

Lemma key_filter_price_change : forall A B k k',
  filter (fun c => String.eqb (change_key c) k) (price_change_of A B k')
  = if String.eqb k' k then price_change_of A B k' else [].
Proof.
  intros A B k k'. unfold price_change_of.
  destruct (last_listing k' A) as [a|], (last_listing k' B) as [b|];
    try (now destruct (String.eqb k' k)).
  destruct (String.eqb (price a) (price b)); simpl; now destruct (String.eqb k' k).
Qed.

Lemma key_filter_new_section : forall A B k k',
  filter (fun c => String.eqb (change_key c) k) (new_section_of A B k')
  = if String.eqb k' k then new_section_of A B k' else [].
Proof.
  intros A B k k'. unfold new_section_of.
  destruct (last_listing k' A) as [a|], (last_listing k' B) as [b|]; simpl;
    now destruct (String.eqb k' k).
Qed.

Lemma records_of_key : forall A B k,
  filter (fun c => String.eqb (change_key c) k) (diff_spec A B)
  = price_change_of A B k ++ new_section_of A B k.
Proof.
  intros A B k. unfold diff_spec. rewrite filter_app.
  rewrite (filter_flat_map_one _ _ (price_change_of A B) k (insertion_order B)
             (insertion_order_NoDup B)).
  - rewrite (filter_flat_map_one _ _ (new_section_of A B) k (insertion_order B)
               (insertion_order_NoDup B)).
    + destruct (in_dec string_dec k (insertion_order B)) as [Hin|Hnin]; [reflexivity|].
      rewrite insertion_order_In in Hnin. unfold price_change_of, new_section_of.
      destruct (last_listing k B); [exfalso; apply Hnin; discriminate|].
      now destruct (last_listing k A).
    + intros k' Hne. rewrite key_filter_new_section.
      apply String.eqb_neq in Hne. now rewrite Hne.
    + rewrite key_filter_new_section. now rewrite String.eqb_refl.
  - intros k' Hne. rewrite key_filter_price_change.
    apply String.eqb_neq in Hne. now rewrite Hne.
  - rewrite key_filter_price_change. now rewrite String.eqb_refl.
Qed.

(** X3: every record is about a section of the new snapshot, so a section that
    is only in the old snapshot is never reported; a section gets at most
    one record (a price change or a new section, never both); and there are
    at most as many records as the new snapshot has listings. *)
Theorem detectChanges_only_new_sections :
  forall A B : list TicketListing,
    let d := detectChanges (Some (mkSnapshot (Some A))) (mkSnapshot (Some B)) in
    (forall c, In c d -> In (change_key c) (map sectionRow B))
    /\ (forall k, ~ In k (map sectionRow B) ->
                  filter (fun c => String.eqb (change_key c) k) d = [])
    /\ (forall k, List.length (filter (fun c => String.eqb (change_key c) k) d) <= 1)
    /\ List.length d <= List.length B.
Proof.
  intros A B d. subst d. rewrite detectChanges_diff_spec.
  split; [|split; [|split]].
  - intros c Hc. unfold diff_spec in Hc. apply in_app_or in Hc.
    destruct Hc as [Hc|Hc]; apply in_flat_map in Hc as (k & Hk & Hin).
    + destruct (record_key_of_price_change A B k c Hin) as [Hkey _]. rewrite Hkey.
      apply (proj1 (JsMap.In_first_occ String.eqb String.eqb_spec k (map sectionRow B))).
      exact Hk.
    + destruct (record_key_of_new_section A B k c Hin) as [Hkey _]. rewrite Hkey.
      apply (proj1 (JsMap.In_first_occ String.eqb String.eqb_spec k (map sectionRow B))).
      exact Hk.
  - intros k Hk. rewrite records_of_key. apply last_listing_None in Hk.
    unfold price_change_of, new_section_of. rewrite Hk.
    now destruct (last_listing k A).
  - intros k. rewrite records_of_key, length_app. apply one_record_per_key.
  - unfold diff_spec. rewrite length_app.
    etransitivity; [apply flat_map_length_le, one_record_per_key|].
    unfold insertion_order. etransitivity; [apply first_occ_length|].
    now rewrite length_map.
Qed.

End ChangeDetectorFacts.

(** ** More about the update step *)

Module PollerFacts.
Import ChangeDetector Poller.

Lemma update_step_lastNetworkData : forall ticketUrl r,
  tu_lastNetworkData (update_step ticketUrl r) =
  match res_networkData r with
  | Some nd => Some nd
  | None => tu_lastNetworkData ticketUrl
  end.
Proof.
  intros ticketUrl r. unfold update_step, track_changes.
  destruct (res_stadiumData r), (res_networkData r); reflexivity.
Qed.

Lemma update_step_tickets : forall ticketUrl r,
  tu_tickets (update_step ticketUrl r) = res_tickets r.
Proof.
  intros ticketUrl r. unfold update_step, track_changes.
  destruct (res_stadiumData r), (res_networkData r); reflexivity.
Qed.

Lemma update_step_same_payload : forall ticketUrl r,
  tu_lastNetworkData ticketUrl = res_networkData r \/ res_networkData r = None ->
  tu_changes (update_step ticketUrl r) = tu_changes ticketUrl.
Proof.
  intros ticketUrl r H. unfold update_step, track_changes.
  destruct (res_networkData r) as [nd|] eqn:E.
  - destruct H as [H|H]; [|discriminate].
    destruct (res_stadiumData r); simpl; rewrite H;
      now rewrite ChangeDetectorFacts.same_snapshot_no_record.
  - destruct (res_stadiumData r); reflexivity.
Qed.

(** X4: applying the same fetch result a second time adds no change: after the
    first step the stored payload is the fetched one, and a payload compared
    with itself has no changes. *)
Theorem repeated_result_adds_no_change :
  forall (ticketUrl : TicketUrl) (r : FetchResult),
    tu_changes (update_step (update_step ticketUrl r) r)
    = tu_changes (update_step ticketUrl r).
Proof.
  intros ticketUrl r. apply update_step_same_payload.
  rewrite update_step_lastNetworkData.
  destruct (res_networkData r); [now left|now right].
Qed.

Lemma last_cons_default : forall (X : Type) (l : list X) (x d d' : X),
  last (x :: l) d = last (x :: l) d'.
Proof.
  intros X l. induction l as [|y l IH]; intros x d d'; [reflexivity|].
  change (last (y :: l) d = last (y :: l) d'). apply IH.
Qed.

(** The payload the record holds after a run: the last one fetched. *)
Fixpoint last_payload (stored : option Snapshot) (results : list FetchResult)
  : option Snapshot :=
  match results with
  | [] => stored
  | r :: rest =>
      last_payload (match res_networkData r with
                    | Some nd => Some nd
                    | None => stored
                    end) rest
  end.

(** X5: after a run of update steps the stored tickets are those of the
    last result, and the stored payload is the last payload a result
    carried (a result without a payload leaves it as it was); with no step
    both are as they were. *)
Theorem run_of_update_steps :
  forall (results : list FetchResult) (ticketUrl : TicketUrl),
    let final := fold_left update_step results ticketUrl in
    tu_tickets final = last (map res_tickets results) (tu_tickets ticketUrl)
    /\ tu_lastNetworkData final = last_payload (tu_lastNetworkData ticketUrl) results.
Proof.
  induction results as [|r rest IH]; intros ticketUrl final; subst final.
  - simpl. split; reflexivity.
  - cbn [fold_left]. destruct (IH (update_step ticketUrl r)) as (Ht & Hp).
    rewrite Ht, Hp.
    rewrite update_step_tickets, update_step_lastNetworkData.
    split; [|reflexivity].
    cbn [map]. destruct rest as [|r' rest']; [reflexivity|].
    cbn [map]. change (last (res_tickets r :: res_tickets r' :: map res_tickets rest')
                            (tu_tickets ticketUrl))
      with (last (res_tickets r' :: map res_tickets rest') (tu_tickets ticketUrl)).
    apply last_cons_default.
Qed.

End PollerFacts.

(** ** Regular expressions and the URL check of the controller

    [TICKETMASTER_URL_REGEX.test(url)]: the expression is anchored at both
    ends and has no flags, so [test] asks whether the whole string is in
    its language, and a character of the expression stands for one code
    unit of the string. *)

Module Regex.

(** A code unit of a string, a number below 65536. The expression only
    compares code units, so the bound plays no part. *)
Definition code_unit := N.

(** The code units of a string of characters below 256. *)
Definition units (s : string) : list code_unit :=
  map N_of_ascii (list_ascii_of_string s).

Inductive regex :=
| Null
| Eps
| Sym (p : code_unit -> bool)
| Cat (r s : regex)
| Alt (r s : regex)
| Star (r : regex).

(** [r+] *)
Definition Plus (r : regex) : regex := Cat r (Star r).

(** A literal, character by character. *)
Fixpoint Lit (s : string) : regex :=
  match s with
  | EmptyString => Eps
  | String c s' => Cat (Sym (N.eqb (N_of_ascii c))) (Lit s')
  end.

Fixpoint nullable (r : regex) : bool :=
  match r with
  | Null => false
  | Eps => true
  | Sym _ => false
  | Cat r s => nullable r && nullable s
  | Alt r s => nullable r || nullable s
  | Star _ => true
  end.

(** What is left of [r] after the code unit [c]. *)
Fixpoint deriv (c : code_unit) (r : regex) : regex :=
  match r with
  | Null => Null
  | Eps => Null
  | Sym p => if p c then Eps else Null
  | Cat r s =>
      if nullable r then Alt (Cat (deriv c r) s) (deriv c s)
      else Cat (deriv c r) s
  | Alt r s => Alt (deriv c r) (deriv c s)
  | Star r => Cat (deriv c r) (Star r)
  end.

(** The whole string matches. *)
Fixpoint matches (r : regex) (s : list code_unit) : bool :=
  match s with
  | [] => nullable r
  | c :: s' => matches (deriv c r) s'
  end.

(** [.]: any code unit but a line terminator: line feed, carriage return,
    U+2028 and U+2029. *)
Definition dot (c : code_unit) : bool :=
  negb ((c =? 10) || (c =? 13) || (c =? 8232) || (c =? 8233))%N.

(** [[A-Z0-9]], without the [i] flag. *)
Definition upper_or_digit (c : code_unit) : bool :=
  ((65 <=? c) && (c <=? 90) || (48 <=? c) && (c <=? 57))%N.

(** [/^https:\/\/www\.ticketmaster\.com\/.+\/event\/[A-Z0-9]+$/] *)
Definition TICKETMASTER_URL_REGEX : regex :=
  Cat (Lit "https://www.ticketmaster.com/")
      (Cat (Plus (Sym dot))
           (Cat (Lit "/event/") (Plus (Sym upper_or_digit)))).

Definition test (r : regex) (s : list code_unit) : bool := matches r s.

(** The language of an expression. *)
Inductive lang : regex -> list code_unit -> Prop :=
| lang_eps : lang Eps []
| lang_sym : forall p c, p c = true -> lang (Sym p) [c]
| lang_cat : forall r s x y, lang r x -> lang s y -> lang (Cat r s) (x ++ y)
| lang_alt_l : forall r s x, lang r x -> lang (Alt r s) x
| lang_alt_r : forall r s x, lang s x -> lang (Alt r s) x
| lang_star_nil : forall r, lang (Star r) []
| lang_star_cons : forall r x y,
    lang r x -> lang (Star r) y -> lang (Star r) (x ++ y).

Example url_regex_accepts_sample :
  test TICKETMASTER_URL_REGEX (units EventId.sample_url) = true.
Proof. reflexivity. Qed.

Example url_regex_rejects_lower_case_id :
  test TICKETMASTER_URL_REGEX (units "https://www.ticketmaster.com/x/event/ab12")
  = false.
Proof. reflexivity. Qed.

(** A path with the line separator U+2028 in it. *)
Example url_regex_rejects_line_separator :
  test TICKETMASTER_URL_REGEX
    (units "https://www.ticketmaster.com/a" ++ [8232%N] ++ units "b/event/AB12")
  = false.
Proof. reflexivity. Qed.

Lemma lang_null_inv : forall x, ~ lang Null x.
Proof. intros x H. inversion H. Qed.

Lemma lang_eps_inv : forall x, lang Eps x -> x = [].
Proof. intros x H. now inversion H. Qed.

Lemma lang_sym_inv : forall p x,
  lang (Sym p) x -> exists c, x = [c] /\ p c = true.
Proof. intros p x H. inversion H; subst. eauto. Qed.

Lemma lang_cat_inv : forall r s x,
  lang (Cat r s) x -> exists a b, x = a ++ b /\ lang r a /\ lang s b.
Proof. intros r s x H. inversion H; subst. eauto. Qed.

Lemma lang_alt_inv : forall r s x, lang (Alt r s) x -> lang r x \/ lang s x.
Proof. intros r s x H. inversion H; subst; auto. Qed.

Lemma nullable_lang : forall r, nullable r = true <-> lang r [].
Proof.
  induction r; simpl.
  - split; [discriminate|intros H; now apply lang_null_inv in H].
  - split; [constructor|reflexivity].
  - split; [discriminate|].
    intros H. apply lang_sym_inv in H as (c & Hc & _). discriminate.
  - rewrite andb_true_iff, IHr1, IHr2. split.
    + intros [H1 H2]. change (@nil code_unit) with (@nil code_unit ++ []).
      now constructor.
    + intros H. apply lang_cat_inv in H as (a & b & Hab & Ha & Hb).
      symmetry in Hab. apply app_eq_nil in Hab as [-> ->]. auto.
  - rewrite orb_true_iff, IHr1, IHr2. split.
    + intros [H|H]; [now apply lang_alt_l|now apply lang_alt_r].
    + apply lang_alt_inv.
  - split; [constructor|reflexivity].
Qed.

Lemma lang_star_char : forall r c s,
  lang (Star r) (c :: s) ->
  exists x y, s = x ++ y /\ lang r (c :: x) /\ lang (Star r) y.
Proof.
  intros r c s H. remember (Star r) as sr eqn:Er.
  remember (c :: s) as cs eqn:Es. revert r c s Er Es.
  induction H; intros r0 c0 s0 Er Es; try discriminate.
  inversion Er; subst r0. destruct x as [|a x].
  - simpl in Es. eapply IHlang2; eauto.
  - simpl in Es. inversion Es; subst. exists x, y. auto.
Qed.

Lemma lang_cat_char : forall r s c x y,
  lang r (c :: x) -> lang s y -> lang (Cat r s) (c :: x ++ y).
Proof.
  intros r s c x y Hr Hs.
  change (c :: x ++ y) with ((c :: x) ++ y). now constructor.
Qed.

Lemma deriv_lang : forall r c s, lang (deriv c r) s <-> lang r (c :: s).
Proof.
  induction r; intros c s; simpl.
  - split; intros H; now apply lang_null_inv in H.
  - split; intros H; [now apply lang_null_inv in H|].
    apply lang_eps_inv in H. discriminate.
  - split.
    + intros H. destruct (p c) eqn:E; [|now apply lang_null_inv in H].
      apply lang_eps_inv in H. subst s. now constructor.
    + intros H. apply lang_sym_inv in H as (c' & Hc & Hp).
      inversion Hc; subst. rewrite Hp. constructor.
  - split.
    + intros H.
      assert (Hcat : lang (Cat (deriv c r1) r2) s -> lang (Cat r1 r2) (c :: s)).
      { intros Hc. apply lang_cat_inv in Hc as (a & b & -> & Ha & Hb).
        apply lang_cat_char; [now apply IHr1|assumption]. }
      destruct (nullable r1) eqn:En; [|now apply Hcat].
      apply lang_alt_inv in H as [H|H]; [now apply Hcat|].
      change (c :: s) with ([] ++ c :: s).
      constructor; [now apply nullable_lang|now apply IHr2].
    + intros H. apply lang_cat_inv in H as (a & b & Hab & Ha & Hb).
      destruct a as [|a0 a]; simpl in Hab.
      * subst b. apply nullable_lang in Ha. rewrite Ha.
        apply lang_alt_r. now apply IHr2.
      * inversion Hab; subst.
        assert (Hc : lang (Cat (deriv a0 r1) r2) (a ++ b))
          by (constructor; [now apply IHr1|assumption]).
        destruct (nullable r1); [now apply lang_alt_l|assumption].
  - split; intros H; apply lang_alt_inv in H as [H|H].
    + apply lang_alt_l. now apply IHr1.
    + apply lang_alt_r. now apply IHr2.
    + apply lang_alt_l. now apply IHr1.
    + apply lang_alt_r. now apply IHr2.
  - split.
    + intros H. apply lang_cat_inv in H as (a & b & -> & Ha & Hb).
      change (c :: a ++ b) with ((c :: a) ++ b).
      constructor; [now apply IHr|assumption].
    + intros H. apply lang_star_char in H as (x & y & -> & Hx & Hy).
      constructor; [now apply IHr|assumption].
Qed.

(** The derivative matcher decides the language. *)
Lemma matches_lang : forall s r, matches r s = true <-> lang r s.
Proof.
  induction s as [|c s IH]; intros r; simpl.
  - apply nullable_lang.
  - rewrite IH. apply deriv_lang.
Qed.

Lemma lang_Lit : forall s x, lang (Lit s) x <-> x = units s.
Proof.
  induction s as [|c s IH]; intros x; cbn [Lit].
  - split; [apply lang_eps_inv|intros ->; constructor].
  - change (units (String c s)) with (N_of_ascii c :: units s). split.
    + intros H. apply lang_cat_inv in H as (a & b & -> & Ha & Hb).
      apply lang_sym_inv in Ha as (c' & -> & Hc).
      apply N.eqb_eq in Hc. subst c'. apply IH in Hb. now subst b.
    + intros ->. change (N_of_ascii c :: units s) with ([N_of_ascii c] ++ units s).
      constructor; [constructor; apply N.eqb_refl|now apply IH].
Qed.

Lemma lang_star_sym : forall p x, lang (Star (Sym p)) x <-> forallb p x = true.
Proof.
  intros p. induction x as [|c x IH]; cbn [forallb].
  - split; [reflexivity|constructor].
  - rewrite andb_true_iff, <- IH. split.
    + intros H. apply lang_star_char in H as (a & b & -> & Ha & Hb).
      apply lang_sym_inv in Ha as (c' & Hc & Hp). inversion Hc; subst. auto.
    + intros [Hp Hx]. change (c :: x) with ([c] ++ x).
      constructor; [now constructor|assumption].
Qed.

Lemma lang_plus_sym : forall p x,
  lang (Plus (Sym p)) x <-> x <> [] /\ forallb p x = true.
Proof.
  intros p x. unfold Plus. split.
  - intros H. apply lang_cat_inv in H as (a & b & -> & Ha & Hb).
    apply lang_sym_inv in Ha as (c & -> & Hp). apply lang_star_sym in Hb.
    split; [discriminate|]. cbn. now rewrite Hp, Hb.
  - intros [Hne Hall]. destruct x as [|c x]; [congruence|].
    cbn [forallb] in Hall. apply andb_true_iff in Hall as [Hp Hx].
    change (c :: x) with ([c] ++ x).
    constructor; [now constructor|now apply lang_star_sym].
Qed.

(** The shape of a string of the expression's language. *)
Definition event_url (url path id : list code_unit) : Prop :=
  url = units "https://www.ticketmaster.com/" ++ path ++ units "/event/" ++ id
  /\ path <> [] /\ forallb dot path = true
  /\ id <> [] /\ forallb upper_or_digit id = true.

Lemma url_regex_lang : forall url,
  lang TICKETMASTER_URL_REGEX url -> exists path id, event_url url path id.
Proof.
  intros url H. unfold TICKETMASTER_URL_REGEX in H.
  apply lang_cat_inv in H as (a & b & -> & Ha & H). apply lang_Lit in Ha.
  apply lang_cat_inv in H as (path & c & -> & Hpath & H).
  apply lang_plus_sym in Hpath as [Hne Hdot].
  apply lang_cat_inv in H as (e & id & -> & He & Hid). apply lang_Lit in He.
  apply lang_plus_sym in Hid as [Hid Hup]. subst a e.
  exists path, id. repeat split; assumption.
Qed.

(** X6: what [TICKETMASTER_URL_REGEX.test] accepts, on strings of any
    code units: the origin, a path of one code unit or more with no line
    terminator in it (no line feed, carriage return, U+2028 or U+2029),
    ["/event/"], and an identifier of one upper-case letter or digit or
    more, up to the end; and nothing else. *)
Theorem url_regex_shape : forall url : list code_unit,
  test TICKETMASTER_URL_REGEX url = true <->
  exists path id,
    url = units "https://www.ticketmaster.com/" ++ path ++ units "/event/" ++ id
    /\ path <> [] /\ forallb dot path = true
    /\ id <> [] /\ forallb upper_or_digit id = true.
Proof.
  intros url. unfold test. rewrite matches_lang. split.
  - apply url_regex_lang.
  - intros (path & id & -> & Hne & Hdot & Hid & Hup). unfold TICKETMASTER_URL_REGEX.
    constructor; [now apply lang_Lit|].
    constructor; [now apply lang_plus_sym|].
    constructor; [now apply lang_Lit|now apply lang_plus_sym].
Qed.

(** *** Strings of characters below 256 *)

Lemma units_app_inv : forall a b u,
  units u = a ++ b ->
  exists u1 u2, u = (u1 ++ u2)%string /\ units u1 = a /\ units u2 = b.
Proof.
  induction a as [|x a IH]; intros b u H.
  - exists EmptyString, u. auto.
  - destruct u as [|c u]; [discriminate|].
    change (units (String c u)) with (N_of_ascii c :: units u) in H.
    inversion H; subst x.
    destruct (IH b u H2) as (u1 & u2 & -> & H1 & Hu2).
    exists (String c u1), u2. repeat split; [|assumption].
    change (units (String c u1)) with (N_of_ascii c :: units u1). now rewrite H1.
Qed.

Lemma N_of_ascii_inj : forall a b, N_of_ascii a = N_of_ascii b -> a = b.
Proof.
  intros a b H. rewrite <- (ascii_N_embedding a), <- (ascii_N_embedding b).
  now rewrite H.
Qed.

Lemma units_inj : forall u v, units u = units v -> u = v.
Proof.
  induction u as [|c u IH]; intros [|d v] H; try discriminate; [reflexivity|].
  change (N_of_ascii c :: units u = N_of_ascii d :: units v) in H.
  inversion H. f_equal; [now apply N_of_ascii_inj|now apply IH].
Qed.

Lemma upper_or_digit_alnum : forall c,
  upper_or_digit (N_of_ascii c) = true -> EventId.alnum c = true.
Proof.
  intros c H. unfold upper_or_digit in H.
  apply orb_true_iff in H. rewrite !andb_true_iff, !N.leb_le in H.
  assert (Hl : EventId.is_lower c = false).
  { unfold EventId.is_lower, nat_of_ascii. cbv zeta.
    destruct (Nat.leb_spec 97 (N.to_nat (N_of_ascii c))); [|reflexivity].
    destruct (Nat.leb_spec (N.to_nat (N_of_ascii c)) 122); [|reflexivity].
    exfalso. lia. }
  unfold EventId.alnum, EventId.canonicalize. rewrite Hl. cbv zeta.
  unfold EventId.is_upper, EventId.is_digit, nat_of_ascii. cbv zeta.
  apply orb_true_iff. destruct H as [[H1 H2]|[H1 H2]]; [left|right];
    apply andb_true_iff; split; apply Nat.leb_le; lia.
Qed.

(** A URL the expression accepts has an event segment. *)
Lemma accepted_has_event_segment : forall url : string,
  test TICKETMASTER_URL_REGEX (units url) = true -> EventId.has_event_segment url.
Proof.
  intros url H. unfold test in H. apply matches_lang, url_regex_lang in H.
  destruct H as (path & id & Hurl & _ & _ & Hid & Hup).
  apply units_app_inv in Hurl as (origin & u2 & -> & _ & Hurl).
  apply units_app_inv in Hurl as (p & u3 & -> & _ & Hurl).
  apply units_app_inv in Hurl as (e & i & -> & He & Hi).
  apply (units_inj e "/event/") in He. subst e.
  destruct id as [|x id]; [congruence|].
  destruct i as [|c i]; [discriminate|].
  change (units (String c i)) with (N_of_ascii c :: units i) in Hi.
  inversion Hi; subst x.
  cbn [forallb] in Hup. apply andb_true_iff in Hup as [Hc _].
  exists (origin ++ p ++ "/")%string, "event/"%string, c, i.
  split; [|split; [reflexivity|now apply upper_or_digit_alnum]].
  rewrite !EventId.append_assoc. reflexivity.
Qed.

End Regex.

(** ** The controller: [addUrl]

    The collection is the list of its documents, oldest first; the calls
    to the database succeed. A URL is a string of characters below 256,
    as the event identifier is extracted from such strings; [test] reads
    it as its code units. *)

Module Controller.

Record Doc := mkDoc
  { url : string;
    eventId : string;
    state : Poller.TicketUrl }.

(** [req.body.url], with [req.body] the object the JSON parser gives: a
    string; or any other value a parsed body can hold ([undefined], [null],
    a number, a boolean, an array, an object), given by its string form
    [String(url)], which is what [test] reads: the URL itself for an array
    that holds one URL; or a value that has no string form (an object whose
    own [toString] and [valueOf] properties are no functions, or an array
    that holds one). *)
Inductive Value :=
| Str (s : string)
| Other (text : string)
| Unprintable.

(** [String(url)]; [None] when the conversion throws a [TypeError]. *)
Definition string_form (v : Value) : option string :=
  match v with
  | Str s => Some s
  | Other text => Some text
  | Unprintable => None
  end.

Inductive Reply :=
| Status400 (error : string)            (* res.status(400).json({ error }) *)
| Success (ticketUrl : Doc).            (* res.json({ success: true, ticketUrl }) *)

(** How the handler ends: with a reply, or with a [TypeError] (of [test]
    or of [url.match]), which it does not catch: it rejects, and sends no
    reply of its own. *)
Inductive Outcome :=
| Replied (r : Reply)
| TypeError.

(** [TICKETMASTER_URL_REGEX.test(url)] *)
Definition accepted (text : string) : bool :=
  Regex.test Regex.TICKETMASTER_URL_REGEX (Regex.units text).

(** [TicketUrl.findOne({ url })] *)
Definition findOne (db : list Doc) (u : string) : option Doc :=
  find (fun d => String.eqb (url d) u) db.

(** [TicketUrl.create]: the fields given, the defaults of the schema for
    the others. *)
Definition create (u id : string) : Doc :=
  mkDoc u id (Poller.mkTicketUrl [] None [] None 0).

(** [test] turns its argument into a string; [url.match] is a function
    only when [url] is a string. *)
Definition addUrl (db : list Doc) (v : Value) : Outcome * list Doc :=
  match string_form v with
  | None => (TypeError, db)
  | Some text =>
      if negb (accepted text)
      then (Replied (Status400 "Invalid Ticketmaster URL"), db)
      else
        match v with
        | Str u =>
            match EventId.event_id_of u with
            | None => (Replied (Status400 "Could not extract event ID from URL"), db)
            | Some id =>
                match findOne db u with
                | Some ticketUrl => (Replied (Success ticketUrl), db)
                | None =>
                    let ticketUrl := create u id in
                    (Replied (Success ticketUrl), db ++ [ticketUrl])
                end
            end
        | _ => (TypeError, db)
        end
  end.

Definition urls (db : list Doc) : list string := map url db.

(** An array that holds an accepted URL passes the check and has no
    [match]. *)
Example addUrl_array_of_url :
  addUrl [] (Other EventId.sample_url) = (TypeError, []).
Proof. reflexivity. Qed.

Example addUrl_undefined :
  addUrl [] (Other "undefined") = (Replied (Status400 "Invalid Ticketmaster URL"), []).
Proof. reflexivity. Qed.

Example addUrl_unprintable : addUrl [] Unprintable = (TypeError, []).
Proof. reflexivity. Qed.

Lemma findOne_url : forall db u d, findOne db u = Some d -> url d = u /\ In d db.
Proof.
  intros db u d H. unfold findOne in H. apply find_some in H as [Hin He].
  apply String.eqb_eq in He. auto.
Qed.

Lemma findOne_None : forall db u, findOne db u = None <-> ~ In u (urls db).
Proof.
  intros db u. unfold findOne, urls. induction db as [|d db IH]; simpl.
  - tauto.
  - destruct (String.eqb_spec (url d) u) as [E|E].
    + split; [discriminate|]. intros H. elim H. now left.
    + rewrite IH. tauto.
Qed.

Lemma findOne_app_new : forall db u d,
  findOne db u = None -> url d = u -> findOne (db ++ [d]) u = Some d.
Proof.
  intros db u d Hn Hu. unfold findOne in *. induction db as [|x db IH]; simpl in *.
  - subst u. now rewrite String.eqb_refl.
  - destruct (String.eqb (url x) u); [discriminate|now apply IH].
Qed.

Lemma accepted_event_id : forall u,
  accepted u = true -> exists id, EventId.event_id_of u = Some id.
Proof.
  intros u H. apply Regex.accepted_has_event_segment in H.
  destruct (EventId.event_id_of u) as [id|] eqn:E; [eauto|].
  now apply EventId.event_id_of_None in E.
Qed.

(** X7: how [addUrl] ends is decided by the URL expression and by
    whether [url] is a string. A value whose string form the expression
    refuses gets the error 'Invalid Ticketmaster URL', with the collection
    as it was. A string the expression accepts gets the document of that
    URL; the error 'Could not extract event ID from URL' is never sent. A
    value that is no string but has a string form the expression accepts
    (an array that holds an accepted URL) makes [url.match] throw a
    [TypeError], and a value without a string form makes [test] throw one:
    the handler then rejects, sends no reply of its own and leaves the
    collection as it was. *)
Theorem addUrl_reply : forall db v,
  match string_form v with
  | None => addUrl db v = (TypeError, db)
  | Some text =>
      (accepted text = false
       /\ addUrl db v = (Replied (Status400 "Invalid Ticketmaster URL"), db))
      \/ (accepted text = true
          /\ match v with
             | Str u =>
                 exists d, fst (addUrl db v) = Replied (Success d) /\ url d = u
                           /\ In d (snd (addUrl db v))
             | _ => addUrl db v = (TypeError, db)
             end)
  end.
Proof.
  intros db v. unfold addUrl. destruct v as [u|text|]; cbn [string_form].
  - destruct (accepted u) eqn:Et; cbn [negb]; [right|left; now split].
    split; [reflexivity|]. destruct (accepted_event_id u Et) as [id ->].
    destruct (findOne db u) as [d|] eqn:Ef; cbn [fst snd].
    + exists d. apply findOne_url in Ef as [Hu Hin]. auto.
    + exists (create u id). repeat split. apply in_or_app. right. now left.
  - destruct (accepted text); cbn [negb]; [right|left]; now split.
  - reflexivity.
Qed.

(** What holds of every collection that [addUrl] alone fills: no two
    documents have the same URL, every URL is one the expression accepts,
    and every [eventId] is the one extracted from the document's URL. *)
Definition consistent (db : list Doc) : Prop :=
  NoDup (urls db)
  /\ Forall (fun d => accepted (url d) = true
                      /\ EventId.event_id_of (url d) = Some (eventId d)) db.

(** X8: [addUrl] keeps the collection consistent, only ever adds to its
    end, and adds at most one document: none when the value is refused, is
    no string, or is a URL already there. *)
Theorem addUrl_keeps_consistent : forall db v,
  consistent db ->
  consistent (snd (addUrl db v))
  /\ (snd (addUrl db v) = db
      \/ exists u id, v = Str u /\ ~ In u (urls db)
                      /\ EventId.event_id_of u = Some id
                      /\ snd (addUrl db v) = db ++ [create u id]).
Proof.
  intros db v [Hnd Hall]. unfold addUrl.
  destruct v as [u|text|]; cbn [string_form];
    [|destruct (accepted text); cbn [negb]; (split; [now split|now left])
     |split; [now split|now left]].
  destruct (accepted u) eqn:Et; cbn [negb];
    [|split; [now split|now left]].
  destruct (EventId.event_id_of u) as [id|] eqn:Eid; [|split; [now split|now left]].
  destruct (findOne db u) as [d|] eqn:Ef; cbn [snd]; [split; [now split|now left]|].
  apply findOne_None in Ef. split.
  - split.
    + unfold urls in *. rewrite map_app. simpl.
      apply NoDup_app; [assumption|repeat constructor; intros []|].
      intros x Hx [<-|[]]. contradiction.
    + apply Forall_app. split; [assumption|]. repeat constructor; assumption.
  - right. exists u, id. auto.
Qed.

Lemma addUrl_keeps_consistent_witness :
  consistent (snd (addUrl [] (Str EventId.sample_url)))
  /\ (snd (addUrl [] (Str EventId.sample_url)) = []
      \/ exists u id, Str EventId.sample_url = Str u /\ ~ In u (urls [])
                      /\ EventId.event_id_of u = Some id
                      /\ snd (addUrl [] (Str EventId.sample_url))
                         = [] ++ [create u id]).
Proof.
  apply (addUrl_keeps_consistent [] (Str EventId.sample_url)).
  split; constructor.
Defined.

(** X9: posting a value again ends in the same way and changes nothing. *)
Theorem addUrl_twice : forall db v,
  addUrl (snd (addUrl db v)) v = (fst (addUrl db v), snd (addUrl db v)).
Proof.
  intros db v. destruct v as [u|text|].
  - unfold addUrl at 2 3 4. cbn [string_form].
    destruct (accepted u) eqn:Et; cbn [negb fst snd].
    + destruct (EventId.event_id_of u) as [id|] eqn:Eid; cbn [fst snd].
      * destruct (findOne db u) as [d|] eqn:Ef; cbn [fst snd]; unfold addUrl;
          cbn [string_form]; rewrite Et, Eid; cbn [negb].
        -- now rewrite Ef.
        -- now rewrite (findOne_app_new db u (create u id) Ef eq_refl).
      * unfold addUrl. cbn [string_form]. now rewrite Et, Eid.
    + unfold addUrl. cbn [string_form]. now rewrite Et.
  - unfold addUrl. cbn [string_form]. destruct (accepted text); reflexivity.
  - reflexivity.
Qed.

End Controller.

(** ** The event identifier: a round trip *)

Module EventIdFacts.
Import EventId.

(** X10: an identifier is read back: when no match starts before the segment,
    the identifier extracted from [pre ++ "event/" ++ id ++ rest] is [id],
    for an [id] of letters and digits that [rest] does not go on. *)
Theorem event_id_round_trip : forall pre id rest,
  event_id_of (pre ++ "event/") = None ->
  id <> EmptyString -> all_alnum id = true -> stops rest = true ->
  event_id_of (pre ++ "event/" ++ id ++ rest) = Some id.
Proof.
  intros pre id rest Hpre Hne Ha Hs. rewrite event_id_of_regex in *.
  induction pre as [|c pre IH].
  - cbn [append].
    assert (Hm : match_here ("event/" ++ id ++ rest) = Some id).
    { unfold match_here.
      rewrite (match_literal_complete "event/" "event/" (id ++ rest) eq_refl).
      rewrite (take_alnum_all id rest Ha Hs). destruct id; [congruence|reflexivity]. }
    now apply regex_match_here.
  - change ((String c pre ++ "event/")%string)
      with (String c (pre ++ "event/")) in Hpre.
    apply regex_match_cons_None in Hpre as [Hh Hr].
    change ((String c pre ++ "event/" ++ id ++ rest)%string)
      with (String c (pre ++ "event/" ++ id ++ rest)).
    cbn [regex_match].
    assert (Hm : match_here (String c (pre ++ "event/" ++ id ++ rest)) = None).
    { change (String c (pre ++ "event/" ++ id ++ rest))
        with (String c pre ++ "event/" ++ id ++ rest)%string.
      rewrite <- append_assoc. apply match_here_app_None; [|exact Hh].
      simpl. rewrite string_length_app. simpl. lia. }
    rewrite Hm. now apply IH.
Qed.

Lemma event_id_round_trip_witness :
  event_id_of ("https://www.ticketmaster.com/a-show/" ++ "event/" ++ "1E00625CD153457B"
               ++ "?lang=en")
  = Some "1E00625CD153457B".
Proof.
  apply (event_id_round_trip "https://www.ticketmaster.com/a-show/"
           "1E00625CD153457B" "?lang=en");
    [reflexivity|discriminate|reflexivity|reflexivity].
Defined.

End EventIdFacts.

(** ** What a run of [fetchAvailableTickets] leaves behind *)

Module FetchFacts.
Import Json Fetch.

Definition anything : error -> Prop := fun _ => True.

Section Quiet.

(** The operations allowed. *)
Variable quiet : Action -> bool.

(** [w'] is [w] after operations that are all [quiet], with the snapshot
    cache and the listeners as they were, and the cached browser still
    there. *)
Definition quietly (w w' : World) : Prop :=
  networkDataCache w' = networkDataCache w
  /\ listeners w' = listeners w
  /\ (browserCache w = true -> browserCache w' = true)
  /\ exists t, trace w' = trace w ++ t /\ forallb quiet t = true.

(** [m] only does [quiet] operations; what it returns satisfies [P], what
    it throws satisfies [E]. *)
Definition stays {A} (m : F A) (P : A -> Prop) (E : error -> Prop) : Prop :=
  forall w,
    quietly w (snd (m w))
    /\ match fst (m w) with
       | Ret a => P a
       | Throw e => E e
       | OutOfFuel => True
       end.

Lemma quietly_refl : forall w, quietly w w.
Proof.
  intros w. split; [reflexivity|]. split; [reflexivity|]. split; [auto|].
  exists []. now rewrite app_nil_r.
Qed.

Lemma quietly_trans : forall w1 w2 w3,
  quietly w1 w2 -> quietly w2 w3 -> quietly w1 w3.
Proof.
  intros w1 w2 w3 (Hc & Hl & Hb & t & Ht & Hq) (Hc' & Hl' & Hb' & t' & Ht' & Hq').
  split; [congruence|]. split; [congruence|]. split; [auto|].
  exists (t ++ t'). split.
  - rewrite Ht', Ht. now rewrite app_assoc.
  - rewrite forallb_app. now rewrite Hq, Hq'.
Qed.

Lemma quietly_record : forall a w, quiet a = true -> quietly w (record a w).
Proof.
  intros a w H. split; [reflexivity|]. split; [reflexivity|]. split; [auto|].
  exists [a]. split; [reflexivity|]. simpl. now rewrite H.
Qed.

Lemma stays_ret : forall A (a : A) (P : A -> Prop) E, P a -> stays (ret a) P E.
Proof. intros A a P E H w. split; [apply quietly_refl|exact H]. Qed.

Lemma stays_throw : forall A e (P : A -> Prop) (E : error -> Prop),
  E e -> stays (throw e) P E.
Proof. intros A e P E H w. split; [apply quietly_refl|exact H]. Qed.

Lemma stays_bind : forall A B (m : F A) (f : A -> F B) (P : A -> Prop)
    (Q : B -> Prop) E,
  stays m P E -> (forall a, P a -> stays (f a) Q E) -> stays (bind m f) Q E.
Proof.
  intros A B m f P Q E Hm Hf w. unfold bind. destruct (Hm w) as [Hq Hp].
  destruct (m w) as [[a|e|] w1]; simpl in *; [|now split|now split].
  destruct (Hf a Hp w1) as [Hq' Hp'].
  split; [eapply quietly_trans; eauto|exact Hp'].
Qed.

Lemma stays_bind_any : forall A B (m : F A) (f : A -> F B) (Q : B -> Prop) E,
  stays m (fun _ => True) E -> (forall a, stays (f a) Q E) -> stays (bind m f) Q E.
Proof. intros. eapply stays_bind; eauto. Qed.

Lemma stays_weaken : forall A (m : F A) (P Q : A -> Prop) (E E' : error -> Prop),
  stays m P E -> (forall a, P a -> Q a) -> (forall e, E e -> E' e) -> stays m Q E'.
Proof.
  intros A m P Q E E' Hm HP HE w. destruct (Hm w) as [Hq Hp].
  split; [exact Hq|]. destruct (fst (m w)); auto.
Qed.

Lemma stays_try_catch : forall A (m : F A) handler (P : A -> Prop) E,
  stays m P anything -> (forall e, stays (handler e) P E) ->
  stays (try_catch m handler) P E.
Proof.
  intros A m handler P E Hm Hh w. unfold try_catch. destruct (Hm w) as [Hq Hp].
  destruct (m w) as [[a|e|] w1]; simpl in *; [now split| |now split].
  destruct (Hh e w1) as [Hq' Hp'].
  split; [eapply quietly_trans; eauto|exact Hp'].
Qed.

(** What [m] returns, it returns with [Q] as well. *)
Lemma stays_returns : forall A (m : F A) (Q : A -> Prop) E,
  stays m (fun _ => True) E -> returns m Q -> stays m Q E.
Proof.
  intros A m Q E Hm Hr w. destruct (Hm w) as [Hq Hp]. split; [exact Hq|].
  destruct (m w) as [[a|e|] w1] eqn:Em; simpl in *; auto.
  exact (Hr w a w1 Em).
Qed.

Lemma stays_op : forall a E, quiet a = true -> stays (op a) (fun _ => True) E.
Proof. intros a E H w. split; [now apply quietly_record|exact I]. Qed.

Lemma stays_call : forall a (E : error -> Prop),
  (forall message, E (PageError message)) -> quiet a = true ->
  stays (call a) (fun _ => True) E.
Proof.
  intros a E HE H. unfold call. eapply stays_bind_any; [now apply stays_op|].
  intros o. destruct (fails o); [now apply stays_throw|now apply stays_ret].
Qed.

Lemma stays_clock : forall E, quiet Now = true -> stays clock (fun _ => True) E.
Proof.
  intros E H. unfold clock. eapply stays_bind_any; [now apply stays_op|].
  intros o. now apply stays_ret.
Qed.

Lemma stays_sleep : forall ms E,
  quiet (Sleep ms) = true -> stays (sleep ms) (fun _ => True) E.
Proof.
  intros ms E H. unfold sleep. eapply stays_bind_any; [now apply stays_op|].
  intros o. now apply stays_ret.
Qed.

Lemma stays_captureScreenshot : forall name E,
  quiet Now = true -> (forall stamp, quiet (Screenshot name stamp) = true) ->
  stays (captureScreenshot name) (fun _ => True) E.
Proof.
  intros name E Hn Hs. unfold captureScreenshot.
  eapply stays_bind_any; [now apply stays_clock|intros timestamp].
  eapply stays_bind_any; [apply stays_op, Hs|intros o]. now apply stays_ret.
Qed.

Lemma stays_while : forall S (cond : S -> bool) (body : S -> F S)
    (Inv : S -> Prop) E,
  (forall s, Inv s -> cond s = true -> stays (body s) Inv E) ->
  forall fuel s, Inv s ->
    stays (while_ fuel cond body s) (fun s' => Inv s' /\ cond s' = false) E.
Proof.
  intros S cond body Inv E Hbody. induction fuel as [|fuel IH]; intros s Hs; simpl.
  - destruct (cond s) eqn:Ec; [|now apply stays_ret].
    intros w. split; [apply quietly_refl|exact I].
  - destruct (cond s) eqn:Ec; [|now apply stays_ret].
    eapply stays_bind; [now apply Hbody|]. intros s' Hs'. now apply IH.
Qed.

Lemma stays_closePages : forall n E,
  (forall message, E (PageError message)) ->
  (forall index, quiet (ClosePage index) = true) ->
  stays (closePages n) (fun _ => True) E.
Proof.
  intros n E HE Hq. induction n as [|n IH]; simpl.
  - now apply stays_ret.
  - eapply stays_bind_any; [now apply stays_call|intros _; exact IH].
Qed.

Lemma stays_getBrowser : forall (E : error -> Prop),
  (forall message, E (PageError message)) -> quiet Launch = true ->
  stays getBrowser (fun _ => True) E.
Proof.
  intros E HE Hq w. unfold getBrowser.
  destruct (browserCache w); [split; [apply quietly_refl|exact I]|].
  unfold bind, call, bind, op, ret, throw. cbn.
  destruct (fails (env w (List.length (trace w)))); cbn;
    (split; [|auto]);
    (split; [reflexivity|]); (split; [reflexivity|]); (split; [auto|]);
    exists [Launch]; (split; [reflexivity|simpl; now rewrite Hq]).
Qed.

End Quiet.

(** *** The navigation loop *)

Definition is_goto (a : Action) : bool :=
  match a with Goto _ => true | _ => false end.

(** The navigations in a trace. *)
Definition gotos (t : list Action) : nat := List.length (filter is_goto t).

Definition no_goto (a : Action) : bool := negb (is_goto a).

Lemma gotos_quiet : forall t, forallb no_goto t = true -> gotos t = 0%nat.
Proof.
  unfold gotos, no_goto. induction t as [|a t IH]; simpl; [reflexivity|].
  intros H. apply andb_true_iff in H as [Ha Ht].
  destruct (is_goto a); [discriminate|now apply IH].
Qed.

Lemma gotos_app : forall t u, gotos (t ++ u) = (gotos t + gotos u)%nat.
Proof. intros. unfold gotos. now rewrite filter_app, length_app. Qed.

Ltac quiet_steps :=
  repeat first
    [ apply stays_ret; exact I
    | apply stays_throw; exact I
    | apply stays_call; [intros; exact I|reflexivity]
    | apply stays_op; reflexivity
    | apply stays_clock; reflexivity
    | apply stays_sleep; reflexivity
    | apply stays_captureScreenshot; [reflexivity|intros; reflexivity]
    | apply stays_closePages; [intros; exact I|intros; reflexivity]
    | apply stays_getBrowser; [intros; exact I|reflexivity]
    | apply stays_bind_any; [|intros ?]
    | apply stays_try_catch; [|intros ?]
    | match goal with
      | |- stays _ (if ?b then _ else _) _ _ => destruct b
      | |- stays _ (match ?x with Some _ => _ | None => _ end) _ _ => destruct x
      end ].

Definition nav_step (st st' : NavState) : Prop :=
  st' = mkNav (retryCount st) true
  \/ (st' = mkNav (Datatypes.S (retryCount st)) false
      /\ Datatypes.S (retryCount st) <> maxRetries).

(** What follows the [page.goto] of one iteration does not navigate; the
    iteration succeeds, or counts one more failure, or throws at the third
    failure. *)
Lemma nav_after_goto : forall st o,
  stays no_goto
    (try_catch
       ((fun _ : Obs => closeOtherTabs ;;; sleep 12000 ;;; ret (mkNav (retryCount st) true)) o)
       (fun err =>
          let retryCount := Datatypes.S (retryCount st) in
          captureScreenshot ("navigation_failed_attempt_" ++ decimal retryCount) ;;;
          if (retryCount =? maxRetries)%nat then throw err
          else sleep 2000 ;;; ret (mkNav retryCount false)))
    (nav_step st) (fun _ => Datatypes.S (retryCount st) = maxRetries).
Proof.
  intros st o. apply stays_try_catch.
  - unfold closeOtherTabs.
    apply stays_bind_any; [quiet_steps|intros _].
    apply stays_bind_any; [quiet_steps|intros _].
    apply stays_ret. now left.
  - intros err. cbv zeta.
    apply stays_bind_any;
      [apply stays_captureScreenshot; [reflexivity|intros; reflexivity]|intros _].
    destruct (Nat.eqb_spec (Datatypes.S (retryCount st)) maxRetries) as [E|E].
    + now apply stays_throw.
    + apply stays_bind_any; [apply stays_sleep; reflexivity|intros _].
      apply stays_ret. now right.
Qed.

Lemma nav_handler : forall st message,
  stays no_goto
    ((fun err =>
        let retryCount := Datatypes.S (retryCount st) in
        captureScreenshot ("navigation_failed_attempt_" ++ decimal retryCount) ;;;
        if (retryCount =? maxRetries)%nat then throw err
        else sleep 2000 ;;; ret (mkNav retryCount false)) (PageError message))
    (nav_step st) (fun _ => Datatypes.S (retryCount st) = maxRetries).
Proof.
  intros st message. cbv beta zeta.
  apply stays_bind_any;
    [apply stays_captureScreenshot; [reflexivity|intros; reflexivity]|intros _].
  destruct (Nat.eqb_spec (Datatypes.S (retryCount st)) maxRetries) as [E|E].
  - now apply stays_throw.
  - apply stays_bind_any; [apply stays_sleep; reflexivity|intros _].
    apply stays_ret. now right.
Qed.

(** One iteration navigates exactly once. *)
Lemma nav_body_once : forall url st w,
  exists t,
    trace (snd (nav_body url st w)) = trace w ++ Goto url :: t
    /\ gotos t = 0%nat
    /\ match fst (nav_body url st w) with
       | Ret st' => nav_step st st'
       | Throw _ => Datatypes.S (retryCount st) = maxRetries
       | OutOfFuel => True
       end.
Proof.
  intros url st w.
  assert (Hrun : nav_body url st w =
    match fails (env w (List.length (trace w))) with
    | Some message =>
        (fun err =>
           let retryCount := Datatypes.S (retryCount st) in
           captureScreenshot ("navigation_failed_attempt_" ++ decimal retryCount) ;;;
           if (retryCount =? maxRetries)%nat then throw err
           else sleep 2000 ;;; ret (mkNav retryCount false)) (PageError message)
          (record (Goto url) w)
    | None =>
        try_catch
          ((fun _ : Obs => closeOtherTabs ;;; sleep 12000 ;;;
                           ret (mkNav (retryCount st) true))
             (env w (List.length (trace w))))
          (fun err =>
             let retryCount := Datatypes.S (retryCount st) in
             captureScreenshot ("navigation_failed_attempt_" ++ decimal retryCount) ;;;
             if (retryCount =? maxRetries)%nat then throw err
             else sleep 2000 ;;; ret (mkNav retryCount false))
          (record (Goto url) w)
    end).
  { unfold nav_body. unfold try_catch at 1. unfold bind at 1. unfold call at 1.
    unfold bind at 1. unfold op at 1. cbn [fails].
    destruct (fails (env w (List.length (trace w)))); reflexivity. }
  rewrite Hrun. clear Hrun.
  destruct (fails (env w (List.length (trace w)))) as [message|].
  - destruct (nav_handler st message (record (Goto url) w))
      as [(_ & _ & _ & t & Ht & Hq) Hp].
    exists t. split; [|split; [now apply gotos_quiet|exact Hp]].
    rewrite Ht. cbn [record trace]. now rewrite <- app_assoc.
  - destruct (nav_after_goto st (env w (List.length (trace w))) (record (Goto url) w))
      as [(_ & _ & _ & t & Ht & Hq) Hp].
    exists t. split; [|split; [now apply gotos_quiet|exact Hp]].
    rewrite Ht. cbn [record trace]. now rewrite <- app_assoc.
Qed.

Lemma while_done : forall S (cond : S -> bool) (body : S -> F S) fuel s,
  cond s = false -> while_ fuel cond body s = ret s.
Proof. intros S cond body fuel s H. destruct fuel; simpl; now rewrite H. Qed.

Lemma while_step : forall S (cond : S -> bool) (body : S -> F S) fuel s,
  cond s = true ->
  while_ (Datatypes.S fuel) cond body s = bind (body s) (while_ fuel cond body).
Proof. intros S cond body fuel s H. simpl. now rewrite H. Qed.

Lemma nav_loop_from : forall url fuel st w,
  navigationSuccess st = false ->
  (retryCount st < maxRetries)%nat ->
  (maxRetries - retryCount st <= fuel)%nat ->
  exists t,
    trace (snd (while_ fuel nav_cond (nav_body url) st w)) = trace w ++ t
    /\ match fst (while_ fuel nav_cond (nav_body url) st w) with
       | Ret st' =>
           navigationSuccess st' = true
           /\ (retryCount st <= retryCount st' < maxRetries)%nat
           /\ gotos t = Datatypes.S (retryCount st' - retryCount st)
       | Throw _ => gotos t = (maxRetries - retryCount st)%nat
       | OutOfFuel => False
       end.
Proof.
  intros url. induction fuel as [|fuel IH]; intros st w Hns Hlt Hfuel; [lia|].
  assert (Hc : nav_cond st = true).
  { unfold nav_cond. rewrite Hns. now apply andb_true_iff, conj, eq_refl; apply Nat.ltb_lt. }
  rewrite (while_step _ nav_cond (nav_body url) fuel st Hc). unfold bind.
  destruct (nav_body_once url st w) as (t & Ht & Hg & Hp).
  pose proof (ends_nav_body url st w) as Hend.
  destruct (nav_body url st w) as [[st'|e|] w1]; cbn [fst snd] in *.
  - destruct Hp as [->|[-> Hne]].
    + rewrite while_done by (unfold nav_cond; cbn; apply andb_false_r).
      unfold ret. cbn [fst snd].
      exists (Goto url :: t). split; [exact Ht|].
      cbn [navigationSuccess retryCount]. split; [reflexivity|]. split; [lia|].
      change (Goto url :: t) with ([Goto url] ++ t). rewrite gotos_app, Hg.
      replace (retryCount st - retryCount st)%nat with 0%nat by lia. reflexivity.
    + destruct (IH (mkNav (Datatypes.S (retryCount st)) false) w1 eq_refl
                  ltac:(cbn [retryCount]; lia) ltac:(cbn [retryCount]; lia))
        as (t' & Ht' & Hp').
      exists ((Goto url :: t) ++ t'). split.
      * rewrite Ht', Ht. now rewrite <- app_assoc.
      * destruct (fst (while_ fuel nav_cond (nav_body url)
                         (mkNav (Datatypes.S (retryCount st)) false) w1)) as [st'|e|];
          cbn [retryCount] in Hp'.
        -- destruct Hp' as (Hs & Hl & Hg'). split; [assumption|]. split; [lia|].
           change (Goto url :: t) with ([Goto url] ++ t).
           rewrite !gotos_app, Hg, Hg'. change (gotos [Goto url]) with 1%nat. lia.
        -- change (Goto url :: t) with ([Goto url] ++ t).
           rewrite !gotos_app, Hg, Hp'. change (gotos [Goto url]) with 1%nat. lia.
        -- exact Hp'.
  - exists (Goto url :: t). split; [exact Ht|].
    change (Goto url :: t) with ([Goto url] ++ t). rewrite gotos_app, Hg.
    change (gotos [Goto url]) with 1%nat. lia.
  - congruence.
Qed.

(** X11: the navigation loop calls [page.goto] once per iteration and at most
    three times. It leaves the loop normally only after an iteration that
    succeeded, with [retryCount] failed ones before it; after three failed
    iterations it throws. Three units of fuel are enough. *)
Theorem navigation_at_most_three_times : forall url fuel w,
  (3 <= fuel)%nat ->
  exists t,
    trace (snd (while_ fuel nav_cond (nav_body url) (mkNav 0 false) w)) = trace w ++ t
    /\ (1 <= gotos t <= 3)%nat
    /\ match fst (while_ fuel nav_cond (nav_body url) (mkNav 0 false) w) with
       | Ret st =>
           navigationSuccess st = true /\ gotos t = Datatypes.S (retryCount st)
       | Throw _ => gotos t = 3%nat
       | OutOfFuel => False
       end.
Proof.
  intros url fuel w Hfuel.
  destruct (nav_loop_from url fuel (mkNav 0 false) w eq_refl
              ltac:(cbn [retryCount]; unfold maxRetries; lia)
              ltac:(cbn [retryCount]; unfold maxRetries; lia)) as (t & Ht & Hp).
  unfold maxRetries in *.
  exists t. split; [exact Ht|].
  destruct (fst (while_ fuel nav_cond (nav_body url) (mkNav 0 false) w)) as [st|e|];
    cbn [retryCount] in Hp.
  - destruct Hp as (Hs & Hl & Hg). rewrite Nat.sub_0_r in Hg.
    split; [lia|]. split; assumption.
  - split; [lia|exact Hp].
  - destruct Hp.
Qed.

Lemma navigation_at_most_three_times_witness :
  exists t,
    trace (snd (while_ 3 nav_cond (nav_body EventId.sample_url) (mkNav 0 false)
                  (world_of (fun _ => loading_forever))))
    = trace (world_of (fun _ => loading_forever)) ++ t
    /\ (1 <= gotos t <= 3)%nat
    /\ match fst (while_ 3 nav_cond (nav_body EventId.sample_url) (mkNav 0 false)
                    (world_of (fun _ => loading_forever))) with
       | Ret st =>
           navigationSuccess st = true /\ gotos t = Datatypes.S (retryCount st)
       | Throw _ => gotos t = 3%nat
       | OutOfFuel => False
       end.
Proof.
  apply (navigation_at_most_three_times EventId.sample_url 3
           (world_of (fun _ => loading_forever))).
  lia.
Defined.

(** *** The extraction stage is never reached, the browser is reused *)

(** The operations of the data extraction and of the publication: the
    stadium map, the network capture, the listings, the result file and
    the [ticketUpdate] event. *)
Definition extracting (a : Action) : bool :=
  match a with
  | EvalOuterHTML _ | EvalSections | AwaitResponses | EvalListings
  | WriteFile _ _ _ | Emit _ _ => true
  | _ => false
  end.

Definition is_launch (a : Action) : bool :=
  match a with Launch => true | _ => false end.

(** The browser launches in a trace. *)
Definition launches (t : list Action) : nat := List.length (filter is_launch t).

(** Neither of the two. *)
Definition routine (a : Action) : bool := negb (extracting a) && negb (is_launch a).

Lemma routine_trace : forall t,
  forallb routine t = true ->
  launches t = 0%nat /\ forall a, In a t -> extracting a = false.
Proof.
  unfold launches, routine. induction t as [|x t IH]; simpl;
    [intros _; split; [reflexivity|intros a []]|].
  intros H. apply andb_true_iff in H as [Hx Ht].
  apply andb_true_iff in Hx as [He Hl].
  apply negb_true_iff in He. apply negb_true_iff in Hl. rewrite Hl.
  destruct (IH Ht) as [H0 Hall]. split; [exact H0|].
  intros a [<-|Ha]; auto.
Qed.

Lemma launches_app : forall t u, launches (t ++ u) = (launches t + launches u)%nat.
Proof. intros. unfold launches. now rewrite filter_app, length_app. Qed.

Lemma nav_body_quiet : forall url st,
  stays routine (nav_body url st) (fun _ => True) anything.
Proof. intros url st. unfold nav_body, closeOtherTabs. quiet_steps. Qed.

Lemma gate_body_quiet : forall st,
  stays routine (gate_body st) (fun _ => True) anything.
Proof. intros st. unfold gate_body. quiet_steps. Qed.

Lemma while_quiet : forall S (cond : S -> bool) (body : S -> F S) fuel s,
  (forall s, stays routine (body s) (fun _ => True) anything) ->
  stays routine (while_ fuel cond body s) (fun _ => True) anything.
Proof.
  intros S cond body fuel s Hbody.
  apply (stays_weaken _ _ _ (fun s' => True /\ cond s' = false) _ anything);
    [|auto|auto].
  apply stays_while; [|exact I]. intros s0 _ _. apply Hbody.
Qed.

Lemma validate_quiet : forall eventId,
  stays routine (validate eventId) (fun _ => False) anything.
Proof.
  intros eventId. apply stays_returns; [|apply validate_never_returns].
  unfold validate, real_event_page, reload_and_recheck, last_checkbox_click,
    unresolvable.
  quiet_steps.
Qed.

(** [fetch_event] once it has its page. *)
Definition on_page (fuel : nat) (url eventId : string) : F json :=
  call (SetViewport 860 480) ;;;
  call (SetUserAgent userAgent) ;;;
  while_ fuel nav_cond (nav_body url) (mkNav 0 false) ;;;
  gate <- gate_loop fuel ;;
  if negb (passed gate)
  then
    captureScreenshot "final_failed_status" ;;;
    ret (failed_result eventId)
  else
    call (WaitForSelector acceptSelector 120000) ;;;
    captureScreenshot "accept_and_continue_modal" ;;;
    call (Click acceptSelector) ;;;
    call WaitForLoaded ;;;
    captureScreenshot "full_page_loaded_after_accept" ;;;
    realEventPage <- validate eventId ;;
    if negb realEventPage
    then ret (bot_check_result eventId)
    else extract_and_publish fuel eventId.

(** [fetch_event] once it has the browser. *)
Definition on_new_page (fuel : nat) (url eventId : string) : F json :=
  call NewPage ;;; on_page fuel url eventId.

Lemma fetch_event_on_new_page : forall fuel url eventId,
  fetch_event fuel url eventId = (getBrowser ;;; on_new_page fuel url eventId).
Proof. reflexivity. Qed.

Lemma on_page_quiet : forall fuel url eventId,
  stays routine (on_page fuel url eventId) (fun _ => True) anything.
Proof.
  intros fuel url eventId. unfold on_page.
  do 2 (apply stays_bind_any; [quiet_steps|intros _]).
  apply stays_bind_any; [apply while_quiet, nav_body_quiet|intros _].
  apply stays_bind_any; [apply while_quiet, gate_body_quiet|intros gate].
  destruct (negb (passed gate)); [quiet_steps|].
  do 5 (apply stays_bind_any; [quiet_steps|intros _]).
  eapply stays_bind; [apply validate_quiet|]. intros b [].
Qed.

Lemma on_new_page_quiet : forall fuel url eventId,
  stays routine (on_new_page fuel url eventId) (fun _ => True) anything.
Proof.
  intros fuel url eventId. unfold on_new_page.
  apply stays_bind_any; [quiet_steps|intros _]. apply on_page_quiet.
Qed.

(** The first thing done with the browser is to open a page. *)
Lemma on_new_page_trace : forall fuel url eventId w,
  (browserCache w = true ->
   browserCache (snd (on_new_page fuel url eventId w)) = true)
  /\ exists t,
       trace (snd (on_new_page fuel url eventId w)) = trace w ++ NewPage :: t
       /\ launches t = 0%nat.
Proof.
  intros fuel url eventId w. unfold on_new_page, bind, call, bind, op, ret, throw.
  cbn. destruct (fails (env w (List.length (trace w)))); cbn.
  - split; [auto|]. exists []. split; reflexivity.
  - destruct (on_page_quiet fuel url eventId (record NewPage w))
      as [(_ & _ & Hb & t & Ht & Hq) _].
    destruct (routine_trace t Hq) as [Hn _].
    split; [exact Hb|].
    exists t. split; [|exact Hn]. rewrite Ht. cbn. now rewrite <- app_assoc.
Qed.

Lemma cache_lookup_quiet : forall eventId,
  stays routine (cache_lookup eventId) (fun _ => True) anything.
Proof.
  intros eventId w. unfold cache_lookup.
  destruct (JsMap.get String.eqb eventId (networkDataCache w)) as [cachedData|].
  - assert (H : stays routine
                  (t <- clock ;;
                   if (t - timestamp cachedData <? 5000)%Z
                   then ret (Some (data cachedData)) else ret None)
                  (fun _ => True) anything) by quiet_steps.
    apply H.
  - split; [apply quietly_refl|exact I].
Qed.

(** What [getBrowser] does: nothing with a cached browser; one launch
    without, cached when it resolves. *)
Lemma getBrowser_run : forall w,
  networkDataCache (snd (getBrowser w)) = networkDataCache w
  /\ listeners (snd (getBrowser w)) = listeners w
  /\ trace (snd (getBrowser w))
     = trace w ++ (if browserCache w then [] else [Launch])
  /\ (fst (getBrowser w) = Ret tt -> browserCache (snd (getBrowser w)) = true)
  /\ (browserCache w = true -> snd (getBrowser w) = w).
Proof.
  intros w. unfold getBrowser. destruct (browserCache w) eqn:Eb.
  - cbn. rewrite app_nil_r. auto.
  - unfold bind, call, bind, op, ret, throw. cbn.
    destruct (fails (env w (List.length (trace w)))); cbn;
      repeat split; discriminate.
Qed.

(** What a call leaves behind: the trace it adds has no operation of the
    extraction stage and at most one launch, none with a cached browser,
    which stays cached; the snapshot cache and the listeners are as they
    were. *)
Lemma fetch_leaves : forall fuel url w,
  networkDataCache (snd (fetchAvailableTickets fuel url w)) = networkDataCache w
  /\ listeners (snd (fetchAvailableTickets fuel url w)) = listeners w
  /\ (browserCache w = true ->
      browserCache (snd (fetchAvailableTickets fuel url w)) = true)
  /\ exists t,
       trace (snd (fetchAvailableTickets fuel url w)) = trace w ++ t
       /\ (forall a, In a t -> extracting a = false)
       /\ launches t = (if browserCache w then 0 else launches t)%nat
       /\ (launches t <= 1)%nat.
Proof.
  intros fuel url w. unfold fetchAvailableTickets.
  destruct (EventId.event_id_of url) as [eventId|].
  2:{ cbn. split; [reflexivity|]. split; [reflexivity|]. split; [auto|].
      exists []. rewrite app_nil_r. split; [reflexivity|].
      split; [intros a []|]. split; [now destruct (browserCache w)|cbn; lia]. }
  unfold bind.
  destruct (cache_lookup_quiet eventId w) as [(Hc & Hl & Hb & t1 & Ht1 & Hq1) _].
  destruct (routine_trace t1 Hq1) as [Hn1 He1].
  destruct (cache_lookup eventId w) as [[[cachedData|]| |] w1]; cbn [fst snd] in *.
  - cbn. split; [exact Hc|]. split; [exact Hl|]. split; [exact Hb|].
    exists t1. split; [exact Ht1|]. split; [exact He1|].
    rewrite Hn1. split; [now destruct (browserCache w)|lia].
  - rewrite fetch_event_on_new_page. unfold bind.
    destruct (getBrowser_run w1) as (Gc & Gl & Gt & Gb & Gsame).
    destruct (getBrowser w1) as [[[]| |] w2] eqn:Eg; cbn [fst snd] in *.
    + destruct (on_new_page_quiet fuel url eventId w2)
        as [(Pc & Pl & Pb & t3 & Ht3 & Hq3) _].
      destruct (routine_trace t3 Hq3) as [Hn3 He3].
      split; [congruence|]. split; [congruence|].
      split; [intros _; apply Pb, Gb; reflexivity|].
      exists (t1 ++ (if browserCache w1 then [] else [Launch]) ++ t3).
      split; [rewrite Ht3, Gt, Ht1; now rewrite <- !app_assoc|].
      split.
      * intros a Ha. apply in_app_or in Ha as [Ha|Ha]; [auto|].
        apply in_app_or in Ha as [Ha|Ha]; [|auto].
        destruct (browserCache w1); [destruct Ha|].
        destruct Ha as [<-|[]]. reflexivity.
      * rewrite !launches_app, Hn1, Hn3.
        destruct (browserCache w) eqn:Ew.
        -- rewrite (Hb eq_refl). cbn. auto.
        -- destruct (browserCache w1); cbn; auto.
    + split; [congruence|]. split; [congruence|].
      split; [intros Hw; specialize (Hb Hw); rewrite (Gsame Hb); exact Hb|].
      exists (t1 ++ (if browserCache w1 then [] else [Launch])).
      split; [rewrite Gt, Ht1; now rewrite <- app_assoc|].
      split.
      * intros a Ha. apply in_app_or in Ha as [Ha|Ha]; [auto|].
        destruct (browserCache w1); [destruct Ha|].
        destruct Ha as [<-|[]]. reflexivity.
      * rewrite !launches_app, Hn1.
        destruct (browserCache w) eqn:Ew.
        -- rewrite (Hb eq_refl). cbn. auto.
        -- destruct (browserCache w1); cbn; auto.
    + split; [congruence|]. split; [congruence|].
      split; [intros Hw; specialize (Hb Hw); rewrite (Gsame Hb); exact Hb|].
      exists (t1 ++ (if browserCache w1 then [] else [Launch])).
      split; [rewrite Gt, Ht1; now rewrite <- app_assoc|].
      split.
      * intros a Ha. apply in_app_or in Ha as [Ha|Ha]; [auto|].
        destruct (browserCache w1); [destruct Ha|].
        destruct Ha as [<-|[]]. reflexivity.
      * rewrite !launches_app, Hn1.
        destruct (browserCache w) eqn:Ew.
        -- rewrite (Hb eq_refl). cbn. auto.
        -- destruct (browserCache w1); cbn; auto.
  - cbn. split; [exact Hc|]. split; [exact Hl|]. split; [exact Hb|].
    exists t1. split; [exact Ht1|]. split; [exact He1|].
    rewrite Hn1. split; [now destruct (browserCache w)|lia].
  - cbn. split; [exact Hc|]. split; [exact Hl|]. split; [exact Hb|].
    exists t1. split; [exact Ht1|]. split; [exact He1|].
    rewrite Hn1. split; [now destruct (browserCache w)|lia].
Qed.

(** X12: no call of [fetchAvailableTickets] reaches the extraction stage:
    whatever the page answers and however the call ends, it leaves the
    snapshot cache and the response listeners as they were, and among the
    operations it performed there is no read of the stadium map, of the
    network responses or of the listings, no result file and no
    [ticketUpdate] event. *)
Theorem extraction_never_reached : forall fuel url w,
  networkDataCache (snd (fetchAvailableTickets fuel url w)) = networkDataCache w
  /\ listeners (snd (fetchAvailableTickets fuel url w)) = listeners w
  /\ exists t,
       trace (snd (fetchAvailableTickets fuel url w)) = trace w ++ t
       /\ forall a, In a t -> extracting a = false.
Proof.
  intros fuel url w.
  destruct (fetch_leaves fuel url w) as (Hc & Hl & _ & t & Ht & He & _).
  split; [exact Hc|]. split; [exact Hl|]. exists t. auto.
Qed.

(** A call for an event that has no cache entry is the whole pipeline. *)
Lemma fetch_miss : forall fuel url eventId w,
  EventId.event_id_of url = Some eventId ->
  JsMap.get String.eqb eventId (networkDataCache w) = None ->
  fetchAvailableTickets fuel url w = fetch_event fuel url eventId w.
Proof.
  intros fuel url eventId w Hid Hmiss. unfold fetchAvailableTickets.
  rewrite Hid. unfold bind. now rewrite (cache_lookup_miss eventId w Hmiss).
Qed.

(** The world once the launched browser is cached. *)
Definition with_browser (w : World) : World :=
  mkWorld (env w) (trace w) (networkDataCache w) true (listeners w).

(** The pipeline without a cached browser starts with the launch: a launch
    that rejects ends the call; one that resolves is cached. *)
Lemma fetch_event_launch : forall fuel url eventId w,
  browserCache w = false ->
  fetch_event fuel url eventId w =
  match fails (env w (List.length (trace w))) with
  | Some message => (Throw (PageError message), record Launch w)
  | None => on_new_page fuel url eventId (with_browser (record Launch w))
  end.
Proof.
  intros fuel url eventId w Hb. rewrite fetch_event_on_new_page.
  unfold bind at 1. unfold getBrowser. rewrite Hb.
  unfold bind, call, bind, op, ret, throw. cbn.
  destruct (fails (env w (List.length (trace w)))); reflexivity.
Qed.


(** X13: a call launches a browser at most once, and not at all when one
    is cached, which then stays cached. Without a cached browser, a call
    for an event that has no cache entry starts with the launch: when the
    launch rejects the call throws its error and no browser is cached, when
    it resolves the browser is cached. Every call that follows a call which
    left a browser cached launches none: the calls share that browser. *)
Theorem browser_launched_at_most_once : forall fuel url w,
  exists t,
    trace (snd (fetchAvailableTickets fuel url w)) = trace w ++ t
    /\ (launches t <= 1)%nat
    /\ (browserCache w = true ->
        launches t = 0%nat
        /\ browserCache (snd (fetchAvailableTickets fuel url w)) = true)
    /\ (browserCache w = false ->
        forall eventId,
          EventId.event_id_of url = Some eventId ->
          JsMap.get String.eqb eventId (networkDataCache w) = None ->
          exists t2,
            t = Launch :: t2 /\ launches t2 = 0%nat
            /\ match fails (env w (List.length (trace w))) with
               | None => browserCache (snd (fetchAvailableTickets fuel url w)) = true
               | Some message =>
                   t2 = []
                   /\ fst (fetchAvailableTickets fuel url w) = Throw (PageError message)
                   /\ browserCache (snd (fetchAvailableTickets fuel url w)) = false
               end)
    /\ (browserCache (snd (fetchAvailableTickets fuel url w)) = true ->
        forall fuel' url',
        exists t',
          trace (snd (fetchAvailableTickets fuel' url'
                        (snd (fetchAvailableTickets fuel url w))))
          = trace (snd (fetchAvailableTickets fuel url w)) ++ t'
          /\ launches t' = 0%nat).
Proof.
  intros fuel url w.
  destruct (fetch_leaves fuel url w) as (_ & _ & Hb & t & Ht & _ & H0 & H1).
  exists t. split; [exact Ht|]. split; [exact H1|].
  split; [intros Hw; rewrite Hw in H0; auto|]. split.
  - intros Hw eventId Hid Hmiss.
    rewrite (fetch_miss fuel url eventId w Hid Hmiss) in *.
    rewrite (fetch_event_launch fuel url eventId w Hw) in *.
    destruct (fails (env w (List.length (trace w)))) as [message|].
    + cbn [fst snd] in *. exists []. cbn in Ht.
      apply app_inv_head in Ht. subst t. repeat split. exact Hw.
    + destruct (on_new_page_trace fuel url eventId (with_browser (record Launch w)))
        as (Pb & t3 & Ht3 & Hn3).
      exists (NewPage :: t3). rewrite Ht3 in Ht. cbn in Ht.
      rewrite <- app_assoc in Ht. apply app_inv_head in Ht. subst t.
      split; [reflexivity|]. split; [exact Hn3|]. now apply Pb.
  - intros Hw' fuel' url'.
    destruct (fetch_leaves fuel' url' (snd (fetchAvailableTickets fuel url w)))
      as (_ & _ & _ & t' & Ht' & _ & H0' & _).
    exists t'. split; [exact Ht'|]. now rewrite Hw' in H0'.
Qed.

(** *** The snapshot cache is never filled *)



End FetchFacts.

(** ** The cart service: [autoCartTicketmaster]

    Every awaited call of the function is an operation; the environment
    says of each one, by its position in the run, whether it resolves or
    rejects, and with which message. [options] is an object. *)

Module Cart.

Inductive Action :=
| Launch                                (* puppeteer.launch *)
| NewPage                               (* browser.newPage *)
| SetUserAgent
| Goto (url : string)
| WaitForSelector (selector : string)
| Click (selector : string)
| CloseBrowser.                         (* browser.close *)

Inductive Result :=
| Carted                                (* { success: true, message: 'Ticket carted!' } *)
| NotCarted (error : string).           (* { success: false, error: err.message } *)

Inductive outcome (A : Type) :=
| Returns (a : A)
| Rejects (message : string).
Arguments Returns {A} a.
Arguments Rejects {A} message.

Definition M (A : Type) := list Action -> outcome A * list Action.

Definition ret {A} (a : A) : M A := fun t => (Returns a, t).

Definition bind {A B} (m : M A) (f : A -> M B) : M B :=
  fun t => match m t with
           | (Returns a, t') => f a t'
           | (Rejects message, t') => (Rejects message, t')
           end.

(** [try { body } catch (err) { handler err } finally { finalizer }]: the
    finalizer runs however the rest ends; when it rejects, the statement
    rejects with its error; otherwise the statement ends as the [try] or
    the [catch] did. *)
Definition try_catch_finally {A} (body : M A) (handler : string -> M A)
    (finalizer : M unit) : M A :=
  fun t =>
    let (r, t1) := match body t with
                   | (Rejects message, t') => handler message t'
                   | done => done
                   end in
    match finalizer t1 with
    | (Returns _, t2) => (r, t2)
    | (Rejects message, t2) => (Rejects message, t2)
    end.

Section WithEnv.

(** [env n]: what the call number [n] of the run does, [None] for
    resolves, [Some message] for rejects. *)
Variable env : nat -> option string.

Definition call (a : Action) : M unit :=
  fun t =>
    (match env (List.length t) with
     | None => Returns tt
     | Some message => Rejects message
     end, t ++ [a]).

Definition autoCartTicketmaster (url : string) : M Result :=
  bind (call Launch) (fun _ =>
  bind (call NewPage) (fun _ =>
  try_catch_finally
    (bind (call SetUserAgent) (fun _ =>
     bind (call (Goto url)) (fun _ =>
     bind (call (WaitForSelector ".some-ticket-selector")) (fun _ =>
     bind (call (Click ".some-ticket-selector")) (fun _ =>
     bind (call (WaitForSelector ".cart-or-checkout-selector")) (fun _ =>
     ret Carted))))))
    (fun message => ret (NotCarted message))
    (call CloseBrowser))).

(** The browser was launched and a page was opened in it. *)
Definition opened : bool :=
  match env 0, env 1 with
  | None, None => true
  | _, _ => false
  end.

End WithEnv.

Definition is_close (a : Action) : bool :=
  match a with CloseBrowser => true | _ => false end.

(** How many times the run closes the browser. *)
Definition closes (t : list Action) : nat := List.length (filter is_close t).

(** The trace of the goal ends with [browser.close()]. *)
Ltac closed_last :=
  match goal with
  | |- exists t, ?l = t ++ [CloseBrowser] => exists (removelast l); reflexivity
  end.

(** A run in which the call number [k] rejected: it did not cart, and it
    rejects only with the error of [browser.close()]. *)
Ltac failed_step k :=
  split; [reflexivity|]; split; [intros _; closed_last|]; split;
  [ split; [discriminate|];
    let H := fresh "H" in intros H; specialize (H k ltac:(lia)); congruence
  | let message := fresh "message" in
    let H := fresh "H" in
    intros message H; first [discriminate|injection H as <-];
    match goal with
    | |- exists t a, ?l = t ++ [a] /\ _ =>
        exists (removelast l), CloseBrowser;
        split; [reflexivity|split; [cbn; assumption|auto]]
    end ].

(** X14: the browser is closed exactly once, as the last thing, in every run
    that opened a page, and in no other: a run whose [newPage] rejects
    leaves the launched browser open. The function returns
    [{ success: true }] exactly when all eight calls resolve. It rejects
    only with the error of its last call, which is then the launch, the
    [newPage] or [browser.close()]: no rejection of a page step leaves the
    function. *)
Theorem browser_closed_once : forall env url,
  let run := autoCartTicketmaster env url [] in
  closes (snd run) = (if opened env then 1 else 0)%nat
  /\ (opened env = true -> exists t, snd run = t ++ [CloseBrowser])
  /\ (fst run = Returns Carted <-> forall i, (i < 8)%nat -> env i = None)
  /\ (forall message, fst run = Rejects message ->
        exists t a, snd run = t ++ [a]
                    /\ env (List.length t) = Some message
                    /\ (a = Launch \/ a = NewPage \/ a = CloseBrowser)).
Proof.
  intros env url run. subst run.
  unfold autoCartTicketmaster, opened, try_catch_finally, bind, call, ret. cbn.
  destruct (env 0%nat) as [m0|] eqn:E0; cbn.
  { split; [reflexivity|]. split; [discriminate|]. split.
    - split; [discriminate|]. intros H. specialize (H 0%nat ltac:(lia)). congruence.
    - intros message [= <-]. exists [], Launch. auto. }
  destruct (env 1%nat) as [m1|] eqn:E1; cbn.
  { split; [reflexivity|]. split; [discriminate|]. split.
    - split; [discriminate|]. intros H. specialize (H 1%nat ltac:(lia)). congruence.
    - intros message [= <-]. exists [Launch], NewPage. auto. }
  destruct (env 2%nat) as [m2|] eqn:E2; cbn.
  { destruct (env 3%nat) as [mc|] eqn:Ec; cbn; failed_step 2%nat. }
  destruct (env 3%nat) as [m3|] eqn:E3; cbn.
  { destruct (env 4%nat) as [mc|] eqn:Ec; cbn; failed_step 3%nat. }
  destruct (env 4%nat) as [m4|] eqn:E4; cbn.
  { destruct (env 5%nat) as [mc|] eqn:Ec; cbn; failed_step 4%nat. }
  destruct (env 5%nat) as [m5|] eqn:E5; cbn.
  { destruct (env 6%nat) as [mc|] eqn:Ec; cbn; failed_step 5%nat. }
  destruct (env 6%nat) as [m6|] eqn:E6; cbn.
  { destruct (env 7%nat) as [mc|] eqn:Ec; cbn; failed_step 6%nat. }
  destruct (env 7%nat) as [mc|] eqn:Ec; cbn; [failed_step 7%nat|].
  split; [reflexivity|]. split; [intros _; closed_last|]. split.
  - split; [intros _ i Hi|reflexivity].
    do 8 (destruct i as [|i]; [assumption|]). lia.
  - discriminate.
Qed.

End Cart.

(** ** The refinement at work: the scenario of two polls on a heap *)

Module RefinementFacts.
Import Js Refinement.

Lemma scenario_old_rep : old_rep scenario_heap (VRef 2) (Some CD.snapshot_A).
Proof.
  exists 2%nat, [("tickets", VRef 1)]. repeat split.
  exists 1%nat, [VRef 0]. repeat split.
  repeat constructor.
  exists 0%nat, [("sectionRow", VStr "Sec 101 Row A"); ("price", VStr "$50")].
  repeat split.
Defined.

Lemma scenario_snapshot_rep : snapshot_rep scenario_heap (VRef 6) CD.snapshot_B.
Proof.
  exists 6%nat, [("tickets", VRef 5)]. repeat split.
  exists 5%nat, [VRef 3; VRef 4]. repeat split.
  repeat constructor.
  - exists 3%nat, [("sectionRow", VStr "Sec 101 Row A"); ("price", VStr "$60")].
    repeat split.
  - exists 4%nat, [("sectionRow", VStr "Sec 102 Row B"); ("price", VStr "$40")].
    repeat split.
Defined.

Lemma detectChanges_refines_witness :
  exists r vs h',
    detectChanges (VRef 2) (VRef 6) scenario_heap = (Ok (VRef r), h')
    /\ nth_error h' r = Some (OArray vs)
    /\ Forall2 (change_rep r h') vs
         (CD.detectChanges (Some CD.snapshot_A) CD.snapshot_B).
Proof.
  apply (detectChanges_refines scenario_heap (VRef 2) (VRef 6)
           (Some CD.snapshot_A) CD.snapshot_B).
  - exact scenario_old_rep.
  - exact scenario_snapshot_rep.
Defined.

End RefinementFacts.

(** ** The stadium data: [extractStadiumData] *)

Module StadiumFacts.
Import Json Fetch.

(** [{ stadiumImage, layoutData }] *)
Definition stadium_object (image layout : json) : json :=
  JObj [("stadiumImage", image); ("layoutData", layout)].

(** What the function can return: [null]; the object of a map that was
    found, with the sections read from the page; or an object without a
    map (no selector matched, or the element's HTML was empty), whose
    [layoutData] is [null], so that the empty-data check holds whatever
    listings the page has. *)
Definition extracted (r : option json) : Prop :=
  match r with
  | None => True
  | Some sd =>
      (exists html sections,
          html <> EmptyString
          /\ sd = stadium_object (JStr html) (JArr sections))
      \/ ((sd = stadium_object JNull JNull \/ sd = stadium_object (JStr "") JNull)
          /\ forall tickets, nothing_found (Some sd) tickets = true)
  end.

Lemma extractStadiumData_returns : returns extractStadiumData extracted.
Proof.
  unfold extractStadiumData. apply returns_try_catch;
    [|intros e; now apply returns_ret].
  apply returns_bind; intros _.
  apply returns_bind; intros stadiumImage.
  destruct stadiumImage as [html|].
  - destruct (String.eqb_spec html "") as [->|Hne]; cbn [negb].
    + apply returns_bind_post with (Q := fun j => j = JNull);
        [now apply returns_ret|].
      intros j ->. apply returns_ret. right. split; [now right|reflexivity].
    + apply returns_bind_post
        with (Q := fun j => exists sections, j = JArr sections).
      * apply returns_bind; intros o. apply returns_ret. eauto.
      * intros j [sections ->]. apply returns_ret. left. exists html, sections. auto.
  - apply returns_bind_post with (Q := fun j => j = JNull); [now apply returns_ret|].
    intros j ->. apply returns_ret. right. split; [now left|reflexivity].
Qed.

(** X16: [extractStadiumData] never throws and always returns: [null], or
    the object of a map that was found with the sections read from the
    page, or an object without a map, whose [layoutData] is [null]; in that
    last case the empty-data check of the caller holds whatever listings
    were read, so the cycle is reported as empty. *)
Theorem extractStadiumData_never_throws : forall w,
  exists r, fst (extractStadiumData w) = Ret r /\ extracted r.
Proof.
  intros w. pose proof (ends_extractStadiumData w) as Hend.
  pose proof (extractStadiumData_returns w) as Hret.
  assert (Hthrow : forall e, fst (extractStadiumData w) <> Throw e).
  { intros e. unfold extractStadiumData, try_catch.
    match goal with
    | |- context [match ?m with _ => _ end] => destruct m as [[a|e'|] w1]
    end; discriminate. }
  destruct (extractStadiumData w) as [[r|e|] w1]; cbn [fst] in *.
  - exists r. split; [reflexivity|]. now apply (Hret r w1).
  - now elim (Hthrow e).
  - now elim Hend.
Qed.

End StadiumFacts.
